(** * Melody composition engine: a shallow embedding of [src/melody.py]
    (and of [get_scale_notes] from [src/generator.py]) together with the
    properties stated about it.

    Conventions of the embedding.
    - Python [int] is [Z]; [len] is [Z.of_nat (length _)].
    - Python [float] is a rational [Q] that went through the rounding
      operator [rnd] of the class [PyFloat]: every float operation is the
      exact operation followed by [rnd].  Infinities and NaN do not occur
      in the engine and are not modelled.
    - The module-level generator of [random] is the class [PyRandom]: an
      abstract state with the primitives CPython builds [choice],
      [randint] and [sample] from.  Every theorem holds for every
      generator that satisfies the class laws.
    - [hashlib.md5(..).hexdigest()] is the class [Hashlib].
    - Exceptions and loops that may not end are the result type [outcome];
      code that draws random numbers lives in the monad [M]. *)

From Stdlib Require Import ZArith QArith Qround Lia Sorted.
From stdpp Require Import base option list gmap strings pretty.

Local Open Scope Z_scope.

(* ------------------------------------------------------------------ *)
(** ** Results, exceptions and the state monad of the generator        *)
(* ------------------------------------------------------------------ *)

Inductive pyexn : Type :=
| ValueError
| IndexError
| KeyError.

Inductive outcome (A : Type) : Type :=
| Ret (a : A)
| Raise (e : pyexn)
| OutOfFuel.

Arguments Ret {A} a.
Arguments Raise {A} e.
Arguments OutOfFuel {A}.

Definition obind {A B : Type} (m : outcome A) (k : A -> outcome B) : outcome B :=
  match m with
  | Ret a => k a
  | Raise e => Raise e
  | OutOfFuel => OutOfFuel
  end.

Notation "'try' x <- m ; k" := (obind m (fun x => k))
  (at level 10, x name, m at level 100, k at level 200,
   format "'[v' 'try'  x  <-  m ; '/' k ']'").

(** Floating point: a rounding operator on the rationals.  IEEE-754
    round-to-nearest is monotone and leaves 0 and 1 unchanged. *)
Class PyFloat : Type := {
  rnd : Q -> Q;
  rnd_mono : forall x y : Q, (x <= y)%Q -> (rnd x <= rnd y)%Q;
  rnd_0 : (rnd 0 == 0)%Q;
  rnd_1 : (rnd 1 == 1)%Q
}.

(** The generator behind the functions of module [random]. *)
Class PyRandom : Type := {
  rng_state : Type;
  (** [random.seed(a)] for an integer [a]: the new state depends on [a] only *)
  rng_seed : Z -> rng_state;
  (** [random.random()] *)
  rng_random : rng_state -> Q * rng_state;
  (** [Random._randbelow(n)] for [n > 0] *)
  rng_randbelow : Z -> rng_state -> Z * rng_state;
  (** [random.sample(range(n), k)] for [0 <= k <= n] *)
  rng_sample : Z -> Z -> rng_state -> list Z * rng_state;
  rng_randbelow_range :
    forall n g, 0 < n -> 0 <= fst (rng_randbelow n g) < n;
  rng_sample_range :
    forall n k g, 0 <= k <= n ->
      Forall (fun i => 0 <= i < n) (fst (rng_sample n k g))
}.

(** [hashlib.md5(s.encode()).hexdigest()]: some function of the string *)
Class Hashlib : Type := {
  md5_hexdigest : string -> string
}.

(* ------------------------------------------------------------------ *)
(** ** Python primitives                                               *)
(* ------------------------------------------------------------------ *)

Definition len {A : Type} (l : list A) : Z := Z.of_nat (length l).

(** [l[i]], with Python's negative indices and [IndexError]. *)
Definition getitem {A : Type} (l : list A) (i : Z) : outcome A :=
  let j := if i <? 0 then i + len l else i in
  if j <? 0 then Raise IndexError
  else match l !! Z.to_nat j with
       | Some x => Ret x
       | None => Raise IndexError
       end.

(** [l[i] = x] for a non-negative or negative index, [IndexError] out of range *)
Definition setitem {A : Type} (l : list A) (i : Z) (x : A) : outcome (list A) :=
  let j := if i <? 0 then i + len l else i in
  if (j <? 0) || (len l <=? j) then Raise IndexError
  else Ret (<[Z.to_nat j := x]> l).

(** [d[k]] on a dict: [KeyError] when the key is absent *)
Definition dict_getitem {V : Type} (d : gmap string V) (k : string) : outcome V :=
  match d !! k with
  | Some v => Ret v
  | None => Raise KeyError
  end.

(** [enumerate(l)] *)
Definition enumerate {A : Type} (l : list A) : list (Z * A) :=
  zip (seqZ 0 (len l)) l.

(** [range(a, b)] *)
Definition py_range (a b : Z) : list Z := seqZ a (b - a).

(** [min(scale, key=lambda x: abs(x - target))]: the first element at the
    least distance; [ValueError] on an empty sequence. *)
Fixpoint min_by_dist (target best : Z) (rest : list Z) : Z :=
  match rest with
  | [] => best
  | x :: rest' =>
      if Z.abs (x - target) <? Z.abs (best - target)
      then min_by_dist target x rest'
      else min_by_dist target best rest'
  end.

Definition snap_to_scale (scale : list Z) (target : Z) : outcome Z :=
  match scale with
  | [] => Raise ValueError
  | x :: rest => Ret (min_by_dist target x rest)
  end.

(** [str(l)] for a list of integers, e.g. ["[1, -2, 0]"]. *)
Definition py_str_int_list (l : list Z) : string :=
  String.append "[" (String.append (String.concat ", " (map pretty l)) "]").

(* ------------------------------------------------------------------ *)
(** ** generator.py: scales                                            *)
(* ------------------------------------------------------------------ *)

Definition NOTE_MAP : gmap string Z :=
  list_to_map
    [ ("C", 60); ("C#", 61); ("Db", 61);
      ("D", 62); ("D#", 63); ("Eb", 63);
      ("E", 64);
      ("F", 65); ("F#", 66); ("Gb", 66);
      ("G", 67); ("G#", 68); ("Ab", 68);
      ("A", 69); ("A#", 70); ("Bb", 70);
      ("B", 71) ]%string.

Definition SCALE_major : list Z := [0; 2; 4; 5; 7; 9; 11].

Definition SCALES : gmap string (list Z) :=
  list_to_map
    [ ("major", SCALE_major);
      ("minor", [0; 2; 3; 5; 7; 8; 10]);
      ("pentatonic_major", [0; 2; 4; 7; 9]);
      ("pentatonic_minor", [0; 3; 5; 7; 10]);
      ("dorian", [0; 2; 3; 5; 7; 9; 10]) ]%string.

(** [SCALES["major"]]: the key is present, the default is never used. *)
Definition SCALES_at_major : list Z := default SCALE_major (SCALES !! "major"%string).

Definition get_scale_notes (root mode : string) (octave : Z) : list Z :=
  let root_midi := default 60 (NOTE_MAP !! root) + (octave - 4) * 12 in
  let scale_intervals := default SCALES_at_major (SCALES !! mode) in
  map (fun interval => root_midi + interval) scale_intervals.

(* ------------------------------------------------------------------ *)
(** ** melody.py: data model                                           *)
(* ------------------------------------------------------------------ *)

Inductive Contour : Type :=
| ARCH
| DESCENDING
| ASCENDING
| WAVE
| STATIC.

(** [list(Contour)]: the members in definition order *)
Definition list_Contour : list Contour :=
  [ARCH; DESCENDING; ASCENDING; WAVE; STATIC].

Inductive MotifDevelopment : Type :=
| EXACT
| TRANSPOSED
| INVERTED
| RETROGRADE
| AUGMENTED
| DIMINISHED
| VARIED.

(** [list(MotifDevelopment)] *)
Definition list_MotifDevelopment : list MotifDevelopment :=
  [EXACT; TRANSPOSED; INVERTED; RETROGRADE; AUGMENTED; DIMINISHED; VARIED].

Record MelodyParams : Type := mkMelodyParams {
  root_note : string;
  mode : string;
  tempo : Z;
  duration_seconds : Z;
  octave : Z;
  contour : Contour;
  note_density : Q;
  use_motifs : bool;
  motif_length : Z;
  development_probability : Q;
  max_repetition : Z;
  variation_amount : Q;
  time_signature : Z * Z;
  syncopation : Q;
  velocity_range : Z * Z;
  legato : Q
}.

Record MelodyNote : Type := mkMelodyNote {
  pitch : Z;
  start_time : Q;
  duration : Q;
  velocity : Z
}.

Record Motif : Type := mkMotif {
  motif_notes : list MelodyNote;
  motif_contour : list Z
}.

Record Melody : Type := mkMelody {
  melody_notes : list MelodyNote;
  melody_motifs : list Motif;
  melody_params : MelodyParams;
  uniqueness_score : Q
}.

(** Float comparison [x < y] *)
Definition Qltb (x y : Q) : bool := negb (Qle_bool y x).

(** [int(x)] of a float: truncation toward zero *)
Definition py_int (x : Q) : Z :=
  if Qltb x 0 then Qceiling x else Qfloor x.

(** [max(a, b)]: [b] when [b > a], otherwise [a] *)
Definition py_max (a b : Q) : Q := if Qltb a b then b else a.

(** *** The monad of code that draws random numbers *)

Section StateMonad.

Context {RNG : PyRandom}.


Definition M (A : Type) : Type := rng_state -> outcome (A * rng_state).

Definition ret_M {A : Type} (a : A) : M A := fun g => Ret (a, g).

Definition bind_M {A B : Type} (m : M A) (k : A -> M B) : M B :=
  fun g =>
    match m g with
    | Ret (a, g') => k a g'
    | Raise e => Raise e
    | OutOfFuel => OutOfFuel
    end.

Definition lift_M {A : Type} (o : outcome A) : M A :=
  fun g =>
    match o with
    | Ret a => Ret (a, g)
    | Raise e => Raise e
    | OutOfFuel => OutOfFuel
    end.

End StateMonad.

Notation "'run' x <- m ; k" := (bind_M m (fun x => k))
  (at level 10, x name, m at level 100, k at level 200,
   format "'[v' 'run'  x  <-  m ; '/' k ']'").

Section Engine.

Context {FL : PyFloat} {RNG : PyRandom} {HL : Hashlib}.

Definition fadd (x y : Q) : Q := rnd (x + y)%Q.
Definition fsub (x y : Q) : Q := rnd (x - y)%Q.
Definition fmul (x y : Q) : Q := rnd (x * y)%Q.

(** A float literal that is not a dyadic rational, such as [0.1]: the
    rounded value.  Literals such as [0.5] or [1.5] are written exactly. *)
Definition flit (q : Q) : Q := rnd q.

(** The dataclass defaults of [MelodyParams()] *)
Definition MelodyParams_default : MelodyParams :=
  {| root_note := "C"; mode := "major"; tempo := 70; duration_seconds := 60;
     octave := 5; contour := ARCH; note_density := 1 # 2; use_motifs := true;
     motif_length := 4; development_probability := flit (6 # 10);
     max_repetition := 2; variation_amount := flit (3 # 10);
     time_signature := (4, 4); syncopation := flit (2 # 10);
     velocity_range := (50, 80); legato := flit (7 # 10) |}.

(** [a / b] on integers: the rounded quotient.  The engine divides by the
    literal 60 and by a length it has tested to be non-zero, so
    [ZeroDivisionError] cannot arise and is not modelled. *)
Definition truediv (a b : Z) : Q := rnd (inject_Z a / inject_Z b)%Q.

(** [sum(xs)] over floats: starts from the integer 0 *)
Definition py_sum (xs : list Q) : Q := fold_left fadd xs 0%Q.

(** [for x in xs: acc = body(acc, x)] *)
Fixpoint for_M {A S : Type} (xs : list A) (body : S -> A -> M S) (acc : S) : M S :=
  match xs with
  | [] => ret_M acc
  | x :: xs' => run acc' <- body acc x ; for_M xs' body acc'
  end.

(** [[e for _ in range(n)]] *)
Fixpoint repeat_M {A : Type} (n : nat) (e : M A) : M (list A) :=
  match n with
  | O => ret_M []
  | S n' => run x <- e ; run xs <- repeat_M n' e ; ret_M (x :: xs)
  end.

(** *** Module [random] *)

Definition random_seed (a : Z) : M unit := fun _ => Ret (tt, rng_seed a).

Definition random_random : M Q :=
  fun g => let '(x, g') := rng_random g in Ret (x, g').

Definition randbelow (n : Z) : M Z :=
  fun g => let '(j, g') := rng_randbelow n g in Ret (j, g').

(** [random.choice(seq)] *)
Definition random_choice {A : Type} (seq : list A) : M A :=
  if len seq =? 0 then lift_M (Raise IndexError)
  else run j <- randbelow (len seq) ; lift_M (getitem seq j).

(** [random.randint(a, b)] = [randrange(a, b + 1)] *)
Definition random_randint (a b : Z) : M Z :=
  let width := b + 1 - a in
  if 0 <? width then run j <- randbelow width ; ret_M (a + j)
  else lift_M (Raise ValueError).

(** [random.sample(range(n), k)] *)
Definition random_sample_range (n k : Z) : M (list Z) :=
  if (k <? 0) || (n <? k) then lift_M (Raise ValueError)
  else fun g => let '(l, g') := rng_sample n k g in Ret (l, g').

(** *** [Motif.get_hash] *)

(** The loop [for i in range(1, len(notes))] collecting
    [notes[i].pitch - notes[i-1].pitch] *)
Fixpoint collect_intervals (notes : list MelodyNote) (idx : list Z)
  : outcome (list Z) :=
  match idx with
  | [] => Ret []
  | i :: idx' =>
      try a <- getitem notes i ;
      try b <- getitem notes (i - 1) ;
      try rest <- collect_intervals notes idx' ;
      Ret ((pitch a - pitch b) :: rest)
  end.

Definition motif_intervals (m : Motif) : outcome (list Z) :=
  collect_intervals (motif_notes m) (py_range 1 (len (motif_notes m))).

Definition get_hash (m : Motif) : outcome string :=
  try intervals <- motif_intervals m ;
  Ret (String.substring 0 8 (md5_hexdigest (py_str_int_list intervals))).

(** *** [generate_contour] *)

Definition generate_contour (contour_type : Contour) (length : Z) : M (list Z) :=
  match contour_type with
  | ARCH =>
      let mid := length / 2 in
      run rise <- repeat_M (Z.to_nat mid) (random_choice [1; 2; 3]) ;
      run fall <- repeat_M (Z.to_nat (length - mid)) (random_choice [-1; -2; -3]) ;
      ret_M (rise ++ fall)
  | DESCENDING => repeat_M (Z.to_nat length) (random_choice [-1; -2; 0; -1])
  | ASCENDING => repeat_M (Z.to_nat length) (random_choice [1; 2; 0; 1])
  | WAVE =>
      run r <- for_M (py_range 0 length)
             (fun '(pattern, direction) i =>
                let direction := if i mod 3 =? 0 then direction * -1 else direction in
                run c <- random_choice [1; 2] ;
                ret_M (pattern ++ [direction * c], direction))
             ([], 1) ;
      ret_M (fst r)
  | STATIC => repeat_M (Z.to_nat length) (random_choice [-1; 0; 1; 0])
  end.

(** *** [generate_motif] *)

Definition generate_motif (scale : list Z) (start_pitch : Z) (length : Z)
    (contour_type : Contour) (params : MelodyParams) : M Motif :=
  run contour <- generate_contour contour_type length ;
  run r <- for_M contour
         (fun '(notes, current_pitch, current_time) interval =>
            let target_pitch := current_pitch + interval in
            run closest_scale_pitch <- lift_M (snap_to_scale scale target_pitch) ;
            run u <- random_random ;
            let pitch := if Qltb u (flit (1 # 10)) then target_pitch
                         else closest_scale_pitch in
            run v <- random_random ;
            run duration <- (if Qltb v (syncopation params)
                         then random_choice [1 # 2; 3 # 4]
                         else random_choice [1 # 2; 1 # 1; 3 # 2]) ;
            run velocity <- random_randint (fst (velocity_range params))
                                       (snd (velocity_range params)) ;
            ret_M (notes ++ [mkMelodyNote pitch current_time
                                          (fmul duration (legato params)) velocity],
                   pitch, fadd current_time duration))
         ([], start_pitch, 0%Q) ;
  ret_M (mkMotif (fst (fst r)) contour).

(** *** [develop_motif] *)

(** The tail of [develop_motif] for [RETROGRADE]: after the reversal the
    start times are recomputed from [start_time] on.  The reversed notes
    are objects this call created, so the source motif is not touched.
    ([total_duration] is computed there and never used.) *)
Definition retime (start_time : Q) (new_notes : list MelodyNote) : list MelodyNote :=
  fst (fold_left
         (fun '(done, current_time) note =>
            (done ++ [mkMelodyNote (pitch note) current_time (duration note)
                                   (velocity note)],
             fadd current_time (duration note)))
         new_notes ([], start_time)).

(** The body of [for i, note in enumerate(motif.notes)]: the note
    developed from [note] is appended to [new_notes]. *)
Definition develop_note (motif : Motif) (development : MotifDevelopment)
    (scale : list Z) (start_time0 : Q) (transposition : Z)
    (new_notes : list MelodyNote) (entry : Z * MelodyNote) : M (list MelodyNote) :=
  let '(i, note) := entry in
  let new_pitch := pitch note in
  let new_duration := duration note in
  let new_velocity := velocity note in
  run pd <-
    match development with
    | EXACT => ret_M (new_pitch, new_duration)
    | TRANSPOSED =>
        let new_pitch := new_pitch + transposition in
        run new_pitch <- lift_M (snap_to_scale scale new_pitch) ;
        ret_M (new_pitch, new_duration)
    | INVERTED =>
        if 0 <? i then
          run prev <- lift_M (getitem (motif_notes motif) (i - 1)) ;
          let original_interval := pitch note - pitch prev in
          run last <- lift_M (getitem new_notes (-1)) ;
          ret_M (pitch last - original_interval, new_duration)
        else ret_M (new_pitch, new_duration)
    | RETROGRADE => ret_M (new_pitch, new_duration)
    | AUGMENTED => ret_M (new_pitch, fmul new_duration (3 # 2))
    | DIMINISHED => ret_M (new_pitch, fmul new_duration (3 # 4))
    | VARIED =>
        run u <- random_random ;
        if Qltb u (flit (3 # 10)) then
          run d <- random_choice [-2; -1; 1; 2] ;
          let new_pitch := new_pitch + d in
          run new_pitch <- lift_M (snap_to_scale scale new_pitch) ;
          ret_M (new_pitch, new_duration)
        else ret_M (new_pitch, new_duration)
    end ;
  run first <- lift_M (getitem (motif_notes motif) 0) ;
  ret_M (new_notes ++
           [mkMelodyNote (fst pd)
              (fadd start_time0 (fsub (start_time note) (start_time first)))
              (snd pd) new_velocity]).

Definition develop_motif (motif : Motif) (development : MotifDevelopment)
    (scale : list Z) (start_time0 : Q) (transposition : Z) : M Motif :=
  run new_notes <-
    for_M (enumerate (motif_notes motif))
      (develop_note motif development scale start_time0 transposition) [] ;
  let new_notes :=
    match development with
    | RETROGRADE => retime start_time0 (rev new_notes)
    | _ => new_notes
    end in
  ret_M (mkMotif new_notes (motif_contour motif)).

(** *** [calculate_uniqueness] *)

(** The inner loop [for j in range(3)] of one window *)
Definition window_intervals (notes : list MelodyNote) (i : Z) : outcome (list Z) :=
  (fix go (js : list Z) : outcome (list Z) :=
     match js with
     | [] => Ret []
     | j :: js' =>
         try a <- getitem notes (i + j + 1) ;
         try b <- getitem notes (i + j) ;
         try rest <- go js' ;
         Ret ((pitch a - pitch b) :: rest)
     end) (py_range 0 3).

Fixpoint collect_patterns (notes : list MelodyNote) (idx : list Z)
  : outcome (list (list Z)) :=
  match idx with
  | [] => Ret []
  | i :: idx' =>
      try w <- window_intervals notes i ;
      try rest <- collect_patterns notes idx' ;
      Ret (w :: rest)
  end.

Definition calculate_uniqueness_notes (notes : list MelodyNote) : outcome Q :=
  if len notes <? 4 then Ret 1%Q
  else
    try patterns <- collect_patterns notes (py_range 0 (len notes - 3)) ;
    if len patterns =? 0 then Ret 1%Q
    else
      let unique_patterns := Z.of_nat (size (list_to_set patterns : gset (list Z))) in
      let total_patterns := len patterns in
      Ret (truediv unique_patterns total_patterns).

Definition calculate_uniqueness (melody : Melody) : outcome Q :=
  calculate_uniqueness_notes (melody_notes melody).

(** *** [optimize_melody] *)

(** The body of [for idx in indices] *)
Definition vary_note (scale : list Z) (notes : list MelodyNote) (idx : Z)
  : M (list MelodyNote) :=
  run note <- lift_M (getitem notes idx) ;
  run d <- random_choice [-2; -1; 1; 2] ;
  let new_pitch := pitch note + d in
  run new_pitch <- lift_M (snap_to_scale scale new_pitch) ;
  lift_M (setitem notes idx
            (mkMelodyNote new_pitch (start_time note) (duration note) (velocity note))).

(** One pass of the loop [for _ in range(max_iterations)].  The state is
    [(best_melody, best_score)]; [melody] is the argument of
    [optimize_melody]. *)
Definition optimize_step (melody : Melody) (scale : list Z)
    (st : Melody * Q) : M (Melody * Q) :=
  let '(best_melody, best_score) := st in
  let new_melody :=
    mkMelody (melody_notes melody) (melody_motifs melody) (melody_params melody) 0%Q in
  run num_changes <- random_randint 1 (Z.max 1 (len (melody_notes new_melody) / 4)) ;
  run indices <- random_sample_range (len (melody_notes new_melody))
                   (Z.min num_changes (len (melody_notes new_melody))) ;
  run notes' <- for_M indices (vary_note scale) (melody_notes new_melody) ;
  let new_melody :=
    mkMelody notes' (melody_motifs new_melody) (melody_params new_melody)
             (uniqueness_score new_melody) in
  run new_score <- lift_M (calculate_uniqueness new_melody) ;
  run accept <- (if Qltb best_score new_score then ret_M true
                 else run u <- random_random ; ret_M (Qltb u (flit (1 # 10)))) ;
  if accept : bool then ret_M (new_melody, new_score)
  else ret_M (best_melody, best_score).

Definition optimize_melody (melody : Melody) (max_iterations : Z) : M Melody :=
  let best_melody := melody in
  run best_score <- lift_M (calculate_uniqueness melody) ;
  let scale := get_scale_notes (root_note (melody_params melody))
                 (mode (melody_params melody)) (octave (melody_params melody)) in
  run st <- for_M (py_range 0 max_iterations)
              (fun st _ => optimize_step melody scale st)
              (best_melody, best_score) ;
  let '(best_melody, best_score) := st in
  ret_M (mkMelody (melody_notes best_melody) (melody_motifs best_melody)
                  (melody_params best_melody) best_score).

(** *** [generate_melody] *)

(** The variables the assembly loop carries: the melody under
    construction, [current_time], [motifs_used] and [pattern_counts]. *)
Record AsmState : Type := mkAsmState {
  asm_notes : list MelodyNote;
  asm_motifs : list Motif;
  current_time : Q;
  motifs_used : list Motif;
  pattern_counts : gmap string Z
}.

(** The branch "develop existing motif" of the loop *)
Definition develop_existing_motif (scale : list Z) (s : AsmState) : M Motif :=
  run source_motif <- random_choice (motifs_used s) ;
  run development <- random_choice list_MotifDevelopment ;
  run transposition <-
    match development with
    | TRANSPOSED => random_choice [0; 2; 4; 5; 7]
    | _ => ret_M 0
    end ;
  develop_motif source_motif development scale (current_time s) transposition.

(** The branch "generate new motif" of the loop; [notes] is
    [melody.notes]. *)
Definition generate_new_motif (params : MelodyParams) (scale : list Z)
    (notes : list MelodyNote) : M Motif :=
  run u <- random_random ;
  run contour <- (if Qltb u (flit (3 # 10)) then random_choice list_Contour
                  else ret_M (contour params)) ;
  run start_pitch <-
    (if negb (len notes =? 0) then
       run last <- lift_M (getitem notes (-1)) ; ret_M (pitch last)
     else lift_M (getitem scale 2)) ;
  generate_motif scale start_pitch (motif_length params) contour params.

(** The candidate motif of one pass: developed from the pool or new.
    Returns the candidate and the pool after the pass (a new motif joins
    the pool, a developed one does not). *)
Definition next_motif (params : MelodyParams) (scale : list Z) (s : AsmState)
  : M (Motif * list Motif) :=
  run develop <-
    (if use_motifs params then
       if negb (len (motifs_used s) =? 0) then
         run u <- random_random ; ret_M (Qltb u (development_probability params))
       else ret_M false
     else ret_M false) ;
  if develop : bool then
    run motif <- develop_existing_motif scale s ;
    ret_M (motif, motifs_used s)
  else
    run motif <- generate_new_motif params scale (asm_notes s) ;
    ret_M (motif, motifs_used s ++ [motif]).

(** The notes of [motif] moved to [current_time]: the loop
    [for note in motif.notes] of the accepted branch. *)
Definition adjusted_notes (now : Q) (motif : Motif) : outcome (list MelodyNote) :=
  (fix go (notes : list MelodyNote) : outcome (list MelodyNote) :=
     match notes with
     | [] => Ret []
     | note :: notes' =>
         try first <- getitem (motif_notes motif) 0 ;
         try rest <- go notes' ;
         Ret (mkMelodyNote (pitch note)
                (fadd now (fsub (start_time note) (start_time first)))
                (duration note) (velocity note) :: rest)
     end) (motif_notes motif).

(** One pass of [while current_time < total_beats] *)
Definition assembly_step (params : MelodyParams) (scale : list Z)
    (beats_per_measure : Z) (s : AsmState) : M AsmState :=
  run mp <- next_motif params scale s ;
  let '(motif, pool) := mp in
  run motif_hash <- lift_M (get_hash motif) ;
  let counts :=
    <[motif_hash := default 0 (pattern_counts s !! motif_hash) + 1]> (pattern_counts s) in
  run count <- lift_M (dict_getitem counts motif_hash) ;
  run notes_motifs <-
    (if count <=? max_repetition params then
       run adjusted <- lift_M (adjusted_notes (current_time s) motif) ;
       ret_M (asm_notes s ++ adjusted, asm_motifs s ++ [motif])
     else ret_M (asm_notes s, asm_motifs s)) ;
  let motif_duration := py_sum (map duration (motif_notes motif)) in
  ret_M (mkAsmState (fst notes_motifs) (snd notes_motifs)
           (fadd (current_time s) (py_max motif_duration (inject_Z beats_per_measure)))
           pool counts).

Fixpoint assembly_loop (fuel : nat) (params : MelodyParams) (scale : list Z)
    (beats_per_measure total_beats : Z) (s : AsmState) : M AsmState :=
  if Qltb (current_time s) (inject_Z total_beats) then
    match fuel with
    | O => lift_M OutOfFuel
    | S fuel' =>
        run s' <- assembly_step params scale beats_per_measure s ;
        assembly_loop fuel' params scale beats_per_measure total_beats s'
    end
  else ret_M s.

(** The state at loop entry: an empty melody, an empty ledger, and the
    initial motif as the only member of the pool. *)
Definition entry_state (initial_motif : Motif) : AsmState :=
  mkAsmState [] [] 0%Q [initial_motif] ∅.

(** The draft melody: everything up to the call of [optimize_melody]. *)
Definition assemble_melody (fuel : nat) (params : MelodyParams) : M AsmState :=
  let scale := get_scale_notes (root_note params) (mode params) (octave params) in
  let beats_per_measure := fst (time_signature params) in
  let total_beats := py_int (truediv (duration_seconds params * tempo params) 60) in
  run start_pitch <- lift_M (getitem scale 2) ;
  run initial_motif <- generate_motif scale start_pitch (motif_length params)
                         (contour params) params ;
  assembly_loop fuel params scale beats_per_measure total_beats
    (entry_state initial_motif).

Definition generate_melody (fuel : nat) (params : MelodyParams) (seed : option Z)
  : M Melody :=
  run _seeded <- match seed with
                 | Some a => random_seed a
                 | None => ret_M tt
                 end ;
  run s <- assemble_melody fuel params ;
  let melody := mkMelody (asm_notes s) (asm_motifs s) params 0%Q in
  optimize_melody melody 10.

(** *** Genre presets *)

(** [GENRE_PRESETS] is a module-level dict of shared [MelodyParams]
    objects.  The dict is modelled as the store of these objects: the key
    stands for the object it maps to, and a write to a field of the object
    is a write to the store. *)
Definition GENRE_PRESETS : gmap string MelodyParams :=
  let d := MelodyParams_default in
  list_to_map
    [ ("relaxation",
       mkMelodyParams (root_note d) "major" 65 (duration_seconds d) (octave d)
         ARCH (flit (4 # 10)) (use_motifs d) (motif_length d) (development_probability d)
         (max_repetition d) (variation_amount d) (time_signature d) (flit (1 # 10))
         (40, 65) (flit (9 # 10)));
      ("ambient",
       mkMelodyParams (root_note d) "dorian" 60 (duration_seconds d) (octave d)
         WAVE (flit (3 # 10)) (use_motifs d) (motif_length d) (development_probability d)
         (max_repetition d) (variation_amount d) (time_signature d) (flit (2 # 10))
         (35, 55) (1 # 1));
      ("meditation",
       mkMelodyParams (root_note d) "pentatonic_major" 50 (duration_seconds d) (octave d)
         STATIC (flit (2 # 10)) (use_motifs d) (motif_length d) (development_probability d)
         (max_repetition d) (variation_amount d) (time_signature d) (flit (5 # 100))
         (30, 50) (1 # 1));
      ("lofi",
       mkMelodyParams (root_note d) "minor" 75 (duration_seconds d) (octave d)
         DESCENDING (1 # 2) (use_motifs d) (motif_length d) (development_probability d)
         (max_repetition d) (variation_amount d) (time_signature d) (flit (4 # 10))
         (50, 75) (flit (7 # 10)));
      ("classical",
       mkMelodyParams (root_note d) "major" 80 (duration_seconds d) (octave d)
         ARCH (flit (6 # 10)) true (motif_length d) (flit (7 # 10))
         (max_repetition d) (variation_amount d) (time_signature d) (flit (15 # 100))
         (45, 90) (flit (8 # 10))) ]%string.

(** The key of the preset object that
    [GENRE_PRESETS.get(genre, GENRE_PRESETS["relaxation"])] returns *)
Definition preset_key (presets : gmap string MelodyParams) (genre : string) : string :=
  match presets !! genre with
  | Some _ => genre
  | None => "relaxation"%string
  end.

(** The two attribute assignments of [generate_melody_for_genre], on the
    store.  Evaluating the default [GENRE_PRESETS["relaxation"]] comes
    first and raises [KeyError] when the key is missing. *)
Definition assign_preset (genre : string) (duration_seconds0 : Z) (root_note0 : string)
    (presets : gmap string MelodyParams)
  : outcome (MelodyParams * gmap string MelodyParams) :=
  try fallback <- dict_getitem presets "relaxation" ;
  let params := default fallback (presets !! genre) in
  let params := mkMelodyParams (root_note params) (mode params) (tempo params)
                  duration_seconds0 (octave params) (contour params)
                  (note_density params) (use_motifs params) (motif_length params)
                  (development_probability params) (max_repetition params)
                  (variation_amount params) (time_signature params)
                  (syncopation params) (velocity_range params) (legato params) in
  let params := mkMelodyParams root_note0 (mode params) (tempo params)
                  (duration_seconds params) (octave params) (contour params)
                  (note_density params) (use_motifs params) (motif_length params)
                  (development_probability params) (max_repetition params)
                  (variation_amount params) (time_signature params)
                  (syncopation params) (velocity_range params) (legato params) in
  Ret (params, <[preset_key presets genre := params]> presets).

(** [generate_melody_for_genre]: returns the melody and the store of
    preset objects as the call leaves it. *)
Definition generate_melody_for_genre (fuel : nat) (genre : string)
    (duration_seconds0 : Z) (root_note0 : string) (seed : option Z)
    (presets : gmap string MelodyParams)
  : M (Melody * gmap string MelodyParams) :=
  run pp <- lift_M (assign_preset genre duration_seconds0 root_note0 presets) ;
  run melody <- generate_melody fuel (fst pp) seed ;
  ret_M (melody, snd pp).

End Engine.

(* ------------------------------------------------------------------ *)
(** ** More of generator.py and melody.py                              *)
(* ------------------------------------------------------------------ *)

Definition CHORDS : gmap string (list Z) :=
  list_to_map
    [ ("major", [0; 4; 7]);
      ("minor", [0; 3; 7]);
      ("major7", [0; 4; 7; 11]);
      ("minor7", [0; 3; 7; 10]);
      ("sus2", [0; 2; 7]);
      ("sus4", [0; 5; 7]) ]%string.

(** [CHORDS["major"]]: the key is present, the default is never used. *)
Definition CHORDS_at_major : list Z := default [0; 4; 7] (CHORDS !! "major"%string).

Definition get_chord_notes (root_midi : Z) (chord_type : string) : list Z :=
  let intervals := default CHORDS_at_major (CHORDS !! chord_type) in
  map (fun interval => root_midi + interval) intervals.

(** [MelodyNote.to_tuple] *)
Definition to_tuple (note : MelodyNote) : Z * Q * Q * Z :=
  (pitch note, start_time note, duration note, velocity note).

(** [Melody.get_midi_data] *)
Definition get_midi_data (melody : Melody) : list (Z * Q * Q * Z) :=
  map to_tuple (melody_notes melody).

(** [max(xs)] over floats: the first greatest element; [ValueError] on an
    empty sequence. *)
Definition py_max_of (xs : list Q) : outcome Q :=
  match xs with
  | [] => Raise ValueError
  | x :: rest => Ret (fold_left py_max rest x)
  end.

Section MelodyMethods.

Context {FL : PyFloat}.

(** [Melody.get_duration_beats] *)
Definition get_duration_beats (melody : Melody) : outcome Q :=
  if len (melody_notes melody) =? 0 then Ret 0%Q
  else py_max_of (map (fun n => fadd (start_time n) (duration n)) (melody_notes melody)).

End MelodyMethods.

(* ------------------------------------------------------------------ *)
(** ** Reference definitions in the words of the specification         *)
(* ------------------------------------------------------------------ *)

(** The three consecutive pitch steps of every 4-note sliding window *)
Fixpoint sliding_windows (ps : list Z) : list (list Z) :=
  match ps with
  | [] => []
  | a :: tl =>
      match tl with
      | b :: c :: d :: _ => [b - a; c - b; d - c] :: sliding_windows tl
      | _ => sliding_windows tl
      end
  end.

(** The number of distinct window patterns of a note list *)
Definition distinct_windows (notes : list MelodyNote) : Z :=
  Z.of_nat (length (remove_dups (sliding_windows (map pitch notes)))).

(** The interval signature: [pitch[i+1] - pitch[i]] *)
Fixpoint signature (ps : list Z) : list Z :=
  match ps with
  | [] => []
  | a :: tl =>
      match tl with
      | b :: _ => (b - a) :: signature tl
      | [] => []
      end
  end.

(** The pitches [INVERTED] produces behind a note of source pitch
    [prev_old] that was given the pitch [prev_new] *)
Fixpoint invert_from (prev_old prev_new : Z) (ps : list Z) : list Z :=
  match ps with
  | [] => []
  | p :: ps' =>
      let q := prev_new - (p - prev_old) in
      q :: invert_from p q ps'
  end.

Section Observations.

Context {FL : PyFloat} {RNG : PyRandom} {HL : Hashlib}.

(** The optimizer as the specification words it: the candidate of a pass
    is a clone of the current best melody. *)
Definition optimize_step_from_best (scale : list Z) (st : Melody * Q) : M (Melody * Q) :=
  optimize_step (fst st) scale st.

Definition optimize_melody_from_best (melody : Melody) (max_iterations : Z) : M Melody :=
  run best_score <- lift_M (calculate_uniqueness melody) ;
  let scale := get_scale_notes (root_note (melody_params melody))
                 (mode (melody_params melody)) (octave (melody_params melody)) in
  run st <- for_M (py_range 0 max_iterations)
              (fun st _ => optimize_step_from_best scale st)
              (melody, best_score) ;
  let '(best_melody, best_score) := st in
  ret_M (mkMelody (melody_notes best_melody) (melody_motifs best_melody)
                  (melody_params best_melody) best_score).

(** [total m P]: from every generator state [m] returns, with a value in [P]. *)
Definition total {A : Type} (m : M A) (P : A -> Prop) : Prop :=
  forall g, exists a g', m g = Ret (a, g') /\ P a.

(** [partial m P]: whenever [m] returns, its value is in [P]. *)
Definition partial {A : Type} (m : M A) (P : A -> Prop) : Prop :=
  forall g a g', m g = Ret (a, g') -> P a.

(** [n'] is [n] with, at most, its pitch replaced by a member of [scale]. *)
Definition same_but_pitch (scale : list Z) (n n' : MelodyNote) : Prop :=
  start_time n' = start_time n /\ duration n' = duration n /\
  velocity n' = velocity n /\ (pitch n' = pitch n \/ pitch n' ∈ scale).

Definition pitch_variation (scale : list Z) (notes notes' : list MelodyNote) : Prop :=
  Forall2 (same_but_pitch scale) notes notes'.

(** What the optimizer may do to its argument *)
Definition optimized_from (scale : list Z) (melody result : Melody) : Prop :=
  pitch_variation scale (melody_notes melody) (melody_notes result) /\
  melody_motifs result = melody_motifs melody /\
  melody_params result = melody_params melody.

(** Does [m] have the identity hash [h]? *)
Definition has_hash (h : string) (m : Motif) : bool :=
  match get_hash m with
  | Ret h' => bool_decide (h' = h)
  | _ => false
  end.

(** The number of motifs of a list whose identity hash is [h] *)
Fixpoint hash_occurrences (h : string) (motifs : list Motif) : Z :=
  match motifs with
  | [] => 0
  | m :: motifs' => (if has_hash h m then 1 else 0) + hash_occurrences h motifs'
  end.

(** The ledger entry of [h], 0 when absent: [pattern_counts.get(h, 0)] *)
Definition ledger_count (counts : gmap string Z) (h : string) : Z :=
  default 0 (counts !! h).

(** What one pass of the assembly loop does to the loop variables, in
    terms of the candidate [motif] of the pass and its hash [h]. *)
Definition pass_effect (params : MelodyParams) (beats_per_measure : Z)
    (s s' : AsmState) (motif : Motif) (h : string) : Prop :=
  get_hash motif = Ret h
  /\ pattern_counts s' = <[h := ledger_count (pattern_counts s) h + 1]> (pattern_counts s)
  /\ current_time s'
     = fadd (current_time s)
         (py_max (py_sum (map duration (motif_notes motif))) (inject_Z beats_per_measure))
  /\ (ledger_count (pattern_counts s) h + 1 <= max_repetition params ->
      asm_motifs s' = asm_motifs s ++ [motif]
      /\ exists adjusted, adjusted_notes (current_time s) motif = Ret adjusted
                          /\ asm_notes s' = asm_notes s ++ adjusted)
  /\ (max_repetition params < ledger_count (pattern_counts s) h + 1 ->
      asm_motifs s' = asm_motifs s /\ asm_notes s' = asm_notes s).

(** The repetition invariant of the loop: a hash is counted in the melody
    at most as often as in the ledger, and at most [max_repetition] times
    once it occurs at all. *)
Definition within_cap (params : MelodyParams) (s : AsmState) : Prop :=
  forall h : string,
    hash_occurrences h (asm_motifs s) <= ledger_count (pattern_counts s) h
    /\ (1 <= hash_occurrences h (asm_motifs s) ->
        hash_occurrences h (asm_motifs s) <= max_repetition params).

(** Where the candidate of a pass comes from: it is developed from a
    member of the pool, which stays as it is, or it is newly generated and
    joins the pool. *)
Definition candidate_origin (params : MelodyParams) (scale : list Z)
    (s : AsmState) (motif : Motif) (pool' : list Motif) : Prop :=
  (pool' = motifs_used s
   /\ exists (source : Motif) (development : MotifDevelopment) (transposition : Z)
             (g g' : rng_state),
        source ∈ motifs_used s
        /\ develop_motif source development scale (current_time s) transposition g
           = Ret (motif, g'))
  \/ (pool' = motifs_used s ++ [motif]
      /\ exists (start_pitch : Z) (contour0 : Contour) (g g' : rng_state),
           generate_motif scale start_pitch (motif_length params) contour0 params g
           = Ret (motif, g')).









End Observations.

(* ------------------------------------------------------------------ *)
(** ** A concrete runtime, to run the engine on explicit inputs        *)
(* ------------------------------------------------------------------ *)

Module Runtime.

(** Rounding to the nearest multiple of 2^-20 (upward on ties). *)
Definition fix_rnd (q : Q) : Q := Qfloor (q * 1048576 + (1 # 2))%Q # 1048576.

Lemma fix_rnd_mono (x y : Q) : (x <= y)%Q -> (fix_rnd x <= fix_rnd y)%Q.
Proof.
  intros Hxy.
  assert (Hf : Qfloor (x * 1048576 + (1 # 2))%Q <= Qfloor (y * 1048576 + (1 # 2))%Q).
  { apply Qfloor_resp_le. apply Qplus_le_l.
    apply Qmult_le_compat_r; [exact Hxy | discriminate]. }
  unfold fix_rnd, Qle. cbn [Qnum Qden].
  apply Z.mul_le_mono_nonneg_r; [lia | exact Hf].
Qed.

Definition fixed_point : PyFloat :=
  {| rnd := fix_rnd;
     rnd_mono := fix_rnd_mono;
     rnd_0 := eq_refl;
     rnd_1 := eq_refl |}.

(** A generator that reads its draws from a tape; an exhausted tape
    yields zeros. *)
Definition next (g : list Z) : Z * list Z :=
  match g with
  | [] => (0, [])
  | h :: t => (h, t)
  end.

Definition tape_random (g : list Z) : Q * list Z :=
  let '(h, t) := next g in (h mod 1000 # 1000, t).

Definition tape_randbelow (n : Z) (g : list Z) : Z * list Z :=
  let '(h, t) := next g in (h mod n, t).

Definition tape_sample (n k : Z) (g : list Z) : list Z * list Z :=
  let '(h, t) := next g in (map (fun i => (h + i) mod n) (seqZ 0 k), t).

Fixpoint lcg (n : nat) (x : Z) : list Z :=
  match n with
  | O => []
  | S n' =>
      let x' := (1103515245 * x + 12345) mod 2147483648 in
      x' / 65536 :: lcg n' x'
  end.

Definition tape_seed (a : Z) : list Z := lcg 2048 a.

Lemma tape_randbelow_range (n : Z) (g : list Z) :
  0 < n -> 0 <= fst (tape_randbelow n g) < n.
Proof.
  intros Hn. unfold tape_randbelow. destruct (next g) as [h t]. simpl.
  apply Z.mod_pos_bound. exact Hn.
Qed.

Lemma tape_sample_range (n k : Z) (g : list Z) :
  0 <= k <= n -> Forall (fun i => 0 <= i < n) (fst (tape_sample n k g)).
Proof.
  intros Hk. unfold tape_sample. destruct (next g) as [h t]. simpl.
  apply Forall_forall. intros x Hx.
  apply list_elem_of_fmap in Hx as (i & -> & Hi).
  apply elem_of_seqZ in Hi.
  apply Z.mod_pos_bound. lia.
Qed.

Definition tape_rng : PyRandom :=
  {| rng_state := list Z;
     rng_seed := tape_seed;
     rng_random := tape_random;
     rng_randbelow := tape_randbelow;
     rng_sample := tape_sample;
     rng_randbelow_range := tape_randbelow_range;
     rng_sample_range := tape_sample_range |}.

(** A stand-in for MD5: a polynomial checksum printed in decimal. *)
Definition checksum (s : string) : string :=
  let h := fold_left (fun acc c => (acc * 31 + Z.of_N (Ascii.N_of_ascii c)) mod 100000000)
                     (String.list_ascii_of_string s) 7 in
  String.append (pretty h) "00000000".

Definition toy_hashlib : Hashlib := {| md5_hexdigest := checksum |}.

End Runtime.

(* ------------------------------------------------------------------ *)
(** ** Explicit inputs                                                 *)
(* ------------------------------------------------------------------ *)

Section Inputs.

#[local] Existing Instance Runtime.fixed_point.
#[local] Existing Instance Runtime.tape_rng.
#[local] Existing Instance Runtime.toy_hashlib.

(** A half-beat note of velocity 64 *)
Definition note_at (p : Z) (t : Q) : MelodyNote := mkMelodyNote p t (1 # 2) 64.

(** Four notes of the C major scale, octave 5, with the default params *)
Definition four_notes : Melody :=
  mkMelody [note_at 72 0; note_at 74 1; note_at 76 2; note_at 77 3] []
           MelodyParams_default 0.

Definition three_notes : Melody :=
  mkMelody [note_at 60 0; note_at 62 1; note_at 64 2] [] MelodyParams_default 0.

(** Generator states: an exhausted tape and a tape of two draws *)
Definition no_draws : rng_state := [].

Definition some_draws : rng_state := [5; 6].

(** The draws of two optimizer passes over [four_notes].  Pass 1: one
    change, at index 0, by +2, accepted by the 10% rule.  Pass 2: one
    change, at index 1, by +2, accepted by the 10% rule. *)
Definition two_passes : rng_state := [0; 0; 3; 0; 0; 1; 3; 0].

(** [MelodyParams(duration_seconds=0, velocity_range=(80, 50))] *)
Definition params_inverted_range : MelodyParams :=
  mkMelodyParams "C" "major" 70 0 5 ARCH (1 # 2) true 4 (flit (6 # 10)) 2
    (flit (3 # 10)) (4, 4) (flit (2 # 10)) (80, 50) (flit (7 # 10)).

(** [MelodyParams(duration_seconds=0)] *)
Definition params_0s : MelodyParams :=
  mkMelodyParams "C" "major" 70 0 5 ARCH (1 # 2) true 4 (flit (6 # 10)) 2
    (flit (3 # 10)) (4, 4) (flit (2 # 10)) (50, 80) (flit (7 # 10)).

(** [MelodyParams(duration_seconds=8)] *)
Definition params_8s : MelodyParams :=
  mkMelodyParams "C" "major" 70 8 5 ARCH (1 # 2) true 4 (flit (6 # 10)) 2
    (flit (3 # 10)) (4, 4) (flit (2 # 10)) (50, 80) (flit (7 # 10)).

(** The melody and the generator state of
    [generate_melody(params_8s, seed=42)] *)
Definition melody_8s : Melody :=
  match generate_melody 40 params_8s (Some 42) no_draws with
  | Ret (melody, _) => melody
  | _ => four_notes
  end.

Definition state_8s : rng_state :=
  match generate_melody 40 params_8s (Some 42) no_draws with
  | Ret (_, g) => g
  | _ => []
  end.

(** A motif that repeats one pitch, and one that goes up and comes back *)
Definition flat_motif : Motif := mkMotif [note_at 60 0; note_at 60 1] [].

Definition arch_motif : Motif :=
  mkMotif [note_at 60 0; note_at 62 1; note_at 60 2] [].

Definition developed (source : Motif) (development : MotifDevelopment) : Motif :=
  match develop_motif source development [60; 62; 64; 65; 67; 69; 71] 0 0 no_draws with
  | Ret (motif, _) => motif
  | _ => source
  end.

(** [MelodyParams(duration_seconds=8, max_repetition=0)] *)
Definition params_no_repetition : MelodyParams :=
  mkMelodyParams "C" "major" 70 8 5 ARCH (1 # 2) true 4 (flit (6 # 10)) 0
    (flit (3 # 10)) (4, 4) (flit (2 # 10)) (50, 80) (flit (7 # 10)).

(** The C major scale, octave 4 *)
Definition c_major : list Z := [60; 62; 64; 65; 67; 69; 71].

(** [arch_motif] a fifth higher *)
Definition arch_motif_in_g : Motif :=
  mkMotif [note_at 67 0; note_at 69 1; note_at 67 2] [].

(** [four_notes] a tone higher *)
Definition four_notes_in_d : Melody :=
  mkMelody [note_at 74 0; note_at 76 1; note_at 78 2; note_at 79 3] []
           MelodyParams_default 0.






End Inputs.

(* ------------------------------------------------------------------ *)
(** ** Further observations on the code                                *)
(* ------------------------------------------------------------------ *)

(** A table of semitone offsets: starts at the root, ascends strictly,
    stays below the octave. *)
Definition offsets_ok (l : list Z) : Prop :=
  (exists rest, l = 0 :: rest)
  /\ StronglySorted Z.lt l
  /\ Forall (fun i => 0 <= i < 12) l.

(** [sum(l)] over integers *)
Definition sum_Z (l : list Z) : Z := fold_right Z.add 0 l.

(** The direction of step [i] of a [WAVE] contour: it starts downward and
    flips every third step. *)
Definition wave_direction (i : Z) : Z := if Z.even (i / 3) then -1 else 1.

(** The durations [generate_motif] draws from: [0.5, 0.75] when
    syncopated, [0.5, 1.0, 1.5] otherwise *)
Definition DURATION_PALETTE : list Q := [1 # 2; 3 # 4; 1 # 1; 3 # 2].

(** The pitches of a walk along a contour from [current]: each pitch is
    the raw target [current + interval] or that target snapped to the
    scale, and the walk goes on from the pitch taken. *)
Fixpoint follows_contour (scale : list Z) (current : Z) (contour pitches : list Z)
  : Prop :=
  match contour, pitches with
  | [], [] => True
  | interval :: contour', p :: pitches' =>
      (p = current + interval \/ snap_to_scale scale (current + interval) = Ret p)
      /\ follows_contour scale p contour' pitches'
  | _, _ => False
  end.

Section MoreObservations.

Context {FL : PyFloat} {RNG : PyRandom} {HL : Hashlib}.

(** The start times of notes played one after the other from [now] on,
    given the time each one takes *)
Fixpoint onsets (now : Q) (ds : list Q) : list Q :=
  match ds with
  | [] => []
  | d :: ds' => now :: onsets (fadd now d) ds'
  end.

(** [raises m e]: from every generator state [m] raises [e]. *)
Definition raises {A : Type} (m : M A) (e : pyexn) : Prop :=
  forall g, m g = Raise e.

(** What a development does to a duration *)
Definition developed_duration (development : MotifDevelopment) (d : Q) : Q :=
  match development with
  | AUGMENTED => fmul d (3 # 2)
  | DIMINISHED => fmul d (3 # 4)
  | _ => d
  end.

(** The order of the developed notes: reversed by [RETROGRADE] *)
Definition developed_order {A : Type} (development : MotifDevelopment) (l : list A)
  : list A :=
  match development with
  | RETROGRADE => rev l
  | _ => l
  end.

(** A copy of [note] with pitch [p] and duration [d], moved so that the
    motif starts at [start_time0] *)
Definition relocated (start_time0 : Q) (first note : MelodyNote) (p : Z) (d : Q)
  : MelodyNote :=
  mkMelodyNote p (fadd start_time0 (fsub (start_time note) (start_time first)))
               d (velocity note).

(** The velocities of [notes] lie in [velocity_range] *)
Definition velocities_in_range (params : MelodyParams) (notes : list MelodyNote) : Prop :=
  Forall (fun v => fst (velocity_range params) <= v <= snd (velocity_range params))
         (map velocity notes).

(** A motif as the assembly loop handles them: [max(0, motif_length)]
    notes, with velocities in range *)
Definition motif_fits (params : MelodyParams) (m : Motif) : Prop :=
  len (motif_notes m) = Z.max 0 (motif_length params)
  /\ velocities_in_range params (motif_notes m).

(** What the assembly loop keeps true of its variables *)
Definition assembled_ok (params : MelodyParams) (s : AsmState) : Prop :=
  Forall (motif_fits params) (motifs_used s)
  /\ Forall (motif_fits params) (asm_motifs s)
  /\ len (asm_notes s) = len (asm_motifs s) * Z.max 0 (motif_length params)
  /\ velocities_in_range params (asm_notes s).

(** Nothing was kept so far, and no ledger entry is negative *)
Definition nothing_kept (s : AsmState) : Prop :=
  asm_notes s = [] /\ asm_motifs s = []
  /\ forall h, 0 <= ledger_count (pattern_counts s) h.

(** The score the optimizer carries is the score of the melody it carries. *)
Definition score_is_fresh (st : Melody * Q) : Prop :=
  calculate_uniqueness (fst st) = Ret (snd st).

(** The two attribute assignments of [generate_melody_for_genre] on a
    params record *)
Definition overwritten (duration_seconds0 : Z) (root_note0 : string)
    (p : MelodyParams) : MelodyParams :=
  mkMelodyParams root_note0 (mode p) (tempo p) duration_seconds0 (octave p)
    (contour p) (note_density p) (use_motifs p) (motif_length p)
    (development_probability p) (max_repetition p) (variation_amount p)
    (time_signature p) (syncopation p) (velocity_range p) (legato p).

(** The outcome of [generate_melody_for_genre] for its caller: the melody
    (or the exception), without the store of presets *)
Definition without_store {A B : Type} (o : outcome (A * B * rng_state))
  : outcome (A * rng_state) :=
  match o with
  | Ret (a, _, g) => Ret (a, g)
  | Raise e => Raise e
  | OutOfFuel => OutOfFuel
  end.

(** The loop of [generate_motif]: what holds of its variables after the
    intervals [pre] *)
Definition motif_walk (scale : list Z) (start_pitch : Z) (params : MelodyParams)
    (pre : list Z) (st : list MelodyNote * Z * Q) : Prop :=
  let '(notes, current_pitch, now) := st in
  follows_contour scale start_pitch pre (map pitch notes)
  /\ current_pitch = List.last (map pitch notes) start_pitch
  /\ Forall (fun n => fst (velocity_range params) <= velocity n
                      <= snd (velocity_range params)) notes
  /\ exists ds : list Q,
       Forall (fun d => d ∈ DURATION_PALETTE) ds
       /\ map duration notes = map (fun d => fmul d (legato params)) ds
       /\ map start_time notes = onsets 0 ds
       /\ now = fold_left fadd ds 0%Q.

End MoreObservations.

(* ------------------------------------------------------------------ *)
(** ** Properties                                                      *)
(* ------------------------------------------------------------------ *)

Section Python.

Lemma len_nonneg {A : Type} (l : list A) : 0 <= len l.
Proof. unfold len. lia. Qed.

Lemma len_app {A : Type} (l1 l2 : list A) : len (l1 ++ l2) = len l1 + len l2.
Proof. unfold len. rewrite length_app. lia. Qed.

Lemma len_cons {A : Type} (x : A) (l : list A) : len (x :: l) = len l + 1.
Proof. unfold len. simpl. lia. Qed.

Lemma len_nil {A : Type} : len (@nil A) = 0.
Proof. reflexivity. Qed.

Lemma getitem_lookup {A : Type} (l : list A) (i : Z) (x : A) :
  0 <= i -> l !! Z.to_nat i = Some x -> getitem l i = Ret x.
Proof.
  intros Hi Hx. unfold getitem.
  destruct (i <? 0) eqn:E; [apply Z.ltb_lt in E; lia|].
  rewrite E, Hx. reflexivity.
Qed.

(** Reading at offset [k] behind a prefix *)
Lemma getitem_app_offset {A : Type} (pre l : list A) (k : nat) (x : A) :
  l !! k = Some x -> getitem (pre ++ l) (len pre + Z.of_nat k) = Ret x.
Proof.
  intros Hx. apply getitem_lookup; [pose proof (len_nonneg pre); lia|].
  unfold len. rewrite <- Nat2Z.inj_add, Nat2Z.id.
  rewrite lookup_app_r by lia.
  replace (length pre + k - length pre)%nat with k by lia. exact Hx.
Qed.

Lemma getitem_last {A : Type} (l : list A) (x : A) :
  getitem (l ++ [x]) (-1) = Ret x.
Proof.
  unfold getitem. change (-1 <? 0) with true. cbv iota.
  assert (Hlen : -1 + len (l ++ [x]) = len l).
  { rewrite len_app. unfold len. simpl. lia. }
  rewrite Hlen. pose proof (len_nonneg l) as Hl.
  destruct (len l <? 0) eqn:E; [apply Z.ltb_lt in E; lia|].
  unfold len. rewrite Nat2Z.id.
  rewrite lookup_app_r by lia.
  replace (length l - length l)%nat with 0%nat by lia. reflexivity.
Qed.

Lemma getitem_in_range {A : Type} (l : list A) (i : Z) :
  0 <= i < len l -> exists x, getitem l i = Ret x /\ l !! Z.to_nat i = Some x.
Proof.
  intros Hi. destruct (l !! Z.to_nat i) as [x|] eqn:E.
  - exists x. split; [apply getitem_lookup; [lia | exact E] | reflexivity].
  - apply lookup_ge_None in E. unfold len in Hi. lia.
Qed.

Lemma size_list_to_set_remove_dups (l : list (list Z)) :
  size (list_to_set l : gset (list Z)) = length (remove_dups l).
Proof.
  rewrite <- (size_list_to_set (C := gset (list Z)) (remove_dups l))
    by apply NoDup_remove_dups.
  f_equal. apply set_eq. intros x.
  rewrite !elem_of_list_to_set, elem_of_remove_dups. reflexivity.
Qed.

Lemma remove_dups_length_le {A : Type} `{EqDecision A} (l : list A) :
  (length (remove_dups l) <= length l)%nat.
Proof.
  induction l as [|x l IH]; simpl; [lia|].
  destruct (decide_rel elem_of x l); simpl; lia.
Qed.

End Python.

Section Scales.

Lemma get_scale_notes_length (root mode : string) (octave : Z) :
  (5 <= length (get_scale_notes root mode octave))%nat.
Proof.
  unfold get_scale_notes. rewrite length_map.
  destruct (SCALES !! mode) as [l|] eqn:E; simpl.
  - unfold SCALES in E. cbn [list_to_map foldr curry fst snd] in E.
    repeat (apply lookup_insert_Some in E as [[_ <-]|[_ E]]; [simpl; lia|]).
    rewrite lookup_empty in E. discriminate.
  - vm_compute. lia.
Qed.

Lemma get_scale_notes_third (root mode : string) (octave : Z) :
  exists p, getitem (get_scale_notes root mode octave) 2 = Ret p.
Proof.
  pose proof (get_scale_notes_length root mode octave) as Hl.
  destruct (getitem_in_range (get_scale_notes root mode octave) 2) as (p & Hp & _).
  - unfold len. lia.
  - exists p. exact Hp.
Qed.

Lemma get_scale_notes_cons (root mode : string) (octave : Z) :
  exists x rest, get_scale_notes root mode octave = x :: rest.
Proof.
  pose proof (get_scale_notes_length root mode octave) as Hl.
  destruct (get_scale_notes root mode octave) as [|x rest]; [simpl in Hl; lia|].
  eauto.
Qed.

(** C6. [get_scale_notes] is a total function (no exception can
    arise): an unknown root name gives the scale of root "C", an unknown
    mode name gives the major scale, and
    [get_scale_notes("Z", "bogus", 4)] = [get_scale_notes("C", "major", 4)]
    = [[60, 62, 64, 65, 67, 69, 71]]. *)
Theorem get_scale_notes_fail_soft :
  (forall (root mode : string) (octave : Z),
      NOTE_MAP !! root = None ->
      get_scale_notes root mode octave = get_scale_notes "C" mode octave)
  /\ (forall (root mode : string) (octave : Z),
      SCALES !! mode = None ->
      get_scale_notes root mode octave = get_scale_notes root "major" octave)
  /\ (forall (root mode : string) (octave : Z),
      exists l : list Z, get_scale_notes root mode octave = l /\ l <> [])
  /\ get_scale_notes "Z" "bogus" 4 = get_scale_notes "C" "major" 4
  /\ get_scale_notes "C" "major" 4 = [60; 62; 64; 65; 67; 69; 71].
Proof.
  split; [|split; [|split; [|split]]].
  - intros root mode octave Hroot. unfold get_scale_notes. rewrite Hroot.
    reflexivity.
  - intros root mode octave Hmode. unfold get_scale_notes. rewrite Hmode.
    reflexivity.
  - intros root mode octave.
    destruct (get_scale_notes_cons root mode octave) as (x & rest & ->).
    eexists. split; [reflexivity | discriminate].
  - vm_compute. reflexivity.
  - vm_compute. reflexivity.
Qed.

End Scales.

Section Uniqueness.

Context {FL : PyFloat}.

Lemma py_range_0_3 : py_range 0 3 = [0; 1; 2].
Proof. reflexivity. Qed.

Lemma window_intervals_at (pre : list MelodyNote) (a b c d : MelodyNote)
    (rest : list MelodyNote) :
  window_intervals (pre ++ a :: b :: c :: d :: rest) (len pre)
  = Ret [pitch b - pitch a; pitch c - pitch b; pitch d - pitch c].
Proof.
  unfold window_intervals. rewrite py_range_0_3.
  replace (len pre + 0 + 1) with (len pre + Z.of_nat 1) by lia.
  replace (len pre + 0) with (len pre + Z.of_nat 0) by lia.
  replace (len pre + 1 + 1) with (len pre + Z.of_nat 2) by lia.
  replace (len pre + 1) with (len pre + Z.of_nat 1) by lia.
  replace (len pre + 2 + 1) with (len pre + Z.of_nat 3) by lia.
  replace (len pre + 2) with (len pre + Z.of_nat 2) by lia.
  rewrite (getitem_app_offset pre _ 1 b) by reflexivity.
  rewrite (getitem_app_offset pre _ 0 a) by reflexivity.
  rewrite (getitem_app_offset pre _ 2 c) by reflexivity.
  rewrite (getitem_app_offset pre _ 3 d) by reflexivity.
  reflexivity.
Qed.

Lemma collect_patterns_windows (l pre : list MelodyNote) :
  collect_patterns (pre ++ l) (seqZ (len pre) (len l - 3))
  = Ret (sliding_windows (map pitch l)).
Proof.
  revert pre. induction l as [|a l IH]; intros pre.
  - reflexivity.
  - destruct l as [|b [|c [|d rest]]]; try reflexivity.
    rewrite seqZ_cons by (rewrite !len_cons; pose proof (len_nonneg rest); lia).
    cbn [collect_patterns]. rewrite window_intervals_at. cbn [obind].
    specialize (IH (pre ++ [a])).
    rewrite <- app_assoc in IH. cbn [app] in IH.
    replace (Z.succ (len pre)) with (len (pre ++ [a]))
      by (rewrite len_app, len_cons; unfold len; simpl; lia).
    replace (Z.pred (len (a :: b :: c :: d :: rest) - 3))
      with (len (b :: c :: d :: rest) - 3) by (rewrite (len_cons a); lia).
    rewrite IH. reflexivity.
Qed.

Lemma sliding_windows_length (ps : list Z) :
  length (sliding_windows ps) = (length ps - 3)%nat.
Proof.
  induction ps as [|a tl IH]; [reflexivity|].
  cbn [sliding_windows]. destruct tl as [|b [|c [|d rest]]]; try reflexivity.
  cbn [length] in *. rewrite IH. lia.
Qed.

Lemma truediv_unit_interval (u t : Z) :
  0 <= u <= t -> 0 < t -> (0 <= truediv u t <= 1)%Q.
Proof.
  intros Hu Ht. unfold truediv.
  assert (H0 : (0 <= inject_Z u / inject_Z t)%Q).
  { apply Qle_shift_div_l; [change 0%Q with (inject_Z 0); rewrite <- Zlt_Qlt; lia|].
    rewrite Qmult_0_l. change 0%Q with (inject_Z 0). rewrite <- Zle_Qle. lia. }
  assert (H1 : (inject_Z u / inject_Z t <= 1)%Q).
  { apply Qle_shift_div_r; [change 0%Q with (inject_Z 0); rewrite <- Zlt_Qlt; lia|].
    rewrite Qmult_1_l. rewrite <- Zle_Qle. lia. }
  split.
  - rewrite <- rnd_0. apply rnd_mono. exact H0.
  - rewrite <- rnd_1. apply rnd_mono. exact H1.
Qed.

Lemma calculate_uniqueness_notes_small (notes : list MelodyNote) :
  len notes < 4 -> calculate_uniqueness_notes notes = Ret 1%Q.
Proof.
  intros Hn. unfold calculate_uniqueness_notes.
  apply Z.ltb_lt in Hn. rewrite Hn. reflexivity.
Qed.

Lemma calculate_uniqueness_notes_large (notes : list MelodyNote) :
  4 <= len notes ->
  calculate_uniqueness_notes notes
  = Ret (truediv (distinct_windows notes) (len notes - 3)).
Proof.
  intros Hn. unfold calculate_uniqueness_notes.
  destruct (len notes <? 4) eqn:E; [apply Z.ltb_lt in E; lia|].
  unfold py_range. rewrite Z.sub_0_r.
  pose proof (collect_patterns_windows notes []) as Hc.
  cbn [app] in Hc. change (len (@nil MelodyNote)) with 0 in Hc.
  rewrite Hc. cbn [obind].
  assert (Hlen : len (sliding_windows (map pitch notes)) = len notes - 3).
  { unfold len in *. rewrite sliding_windows_length, length_map. lia. }
  rewrite Hlen.
  destruct (len notes - 3 =? 0) eqn:E0; [apply Z.eqb_eq in E0; lia|].
  rewrite size_list_to_set_remove_dups. reflexivity.
Qed.

(** C4. With fewer than 4 notes [calculate_uniqueness] returns exactly
    1.0; with [n >= 4] notes it returns the number of distinct 3-interval
    tuples over the [n - 3] sliding 4-note windows divided by [n - 3]; it
    never raises and its result always lies in [0.0, 1.0]. *)
Theorem calculate_uniqueness_spec (melody : Melody) :
  let n := len (melody_notes melody) in
  (n < 4 -> calculate_uniqueness melody = Ret 1%Q)
  /\ (4 <= n ->
      calculate_uniqueness melody
      = Ret (truediv (distinct_windows (melody_notes melody)) (n - 3)))
  /\ (exists score : Q,
        calculate_uniqueness melody = Ret score /\ (0 <= score <= 1)%Q).
Proof.
  intros n. unfold calculate_uniqueness. subst n.
  split; [|split].
  - apply calculate_uniqueness_notes_small.
  - apply calculate_uniqueness_notes_large.
  - destruct (Z_lt_le_dec (len (melody_notes melody)) 4) as [Hlt|Hge].
    + exists 1%Q. split; [apply calculate_uniqueness_notes_small; exact Hlt|].
      split; discriminate.
    + eexists. split; [apply calculate_uniqueness_notes_large; exact Hge|].
      apply truediv_unit_interval; [|lia].
      unfold distinct_windows. split; [lia|].
      pose proof (remove_dups_length_le (sliding_windows (map pitch (melody_notes melody)))) as Hd.
      rewrite sliding_windows_length, length_map in Hd. unfold len in *. lia.
Qed.

End Uniqueness.

Section Monad.

Context {RNG : PyRandom}.

Lemma bind_M_Ret {A B : Type} (m : M A) (k : A -> M B) g b g' :
  bind_M m k g = Ret (b, g') <->
  exists a g1, m g = Ret (a, g1) /\ k a g1 = Ret (b, g').
Proof.
  unfold bind_M. split.
  - destruct (m g) as [[a g1]| |]; try discriminate. eauto.
  - intros (a & g1 & -> & Hk). exact Hk.
Qed.

Lemma bind_M_step {A B : Type} (m : M A) (k : A -> M B) g a g1 :
  m g = Ret (a, g1) -> bind_M m k g = k a g1.
Proof. unfold bind_M. intros ->. reflexivity. Qed.

Lemma lift_M_Ret {A : Type} (o : outcome A) g a g' :
  lift_M o g = Ret (a, g') <-> o = Ret a /\ g' = g.
Proof.
  unfold lift_M. destruct o; split; try (intros [? ?]); try discriminate.
  - intros [= -> ->]. auto.
  - intros. simplify_eq. reflexivity.
Qed.

Lemma ret_M_Ret {A : Type} (x : A) g a g' :
  ret_M x g = Ret (a, g') <-> a = x /\ g' = g.
Proof. unfold ret_M. split; [intros [= -> ->]; auto | intros [-> ->]; reflexivity]. Qed.

Lemma total_ret {A : Type} (x : A) (P : A -> Prop) : P x -> total (ret_M x) P.
Proof. intros HP g. exists x, g. auto. Qed.

Lemma total_lift {A : Type} (o : outcome A) (x : A) (P : A -> Prop) :
  o = Ret x -> P x -> total (lift_M o) P.
Proof. intros -> HP g. exists x, g. auto. Qed.

Lemma total_bind {A B : Type} (m : M A) (k : A -> M B) (P : A -> Prop) (Q : B -> Prop) :
  total m P -> (forall a, P a -> total (k a) Q) -> total (bind_M m k) Q.
Proof.
  intros Hm Hk g. destruct (Hm g) as (a & g1 & Hmg & HP).
  destruct (Hk a HP g1) as (b & g2 & Hkg & HQ).
  exists b, g2. split; [|exact HQ]. rewrite (bind_M_step _ _ _ _ _ Hmg). exact Hkg.
Qed.

Lemma total_weaken {A : Type} (m : M A) (P Q : A -> Prop) :
  total m P -> (forall a, P a -> Q a) -> total m Q.
Proof.
  intros Hm HPQ g. destruct (Hm g) as (a & g' & Hmg & HP). eauto.
Qed.

Lemma total_for_M {A S : Type} (xs : list A) (body : S -> A -> M S)
    (I : S -> Prop) (acc : S) :
  I acc ->
  (forall s x, I s -> x ∈ xs -> total (body s x) I) ->
  total (for_M xs body acc) I.
Proof.
  revert acc. induction xs as [|x xs IH]; intros acc Hacc Hbody; cbn [for_M].
  - apply total_ret. exact Hacc.
  - apply total_bind with (P := I).
    + apply Hbody; [exact Hacc | left].
    + intros s Hs. apply IH; [exact Hs|].
      intros s' y Hs' Hy. apply Hbody; [exact Hs' | right; exact Hy].
Qed.

Lemma total_repeat_M {A : Type} (n : nat) (e : M A) (P : A -> Prop) :
  total e P -> total (repeat_M n e) (fun l => length l = n /\ Forall P l).
Proof.
  intros He. induction n as [|n IH]; cbn [repeat_M].
  - apply total_ret. split; [reflexivity | constructor].
  - apply total_bind with (P := P); [exact He|]. intros x Hx.
    apply total_bind with (P := fun l => length l = n /\ Forall P l); [exact IH|].
    intros l [Hl HP]. apply total_ret. split; [simpl; lia | constructor; assumption].
Qed.

Lemma partial_ret {A : Type} (x : A) (P : A -> Prop) : P x -> partial (ret_M x) P.
Proof. intros HP g a g' H. apply ret_M_Ret in H as [-> _]. exact HP. Qed.

Lemma partial_lift {A : Type} (o : outcome A) (P : A -> Prop) :
  (forall x, o = Ret x -> P x) -> partial (lift_M o) P.
Proof. intros HP g a g' H. apply lift_M_Ret in H as [-> _]. apply HP. reflexivity. Qed.

Lemma partial_bind {A B : Type} (m : M A) (k : A -> M B) (P : A -> Prop) (Q : B -> Prop) :
  partial m P -> (forall a, P a -> partial (k a) Q) -> partial (bind_M m k) Q.
Proof.
  intros Hm Hk g b g' H. apply bind_M_Ret in H as (a & g1 & Hmg & Hkg).
  exact (Hk a (Hm _ _ _ Hmg) _ _ _ Hkg).
Qed.

Lemma partial_weaken {A : Type} (m : M A) (P Q : A -> Prop) :
  partial m P -> (forall a, P a -> Q a) -> partial m Q.
Proof. intros Hm HPQ g a g' H. eauto. Qed.

Lemma partial_true {A : Type} (m : M A) : partial m (fun _ => True).
Proof. intros g a g' _. exact I. Qed.

Lemma total_partial {A : Type} (m : M A) (P : A -> Prop) : total m P -> partial m P.
Proof.
  intros Hm g a g' H. destruct (Hm g) as (a' & g'' & H' & HP).
  rewrite H in H'. injection H' as -> ->. exact HP.
Qed.

Lemma partial_for_M {A S : Type} (xs : list A) (body : S -> A -> M S)
    (I : S -> Prop) (acc : S) :
  I acc ->
  (forall s x, I s -> x ∈ xs -> partial (body s x) I) ->
  partial (for_M xs body acc) I.
Proof.
  revert acc. induction xs as [|x xs IH]; intros acc Hacc Hbody; cbn [for_M].
  - apply partial_ret. exact Hacc.
  - apply partial_bind with (P := I).
    + apply Hbody; [exact Hacc | left].
    + intros s Hs. apply IH; [exact Hs|].
      intros s' y Hs' Hy. apply Hbody; [exact Hs' | right; exact Hy].
Qed.

(** *** The functions of module [random] *)

Lemma total_random_random : total random_random (fun _ => True).
Proof.
  intros g. unfold random_random. destruct (rng_random g) as [x g'].
  exists x, g'. auto.
Qed.

Lemma total_randbelow (n : Z) :
  0 < n -> total (randbelow n) (fun j => 0 <= j < n).
Proof.
  intros Hn g. unfold randbelow.
  pose proof (rng_randbelow_range n g Hn) as Hr.
  destruct (rng_randbelow n g) as [j g']. exists j, g'. auto.
Qed.

Lemma total_random_choice {A : Type} (seq : list A) :
  seq <> [] -> total (random_choice seq) (fun x => x ∈ seq).
Proof.
  intros Hne. unfold random_choice.
  assert (Hlen : 0 < len seq).
  { destruct seq; [congruence | rewrite len_cons; pose proof (len_nonneg seq); lia]. }
  destruct (len seq =? 0) eqn:E; [apply Z.eqb_eq in E; lia|].
  apply total_bind with (P := fun j => 0 <= j < len seq);
    [apply total_randbelow; exact Hlen|].
  intros j Hj. destruct (getitem_in_range seq j Hj) as (x & Hx & Hlook).
  apply total_lift with (x := x); [exact Hx|].
  apply list_elem_of_lookup. eauto.
Qed.

Lemma total_random_randint (a b : Z) :
  a <= b -> total (random_randint a b) (fun x => a <= x <= b).
Proof.
  intros Hab. unfold random_randint.
  destruct (0 <? b + 1 - a) eqn:E; [|apply Z.ltb_ge in E; lia].
  apply total_bind with (P := fun j => 0 <= j < b + 1 - a);
    [apply total_randbelow; lia|].
  intros j Hj. apply total_ret. lia.
Qed.

Lemma total_random_sample_range (n k : Z) :
  0 <= k <= n ->
  total (random_sample_range n k) (fun l => Forall (fun i => 0 <= i < n) l).
Proof.
  intros Hk g. unfold random_sample_range.
  destruct (k <? 0) eqn:E1; [apply Z.ltb_lt in E1; lia|].
  destruct (n <? k) eqn:E2; [apply Z.ltb_lt in E2; lia|].
  cbn [orb]. pose proof (rng_sample_range n k g Hk) as Hs.
  destruct (rng_sample n k g) as [l g']. exists l, g'. auto.
Qed.

End Monad.

Section Optimizer.

Context {FL : PyFloat} {RNG : PyRandom}.

Lemma pitch_variation_refl (scale : list Z) (notes : list MelodyNote) :
  pitch_variation scale notes notes.
Proof.
  unfold pitch_variation. induction notes; constructor; [|assumption].
  unfold same_but_pitch. auto.
Qed.

Lemma min_by_dist_elem (target best : Z) (rest : list Z) :
  min_by_dist target best rest ∈ best :: rest.
Proof.
  revert best. induction rest as [|x rest IH]; intros best; cbn [min_by_dist].
  - left.
  - destruct (Z.abs (x - target) <? Z.abs (best - target)).
    + right. apply IH.
    + specialize (IH best). apply elem_of_cons in IH as [->|IH];
        [left | right; right; exact IH].
Qed.

Lemma snap_to_scale_elem (scale : list Z) (target : Z) :
  scale <> [] -> exists p, snap_to_scale scale target = Ret p /\ p ∈ scale.
Proof.
  intros Hne. destruct scale as [|x rest]; [congruence|].
  eexists. split; [reflexivity | apply min_by_dist_elem].
Qed.

Lemma snap_to_scale_member (scale : list Z) (target p : Z) :
  snap_to_scale scale target = Ret p -> p ∈ scale.
Proof.
  destruct scale as [|x rest]; [discriminate|].
  intros [= <-]. apply min_by_dist_elem.
Qed.

Lemma setitem_in_range {A : Type} (l : list A) (i : Z) (x : A) :
  0 <= i < len l -> setitem l i x = Ret (<[Z.to_nat i := x]> l).
Proof.
  intros Hi. unfold setitem.
  destruct (i <? 0) eqn:E1; [apply Z.ltb_lt in E1; lia|].
  rewrite E1.
  destruct (len l <=? i) eqn:E2; [apply Z.leb_le in E2; lia|].
  reflexivity.
Qed.

Lemma total_vary_note (scale : list Z) (orig cur : list MelodyNote) (idx : Z) :
  scale <> [] -> 0 <= idx < len orig ->
  pitch_variation scale orig cur ->
  total (vary_note scale cur idx) (pitch_variation scale orig).
Proof.
  intros Hscale Hidx Hvar. unfold vary_note.
  assert (Hlen : len cur = len orig).
  { unfold len. f_equal. symmetry. exact (Forall2_length _ _ _ Hvar). }
  destruct (getitem_in_range cur idx) as (note & Hget & Hlook); [lia|].
  apply total_bind with (P := fun n => n = note).
  { apply total_lift with (x := note); [exact Hget | reflexivity]. }
  intros ? ->.
  apply total_bind with (P := fun _ => True).
  { eapply total_weaken; [apply total_random_choice; discriminate | auto]. }
  intros d _.
  destruct (snap_to_scale_elem scale (pitch note + d) Hscale) as (p & Hsnap & Hp).
  apply total_bind with (P := fun q => q = p).
  { apply total_lift with (x := p); [exact Hsnap | reflexivity]. }
  intros ? ->.
  eapply total_lift; [apply setitem_in_range; lia|].
  unfold pitch_variation in *.
  destruct (Forall2_lookup_r _ _ _ _ _ Hvar Hlook) as (o & Horig & Ho).
  rewrite <- (list_insert_id orig (Z.to_nat idx) o Horig).
  apply Forall2_insert; [exact Hvar|].
  destruct Ho as (Hs & Hd & Hv & _).
  unfold same_but_pitch. cbn. auto.
Qed.

Lemma total_calculate_uniqueness (melody : Melody) :
  exists score, calculate_uniqueness melody = Ret score.
Proof.
  unfold calculate_uniqueness.
  destruct (Z_lt_le_dec (len (melody_notes melody)) 4) as [Hlt|Hge].
  - eexists. apply calculate_uniqueness_notes_small. exact Hlt.
  - eexists. apply calculate_uniqueness_notes_large. exact Hge.
Qed.

Lemma total_optimize_step (melody : Melody) (scale : list Z) (st : Melody * Q) :
  scale <> [] ->
  optimized_from scale melody (fst st) ->
  total (optimize_step melody scale st)
        (fun st' => optimized_from scale melody (fst st')).
Proof.
  intros Hscale Hst. destruct st as [best_melody best_score].
  unfold optimize_step. cbn [melody_notes melody_motifs melody_params uniqueness_score].
  set (n := len (melody_notes melody)).
  assert (Hn : 0 <= n) by apply len_nonneg.
  apply total_bind with (P := fun x => 1 <= x <= Z.max 1 (n / 4));
    [apply total_random_randint; lia|].
  intros num_changes Hnum.
  apply total_bind with (P := fun l => Forall (fun i => 0 <= i < n) l);
    [apply total_random_sample_range; lia|].
  intros indices Hind.
  apply total_bind with (P := pitch_variation scale (melody_notes melody)).
  { apply total_for_M; [apply pitch_variation_refl|].
    intros cur idx Hcur Hidx. apply total_vary_note; [exact Hscale | | exact Hcur].
    rewrite Forall_forall in Hind. apply Hind. exact Hidx. }
  intros notes' Hnotes'.
  destruct (total_calculate_uniqueness
              (mkMelody notes' (melody_motifs melody) (melody_params melody) 0%Q))
    as (score & Hscore).
  apply total_bind with (P := fun _ => True);
    [apply total_lift with (x := score); [exact Hscore | exact I]|].
  intros new_score _.
  apply total_bind with (P := fun _ => True).
  { destruct (Qltb best_score new_score); [apply total_ret; exact I|].
    apply total_bind with (P := fun _ => True); [apply total_random_random|].
    intros u _. apply total_ret. exact I. }
  intros [|] _; apply total_ret; cbn [fst].
  - unfold optimized_from. cbn. auto.
  - exact Hst.
Qed.

Lemma total_optimize_melody (melody : Melody) (max_iterations : Z) :
  total (optimize_melody melody max_iterations)
        (optimized_from
           (get_scale_notes (root_note (melody_params melody))
              (mode (melody_params melody)) (octave (melody_params melody)))
           melody).
Proof.
  unfold optimize_melody.
  set (scale := get_scale_notes _ _ _).
  assert (Hscale : scale <> []).
  { subst scale.
    destruct (get_scale_notes_cons (root_note (melody_params melody))
                (mode (melody_params melody)) (octave (melody_params melody)))
      as (x & rest & ->). discriminate. }
  destruct (total_calculate_uniqueness melody) as (score & Hscore).
  apply total_bind with (P := fun _ => True);
    [apply total_lift with (x := score); [exact Hscore | exact I]|].
  intros best_score _.
  apply total_bind with (P := fun st => optimized_from scale melody (fst st)).
  { apply total_for_M.
    - cbn [fst]. unfold optimized_from. split; [apply pitch_variation_refl | auto].
    - intros st _ Hst _. apply total_optimize_step; assumption. }
  intros [best_melody best_score'] Hbest. cbn [fst] in Hbest.
  apply total_ret. destruct Hbest as (Hv & Hm & Hp).
  unfold optimized_from. cbn. auto.
Qed.

(** C9. For every melody and iteration budget [optimize_melody] returns
    a melody with the same number of notes; note [i] of the result has the
    start time, duration and velocity of note [i] of the input, and its
    pitch is the input pitch or a member of the scale of the melody's
    params.  Only pitches change. *)
Theorem optimize_melody_changes_pitches_only (melody : Melody) (max_iterations : Z)
    (g : rng_state) :
  exists (result : Melody) (g' : rng_state),
    optimize_melody melody max_iterations g = Ret (result, g')
    /\ length (melody_notes result) = length (melody_notes melody)
    /\ forall (i : nat) (note : MelodyNote),
         melody_notes melody !! i = Some note ->
         exists note' : MelodyNote,
           melody_notes result !! i = Some note'
           /\ start_time note' = start_time note
           /\ duration note' = duration note
           /\ velocity note' = velocity note
           /\ (pitch note' = pitch note
               \/ pitch note' ∈ get_scale_notes (root_note (melody_params melody))
                                  (mode (melody_params melody))
                                  (octave (melody_params melody))).
Proof.
  destruct (total_optimize_melody melody max_iterations g)
    as (result & g' & Hrun & Hvar & _ & _).
  exists result, g'. split; [exact Hrun|]. split.
  - symmetry. exact (Forall2_length _ _ _ Hvar).
  - intros i note Hi.
    destruct (Forall2_lookup_l _ _ _ _ _ Hvar Hi) as (note' & Hi' & Hs & Hd & Hv & Hp).
    exists note'. auto.
Qed.

End Optimizer.

Section Ledger.

Context {FL : PyFloat} {RNG : PyRandom} {HL : Hashlib}.

Lemma hash_occurrences_app (h : string) (l1 l2 : list Motif) :
  hash_occurrences h (l1 ++ l2) = hash_occurrences h l1 + hash_occurrences h l2.
Proof. induction l1 as [|m l1 IH]; cbn [hash_occurrences app]; lia. Qed.

Lemma hash_occurrences_nonneg (h : string) (l : list Motif) :
  0 <= hash_occurrences h l.
Proof.
  induction l as [|m l IH]; cbn [hash_occurrences]; [lia|].
  destruct (has_hash h m); lia.
Qed.

Lemma hash_occurrences_member (h : string) (m : Motif) (l : list Motif) :
  m ∈ l -> get_hash m = Ret h -> 1 <= hash_occurrences h l.
Proof.
  intros Hin Hh. induction l as [|m' l IH]; [inversion Hin|].
  cbn [hash_occurrences]. pose proof (hash_occurrences_nonneg h l) as Hn.
  apply elem_of_cons in Hin as [<-|Hin].
  - unfold has_hash. rewrite Hh. rewrite bool_decide_eq_true_2 by reflexivity. lia.
  - specialize (IH Hin). destruct (has_hash h m'); lia.
Qed.

Lemma collect_intervals_signature (l pre : list MelodyNote) :
  collect_intervals (pre ++ l) (seqZ (len pre + 1) (len l - 1))
  = Ret (signature (map pitch l)).
Proof.
  revert pre. induction l as [|a l IH]; intros pre; [reflexivity|].
  destruct l as [|b rest]; [reflexivity|].
  rewrite seqZ_cons by (rewrite !len_cons; pose proof (len_nonneg rest); lia).
  cbn [collect_intervals].
  replace (len pre + 1) with (len pre + Z.of_nat 1) at 1 by lia.
  rewrite (getitem_app_offset pre _ 1 b) by reflexivity. cbn [obind].
  replace (len pre + 1 - 1) with (len pre + Z.of_nat 0) by lia.
  rewrite (getitem_app_offset pre _ 0 a) by reflexivity. cbn [obind].
  specialize (IH (pre ++ [a])). rewrite <- app_assoc in IH. cbn [app] in IH.
  replace (Z.succ (len pre + 1)) with (len (pre ++ [a]) + 1)
    by (rewrite len_app, len_cons; unfold len; simpl; lia).
  replace (Z.pred (len (a :: b :: rest) - 1)) with (len (b :: rest) - 1)
    by (rewrite (len_cons a); lia).
  rewrite IH. reflexivity.
Qed.

(** [Motif.get_hash] never raises: it is the digest of the printed
    interval signature. *)
Lemma motif_intervals_signature (m : Motif) :
  motif_intervals m = Ret (signature (map pitch (motif_notes m))).
Proof.
  unfold motif_intervals, py_range.
  pose proof (collect_intervals_signature (motif_notes m) []) as H.
  cbn [app] in H. change (len (@nil MelodyNote) + 1) with 1 in H. exact H.
Qed.

Lemma get_hash_signature (m : Motif) :
  get_hash m
  = Ret (String.substring 0 8
           (md5_hexdigest (py_str_int_list (signature (map pitch (motif_notes m)))))).
Proof. unfold get_hash. rewrite motif_intervals_signature. reflexivity. Qed.

Lemma assembly_step_effect (params : MelodyParams) (scale : list Z)
    (beats_per_measure : Z) (s : AsmState) :
  partial (assembly_step params scale beats_per_measure s)
          (fun s' => exists motif h, pass_effect params beats_per_measure s s' motif h).
Proof.
  intros g s' g' H. unfold assembly_step in H.
  apply bind_M_Ret in H as ([motif pool] & g1 & _ & H).
  apply bind_M_Ret in H as (h & g2 & Hh & H).
  apply lift_M_Ret in Hh as [Hh ->].
  apply bind_M_Ret in H as (count & g3 & Hc & H).
  apply lift_M_Ret in Hc as [Hc ->].
  unfold dict_getitem in Hc. rewrite lookup_insert_eq in Hc. injection Hc as <-.
  apply bind_M_Ret in H as ([notes' motifs'] & g4 & Hacc & H).
  apply ret_M_Ret in H as [-> ->].
  exists motif, h. unfold pass_effect, ledger_count. cbn.
  split; [exact Hh|]. split; [reflexivity|]. split; [reflexivity|].
  destruct (default 0 (pattern_counts s !! h) + 1 <=? max_repetition params) eqn:E.
  - apply Z.leb_le in E.
    apply bind_M_Ret in Hacc as (adjusted & g5 & Hadj & Hacc).
    apply lift_M_Ret in Hadj as [Hadj ->].
    apply ret_M_Ret in Hacc as [[= -> ->] _].
    split; [|intros; lia]. intros _. split; [reflexivity|]. eauto.
  - apply Z.leb_gt in E. apply ret_M_Ret in Hacc as [[= -> ->] _].
    split; [intros; lia|]. auto.
Qed.

Lemma partial_assembly_loop (fuel : nat) (params : MelodyParams) (scale : list Z)
    (beats_per_measure total_beats : Z) (I : AsmState -> Prop) (s : AsmState) :
  I s ->
  (forall s0, I s0 -> partial (assembly_step params scale beats_per_measure s0) I) ->
  partial (assembly_loop fuel params scale beats_per_measure total_beats s) I.
Proof.
  intros Hs Hstep. revert s Hs.
  induction fuel as [|fuel IH]; intros s Hs; cbn [assembly_loop];
    destruct (Qltb (current_time s) (inject_Z total_beats)).
  - intros g a g' H. discriminate.
  - apply partial_ret. exact Hs.
  - apply partial_bind with (P := I); [apply Hstep; exact Hs|].
    intros s' Hs'. apply IH. exact Hs'.
  - apply partial_ret. exact Hs.
Qed.

Lemma within_cap_step (params : MelodyParams) (beats_per_measure : Z)
    (s s' : AsmState) (motif : Motif) (h : string) :
  within_cap params s ->
  pass_effect params beats_per_measure s s' motif h ->
  within_cap params s'.
Proof.
  intros Hinv (Hh & Hcounts & _ & Hacc & Hrej) h'.
  destruct (Hinv h') as [Hle Hcap].
  assert (Hledger : ledger_count (pattern_counts s') h'
                    = if decide (h = h') then ledger_count (pattern_counts s) h + 1
                      else ledger_count (pattern_counts s) h').
  { unfold ledger_count. rewrite Hcounts, lookup_insert.
    destruct (decide (h = h')); reflexivity. }
  rewrite Hledger.
  destruct (Z_le_gt_dec (ledger_count (pattern_counts s) h + 1) (max_repetition params))
    as [Hok|Hover].
  - destruct (Hacc Hok) as [Hm _]. rewrite Hm, hash_occurrences_app.
    cbn [hash_occurrences]. unfold has_hash. rewrite Hh.
    destruct (decide (h = h')) as [->|Hne].
    + rewrite bool_decide_eq_true_2 by reflexivity. lia.
    + rewrite bool_decide_eq_false_2 by exact Hne. lia.
  - destruct (Hrej ltac:(lia)) as [Hm _]. rewrite Hm.
    destruct (decide (h = h')) as [->|Hne]; lia.
Qed.

Lemma within_cap_entry (params : MelodyParams) (initial_motif : Motif) :
  within_cap params (entry_state initial_motif).
Proof. intros h. cbn. unfold ledger_count. rewrite lookup_empty. cbn. lia. Qed.

Lemma assemble_melody_within_cap (fuel : nat) (params : MelodyParams) :
  partial (assemble_melody fuel params) (within_cap params).
Proof.
  unfold assemble_melody.
  apply partial_bind with (P := fun _ => True); [apply partial_true|].
  intros start_pitch _.
  apply partial_bind with (P := fun _ => True); [apply partial_true|].
  intros initial_motif _.
  apply partial_assembly_loop; [apply within_cap_entry|].
  intros s0 Hs0. eapply partial_weaken; [apply assembly_step_effect|].
  intros s' (motif & h & Heff). eapply within_cap_step; eassumption.
Qed.

(** The draft behind a returned melody *)
Lemma generate_melody_draft (fuel : nat) (params : MelodyParams) (seed : option Z)
    (g : rng_state) (melody : Melody) (g' : rng_state) :
  generate_melody fuel params seed g = Ret (melody, g') ->
  exists (s : AsmState) (g0 g1 : rng_state),
    assemble_melody fuel params g0 = Ret (s, g1)
    /\ g0 = match seed with Some a => rng_seed a | None => g end
    /\ optimize_melody (mkMelody (asm_notes s) (asm_motifs s) params 0%Q) 10 g1
       = Ret (melody, g')
    /\ melody_motifs melody = asm_motifs s
    /\ melody_params melody = params.
Proof.
  intros H. unfold generate_melody in H.
  apply bind_M_Ret in H as (u & g0 & Hseed & H).
  apply bind_M_Ret in H as (s & g1 & Hasm & H).
  exists s, g0, g1. split; [exact Hasm|]. split.
  { destruct seed; [injection Hseed as _ <- | apply ret_M_Ret in Hseed as [_ ->]];
      reflexivity. }
  split; [exact H|].
  destruct (total_partial _ _ (total_optimize_melody _ _) _ _ _ H) as (_ & Hm & Hp).
  auto.
Qed.

(** C3. In every melody returned by [generate_melody] with
    [max_repetition = k], the hash of a motif of the melody's motif list
    occurs at most [k] times in that list.  A candidate over the cap is
    dropped (notes and motif list unchanged), yet its hash is still
    counted in the ledger and the time still moves on by
    [max(motif duration, beats per measure)]. *)
Theorem generate_melody_repetition_cap (fuel : nat) (params : MelodyParams)
    (seed : option Z) (g : rng_state) (melody : Melody) (g' : rng_state) :
  generate_melody fuel params seed g = Ret (melody, g') ->
  (forall (motif : Motif) (h : string),
      motif ∈ melody_motifs melody -> get_hash motif = Ret h ->
      hash_occurrences h (melody_motifs melody) <= max_repetition params)
  /\ (forall (scale : list Z) (beats_per_measure : Z) (s s' : AsmState)
             (g0 g1 : rng_state),
        assembly_step params scale beats_per_measure s g0 = Ret (s', g1) ->
        exists (motif : Motif) (h : string),
          get_hash motif = Ret h
          /\ pattern_counts s'
             = <[h := ledger_count (pattern_counts s) h + 1]> (pattern_counts s)
          /\ current_time s'
             = fadd (current_time s)
                 (py_max (py_sum (map duration (motif_notes motif)))
                         (inject_Z beats_per_measure))
          /\ (max_repetition params < ledger_count (pattern_counts s) h + 1 ->
              asm_motifs s' = asm_motifs s /\ asm_notes s' = asm_notes s)).
Proof.
  intros Hrun. split.
  - destruct (generate_melody_draft _ _ _ _ _ _ Hrun)
      as (s & g0 & g1 & Hasm & _ & _ & Hmotifs & _).
    pose proof (assemble_melody_within_cap fuel params _ _ _ Hasm) as Hcap.
    intros motif h Hin Hh. rewrite Hmotifs in *.
    destruct (Hcap h) as [_ Hk]. apply Hk.
    eapply hash_occurrences_member; eassumption.
  - intros scale bpm s s' g0 g1 Hstep.
    destruct (assembly_step_effect params scale bpm s _ _ _ Hstep)
      as (motif & h & Hh & Hc & Ht & _ & Hrej).
    exists motif, h. auto.
Qed.

End Ledger.

Section Generation.

Context {FL : PyFloat} {RNG : PyRandom} {HL : Hashlib}.

Lemma total_repeat_choice (n : Z) (seq : list Z) :
  seq <> [] ->
  total (repeat_M (Z.to_nat n) (random_choice seq)) (fun l => n <= 0 -> l = []).
Proof.
  intros Hne. eapply total_weaken.
  - apply total_repeat_M. apply total_random_choice. exact Hne.
  - intros l [Hl _] Hn. replace (Z.to_nat n) with 0%nat in Hl by lia.
    destruct l; [reflexivity | discriminate].
Qed.

(** [generate_contour] always returns; for a length of 0 or less the
    contour is empty. *)
Lemma total_generate_contour (contour_type : Contour) (length : Z) :
  total (generate_contour contour_type length) (fun l => length <= 0 -> l = []).
Proof.
  destruct contour_type; cbn [generate_contour];
    try (apply total_repeat_choice; discriminate).
  - (* ARCH *)
    apply total_bind with (P := fun l => length / 2 <= 0 -> l = []);
      [apply total_repeat_choice; discriminate|].
    intros rise Hrise.
    apply total_bind with (P := fun l => length - length / 2 <= 0 -> l = []);
      [apply total_repeat_choice; discriminate|].
    intros fall Hfall. apply total_ret. intros Hlen.
    assert (Hmid : length / 2 <= 0) by (apply Z.div_le_upper_bound; lia).
    assert (Hrest : length - length / 2 <= 0).
    { pose proof (Z.mul_div_le length 2 ltac:(lia)) as H1.
      pose proof (Z.mul_succ_div_gt length 2 ltac:(lia)) as H2. lia. }
    rewrite (Hrise Hmid), (Hfall Hrest). reflexivity.
  - (* WAVE *)
    apply total_bind with (P := fun r => length <= 0 -> fst r = []).
    + destruct (Z_le_gt_dec length 0) as [Hle|Hgt].
      * unfold py_range. rewrite seqZ_nil by lia. cbn [for_M].
        apply total_ret. reflexivity.
      * eapply total_weaken.
        -- apply total_for_M with (I := fun _ => True); [exact I|].
           intros [pattern direction] i _ _.
           apply total_bind with (P := fun _ => True).
           ++ eapply total_weaken; [apply total_random_choice; discriminate | auto].
           ++ intros c _. apply total_ret. exact I.
        -- intros r _ Hlen. lia.
    + intros r Hr. apply total_ret. exact Hr.
Qed.

(** [generate_motif] returns whenever the scale is not empty and either
    the velocity range is a range ([lo <= hi]) or no note is asked for. *)
Lemma total_generate_motif (scale : list Z) (start_pitch length : Z)
    (contour_type : Contour) (params : MelodyParams) :
  scale <> [] ->
  fst (velocity_range params) <= snd (velocity_range params) \/ length <= 0 ->
  total (generate_motif scale start_pitch length contour_type params) (fun _ => True).
Proof.
  intros Hscale Hok. unfold generate_motif.
  apply total_bind with (P := fun l => length <= 0 -> l = []);
    [apply total_generate_contour|].
  intros contour0 Hcontour.
  apply total_bind with (P := fun _ => True); [|intros; apply total_ret; exact I].
  destruct Hok as [Hrange|Hlen]; [|rewrite (Hcontour Hlen); apply total_ret; exact I].
  apply total_for_M; [exact I|].
  intros [[notes current_pitch] now] interval _ _.
  destruct (snap_to_scale_elem scale (current_pitch + interval) Hscale) as (p & Hp & _).
  apply total_bind with (P := fun _ => True);
    [apply total_lift with (x := p); [exact Hp | exact I]|].
  intros closest _.
  apply total_bind with (P := fun _ => True); [apply total_random_random|].
  intros u _.
  apply total_bind with (P := fun _ => True); [apply total_random_random|].
  intros v _.
  apply total_bind with (P := fun _ => True).
  { destruct (Qltb v (syncopation params));
      (eapply total_weaken; [apply total_random_choice; discriminate | auto]). }
  intros d _.
  apply total_bind with (P := fun _ => True).
  { eapply total_weaken; [apply total_random_randint; exact Hrange | auto]. }
  intros vel _. apply total_ret. exact I.
Qed.

Lemma rnd_zero (x : Q) : (x == 0)%Q -> (rnd x == 0)%Q.
Proof.
  intros Hx. apply Qle_antisym.
  - apply Qle_trans with (rnd 0); [|rewrite rnd_0; apply Qle_refl].
    apply rnd_mono. rewrite Hx. apply Qle_refl.
  - apply Qle_trans with (rnd 0); [rewrite rnd_0; apply Qle_refl|].
    apply rnd_mono. rewrite Hx. apply Qle_refl.
Qed.

Lemma total_beats_zero : py_int (truediv 0 60) = 0.
Proof.
  assert (H : (truediv 0 60 == 0)%Q) by (apply rnd_zero; reflexivity).
  unfold py_int, Qltb.
  assert (Hle : Qle_bool 0 (truediv 0 60) = true).
  { apply Qle_bool_iff. rewrite H. apply Qle_refl. }
  rewrite Hle. cbn [negb]. rewrite H. reflexivity.
Qed.

(** A zero duration: the loop is not entered and the draft is the entry
    state, whatever the fuel. *)
Lemma total_assemble_melody_zero (fuel : nat) (params : MelodyParams) :
  duration_seconds params = 0 ->
  fst (velocity_range params) <= snd (velocity_range params)
  \/ motif_length params <= 0 ->
  total (assemble_melody fuel params)
        (fun s => asm_notes s = [] /\ asm_motifs s = []).
Proof.
  intros Hds Hok. unfold assemble_melody.
  destruct (get_scale_notes_third (root_note params) (mode params) (octave params))
    as (third & Hthird).
  destruct (get_scale_notes_cons (root_note params) (mode params) (octave params))
    as (x & rest & Hscale).
  apply total_bind with (P := fun _ => True);
    [apply total_lift with (x := third); [exact Hthird | exact I]|].
  intros start_pitch _.
  apply total_bind with (P := fun _ => True).
  { apply total_generate_motif; [rewrite Hscale; discriminate | exact Hok]. }
  intros initial_motif _.
  rewrite Hds, Z.mul_0_l, total_beats_zero.
  destruct fuel; cbn; apply total_ret; auto.
Qed.

(** C8, as amended.  With [duration_seconds = 0], and a velocity range
    [(lo, hi)] with [lo <= hi] (or a motif length of 0 or less, so that no
    velocity is drawn), [generate_melody] returns for every seed and
    every fuel, and the returned melody has no notes. *)
Theorem generate_melody_zero_duration (fuel : nat) (params : MelodyParams)
    (seed : option Z) (g : rng_state) :
  duration_seconds params = 0 ->
  fst (velocity_range params) <= snd (velocity_range params)
  \/ motif_length params <= 0 ->
  exists (melody : Melody) (g' : rng_state),
    generate_melody fuel params seed g = Ret (melody, g')
    /\ melody_notes melody = [].
Proof.
  intros Hds Hok.
  assert (Htotal : total (generate_melody fuel params seed)
                         (fun melody => melody_notes melody = [])).
  { unfold generate_melody.
    apply total_bind with (P := fun _ => True).
    { destruct seed; [|apply total_ret; exact I].
      intros g0. exists tt, (rng_seed z). auto. }
    intros _ _.
    apply total_bind with (P := fun s => asm_notes s = [] /\ asm_motifs s = []);
      [apply total_assemble_melody_zero; assumption|].
    intros s [Hnotes Hmotifs].
    eapply total_weaken; [apply total_optimize_melody|].
    intros melody (Hvar & _ & _). cbn [melody_notes] in Hvar.
    rewrite Hnotes in Hvar. unfold pitch_variation in Hvar.
    inversion Hvar. reflexivity. }
  destruct (Htotal g) as (melody & g' & Hrun & Hnotes). eauto.
Qed.

Lemma assembly_loop_more_fuel (fuel fuel' : nat) (params : MelodyParams)
    (scale : list Z) (beats_per_measure total_beats : Z) (s : AsmState)
    (g : rng_state) :
  (fuel <= fuel')%nat ->
  assembly_loop fuel params scale beats_per_measure total_beats s g <> OutOfFuel ->
  assembly_loop fuel' params scale beats_per_measure total_beats s g
  = assembly_loop fuel params scale beats_per_measure total_beats s g.
Proof.
  revert fuel' s g. induction fuel as [|fuel IH]; intros fuel' s g Hle Hne.
  - cbn [assembly_loop] in *.
    destruct (Qltb (current_time s) (inject_Z total_beats)) eqn:E.
    + exfalso. apply Hne. reflexivity.
    + destruct fuel'; cbn [assembly_loop]; rewrite E; reflexivity.
  - destruct fuel' as [|fuel']; [lia|].
    cbn [assembly_loop] in *.
    destruct (Qltb (current_time s) (inject_Z total_beats)); [|reflexivity].
    unfold bind_M in *.
    destruct (assembly_step params scale beats_per_measure s g) as [[s' g1]| |];
      try reflexivity.
    apply IH; [lia | exact Hne].
Qed.

Lemma generate_melody_more_fuel (fuel fuel' : nat) (params : MelodyParams)
    (seed : option Z) (g : rng_state) (melody : Melody) (g' : rng_state) :
  (fuel <= fuel')%nat ->
  generate_melody fuel params seed g = Ret (melody, g') ->
  generate_melody fuel' params seed g = Ret (melody, g').
Proof.
  intros Hle H. unfold generate_melody in *.
  apply bind_M_Ret in H as (u & g0 & Hseed & H).
  apply bind_M_Ret in H as (s & g1 & Hasm & H).
  apply bind_M_Ret. exists u, g0. split; [exact Hseed|].
  apply bind_M_Ret. exists s, g1. split; [|exact H].
  unfold assemble_melody in *.
  apply bind_M_Ret in Hasm as (sp & g2 & Hsp & Hasm).
  apply bind_M_Ret in Hasm as (im & g3 & Him & Hasm).
  apply bind_M_Ret. exists sp, g2. split; [exact Hsp|].
  apply bind_M_Ret. exists im, g3. split; [exact Him|].
  rewrite (assembly_loop_more_fuel fuel fuel'); [exact Hasm | exact Hle |].
  rewrite Hasm. discriminate.
Qed.

(** C1. With an explicit seed the outcome of [generate_melody] is a
    function of the params and the seed alone: two invocations, from
    whatever generator states, give the same outcome, and two that return
    (with whatever loop budgets) return the same melody: the same notes
    in the same order and the same [uniqueness_score]. *)
Theorem generate_melody_deterministic (params : MelodyParams) (seed : Z) :
  (forall (fuel : nat) (g1 g2 : rng_state),
      generate_melody fuel params (Some seed) g1
      = generate_melody fuel params (Some seed) g2)
  /\ (forall (fuel1 fuel2 : nat) (g1 g2 g1' g2' : rng_state) (m1 m2 : Melody),
      generate_melody fuel1 params (Some seed) g1 = Ret (m1, g1') ->
      generate_melody fuel2 params (Some seed) g2 = Ret (m2, g2') ->
      melody_notes m1 = melody_notes m2
      /\ uniqueness_score m1 = uniqueness_score m2
      /\ m1 = m2).
Proof.
  assert (Hsame : forall fuel g1 g2,
             generate_melody fuel params (Some seed) g1
             = generate_melody fuel params (Some seed) g2).
  { intros fuel g1 g2. unfold generate_melody, bind_M, random_seed. reflexivity. }
  split; [exact Hsame|].
  intros fuel1 fuel2 g1 g2 g1' g2' m1 m2 H1 H2.
  apply (generate_melody_more_fuel fuel1 (Nat.max fuel1 fuel2)) in H1; [|lia].
  apply (generate_melody_more_fuel fuel2 (Nat.max fuel1 fuel2)) in H2; [|lia].
  rewrite (Hsame _ g1 g2) in H1. rewrite H1 in H2. injection H2 as -> _.
  auto.
Qed.

End Generation.

Section Development.

Context {FL : PyFloat} {RNG : PyRandom} {HL : Hashlib}.

Lemma signature_invert_from (ps : list Z) (p q : Z) :
  signature (q :: invert_from p q ps) = map Z.opp (signature (p :: ps)).
Proof.
  revert p q. induction ps as [|r ps IH]; intros p q; [reflexivity|].
  cbn [invert_from].
  change (signature (p :: r :: ps)) with ((r - p) :: signature (r :: ps)).
  change (signature (q :: ?x :: ?l)) with ((x - q) :: signature (x :: l)).
  cbn [map]. rewrite (IH r (q - (r - p))). f_equal. lia.
Qed.

Lemma signature_snoc (ps : list Z) (y x : Z) :
  signature ((ps ++ [y]) ++ [x]) = signature (ps ++ [y]) ++ [x - y].
Proof.
  induction ps as [|p ps IH]; [reflexivity|].
  cbn [app]. destruct ps as [|p' ps].
  - reflexivity.
  - cbn [app] in *. change (signature (p :: p' :: ?l)) with ((p' - p) :: signature (p' :: l)).
    rewrite IH. reflexivity.
Qed.

Lemma signature_rev (ps : list Z) :
  signature (rev ps) = rev (map Z.opp (signature ps)).
Proof.
  induction ps as [|a ps IH]; [reflexivity|].
  destruct ps as [|b ps]; [reflexivity|].
  change (signature (a :: b :: ps)) with ((b - a) :: signature (b :: ps)).
  cbn [map rev] in *. rewrite signature_snoc. rewrite IH.
  do 2 f_equal. lia.
Qed.

Lemma retime_pitches (start_time0 : Q) (notes : list MelodyNote) :
  map pitch (retime start_time0 notes) = map pitch notes.
Proof.
  unfold retime.
  assert (H : forall l done now,
             map pitch (fst (fold_left
               (fun '(done, current_time) note =>
                  (done ++ [mkMelodyNote (pitch note) current_time (duration note)
                                         (velocity note)],
                   fadd current_time (duration note)))
               l (done, now)))
             = map pitch done ++ map pitch l).
  { induction l as [|n l IH]; intros done now; cbn [fold_left].
    - cbn. rewrite app_nil_r. reflexivity.
    - rewrite IH. rewrite map_app, <- app_assoc. reflexivity. }
  rewrite H. reflexivity.
Qed.

(** One pass of the loop of [develop_motif] for [RETROGRADE]: the note
    is copied (its start time relocated). *)
Lemma develop_note_retrograde (motif : Motif) (scale : list Z) (start_time0 : Q)
    (transposition : Z) (first : MelodyNote) (acc : list MelodyNote)
    (i : Z) (note : MelodyNote) (g : rng_state) :
  getitem (motif_notes motif) 0 = Ret first ->
  exists note',
    develop_note motif RETROGRADE scale start_time0 transposition acc (i, note) g
    = Ret (acc ++ [note'], g) /\ pitch note' = pitch note.
Proof.
  intros Hfirst. unfold develop_note, bind_M, ret_M. rewrite Hfirst. cbn.
  eexists. split; reflexivity.
Qed.

Lemma develop_loop_retrograde (motif : Motif) (scale : list Z) (start_time0 : Q)
    (transposition : Z) (first : MelodyNote) (zl : list (Z * MelodyNote))
    (acc : list MelodyNote) (g : rng_state) :
  getitem (motif_notes motif) 0 = Ret first ->
  exists tail,
    for_M zl (develop_note motif RETROGRADE scale start_time0 transposition) acc g
    = Ret (acc ++ tail, g) /\ map pitch tail = map pitch (map snd zl).
Proof.
  intros Hfirst. revert acc. induction zl as [|[i note] zl IH]; intros acc.
  - exists []. rewrite app_nil_r. split; reflexivity.
  - destruct (develop_note_retrograde motif scale start_time0 transposition first
                acc i note g Hfirst) as (note' & Hstep & Hp).
    destruct (IH (acc ++ [note'])) as (tail & Hloop & Htail).
    exists (note' :: tail). cbn [for_M].
    rewrite (bind_M_step _ _ _ _ _ Hstep), Hloop, <- app_assoc.
    split; [reflexivity|]. cbn. rewrite Hp, Htail. reflexivity.
Qed.

(** The passes of the loop for [INVERTED] behind the first note *)
Lemma develop_loop_inverted (motif : Motif) (scale : list Z) (start_time0 : Q)
    (transposition : Z) (l pre : list MelodyNote) (x : MelodyNote)
    (acc : list MelodyNote) (y : MelodyNote) (g : rng_state) :
  motif_notes motif = (pre ++ [x]) ++ l ->
  exists tail,
    for_M (zip (seqZ (len pre + 1) (len l)) l)
      (develop_note motif INVERTED scale start_time0 transposition) (acc ++ [y]) g
    = Ret ((acc ++ [y]) ++ tail, g)
    /\ map pitch tail = invert_from (pitch x) (pitch y) (map pitch l).
Proof.
  revert pre x acc y. induction l as [|a l IH]; intros pre x acc y Hnotes.
  - exists []. rewrite app_nil_r. split; reflexivity.
  - rewrite seqZ_cons by (rewrite len_cons; pose proof (len_nonneg l); lia).
    cbn [zip zip_with for_M].
    assert (Hprev : getitem (motif_notes motif) (len pre + 1 - 1) = Ret x).
    { rewrite Hnotes, <- app_assoc.
      replace (len pre + 1 - 1) with (len pre + Z.of_nat 0) by lia.
      apply getitem_app_offset. reflexivity. }
    assert (Hfirst : exists first, getitem (motif_notes motif) 0 = Ret first).
    { destruct (getitem_in_range (motif_notes motif) 0) as (f & Hf & _); [|eauto].
      rewrite Hnotes, !len_app, !len_cons.
      pose proof (len_nonneg pre). pose proof (len_nonneg l).
      change (len (@nil MelodyNote)) with 0. lia. }
    destruct Hfirst as (first & Hfirst).
    set (note' := mkMelodyNote (pitch y - (pitch a - pitch x))
                    (fadd start_time0 (fsub (start_time a) (start_time first)))
                    (duration a) (velocity a)).
    assert (Hstep : develop_note motif INVERTED scale start_time0 transposition
                      (acc ++ [y]) (len pre + 1, a) g
                    = Ret ((acc ++ [y]) ++ [note'], g)).
    { unfold develop_note.
      assert (Hpos : (0 <? len pre + 1) = true)
        by (apply Z.ltb_lt; pose proof (len_nonneg pre); lia).
      rewrite Hpos. unfold bind_M, lift_M, ret_M.
      rewrite Hprev, getitem_last, Hfirst. reflexivity. }
    rewrite (bind_M_step _ _ _ _ _ Hstep).
    destruct (IH (pre ++ [x]) a (acc ++ [y]) note') as (tail & Hloop & Htail).
    { rewrite Hnotes, <- !app_assoc. reflexivity. }
    replace (Z.succ (len pre + 1)) with (len (pre ++ [x]) + 1)
      by (rewrite len_app, len_cons; change (len (@nil MelodyNote)) with 0; lia).
    replace (Z.pred (len (a :: l))) with (len l) by (rewrite len_cons; lia).
    rewrite Hloop. exists (note' :: tail). rewrite <- !app_assoc.
    split; [reflexivity|]. cbn [map invert_from]. rewrite Htail. reflexivity.
Qed.

Lemma snd_enumerate {A : Type} (l : list A) : map snd (enumerate l) = l.
Proof.
  unfold enumerate. apply snd_zip. rewrite length_seqZ. unfold len. lia.
Qed.

(** [develop_motif] for [INVERTED] returns without drawing, with the
    negated interval signature. *)
Lemma develop_motif_inverted (motif : Motif) (scale : list Z) (start_time0 : Q)
    (transposition : Z) (g : rng_state) :
  exists inverted,
    develop_motif motif INVERTED scale start_time0 transposition g = Ret (inverted, g)
    /\ signature (map pitch (motif_notes inverted))
       = map Z.opp (signature (map pitch (motif_notes motif))).
Proof.
  unfold develop_motif.
  destruct (motif_notes motif) as [|a l] eqn:Hnotes.
  - eexists. split; [reflexivity|]. reflexivity.
  - set (note' := mkMelodyNote (pitch a)
                    (fadd start_time0 (fsub (start_time a) (start_time a)))
                    (duration a) (velocity a)).
    assert (Hstep : develop_note motif INVERTED scale start_time0 transposition
                      [] (0, a) g = Ret ([] ++ [note'], g)).
    { unfold develop_note, bind_M, lift_M, ret_M. rewrite Hnotes. reflexivity. }
    destruct (develop_loop_inverted motif scale start_time0 transposition
                l [] a [] note' g Hnotes) as (tail & Hloop & Htail).
    assert (Hfor : for_M (enumerate (a :: l))
                     (develop_note motif INVERTED scale start_time0 transposition) [] g
                   = Ret (([] ++ [note']) ++ tail, g)).
    { unfold enumerate.
      rewrite seqZ_cons by (rewrite len_cons; pose proof (len_nonneg l); lia).
      cbn [zip zip_with for_M]. rewrite (bind_M_step _ _ _ _ _ Hstep).
      change (Z.succ 0) with (len (@nil MelodyNote) + 1).
      replace (Z.pred (len (a :: l))) with (len l) by (rewrite len_cons; lia).
      exact Hloop. }
    rewrite (bind_M_step _ _ _ _ _ Hfor).
    eexists. split; [reflexivity|].
    cbn [motif_notes app map]. rewrite Htail.
    apply (signature_invert_from (map pitch l) (pitch a) (pitch a)).
Qed.

(** [develop_motif] for [RETROGRADE] returns without drawing, with the
    reversed and negated interval signature. *)
Lemma develop_motif_retrograde (motif : Motif) (scale : list Z) (start_time0 : Q)
    (transposition : Z) (g : rng_state) :
  exists retrograde,
    develop_motif motif RETROGRADE scale start_time0 transposition g
    = Ret (retrograde, g)
    /\ signature (map pitch (motif_notes retrograde))
       = rev (map Z.opp (signature (map pitch (motif_notes motif)))).
Proof.
  unfold develop_motif.
  destruct (motif_notes motif) as [|a l] eqn:Hnotes.
  - eexists. split; [reflexivity|]. reflexivity.
  - assert (Hfirst : getitem (motif_notes motif) 0 = Ret a)
      by (rewrite Hnotes; reflexivity).
    destruct (develop_loop_retrograde motif scale start_time0 transposition a
                (enumerate (a :: l)) [] g Hfirst) as (tail & Hloop & Htail).
    rewrite (bind_M_step _ _ _ _ _ Hloop).
    eexists. split; [reflexivity|].
    cbn [motif_notes app]. rewrite retime_pitches, map_rev, Htail, snd_enumerate.
    apply signature_rev.
Qed.

Lemma negated_signature_same (sig : list Z) :
  Forall (fun d => d = 0) sig -> map Z.opp sig = sig.
Proof.
  induction 1 as [|d sig Hd _ IH]; [reflexivity|].
  cbn [map]. rewrite IH, Hd. reflexivity.
Qed.

Lemma negated_signature_differs (sig : list Z) :
  Exists (fun d => d <> 0) sig -> map Z.opp sig <> sig.
Proof.
  induction 1 as [d sig Hd|d sig _ IH]; cbn [map]; intros [= H1 H2].
  - lia.
  - apply IH. exact H2.
Qed.

(** C7, as amended.  [develop_motif] with [INVERTED] gives the negated
    interval signature of the source and with [RETROGRADE] the reversed
    and negated one.  The signature differs from the source's when an
    interval is non-zero (Inverted) or when the signature is not its own
    reversed negation (Retrograde); when all intervals are zero (Inverted)
    or the signature is its own reversed negation (Retrograde), signature
    and identity hash are those of the source, and the motif counts toward
    the bucket of the source. *)
Theorem develop_motif_inverted_retrograde_signature (motif : Motif)
    (scale : list Z) (start_time0 : Q) (transposition : Z) (g : rng_state) :
  let sig := signature (map pitch (motif_notes motif)) in
  exists inverted retrograde : Motif,
    develop_motif motif INVERTED scale start_time0 transposition g = Ret (inverted, g)
    /\ develop_motif motif RETROGRADE scale start_time0 transposition g
       = Ret (retrograde, g)
    /\ motif_intervals motif = Ret sig
    /\ motif_intervals inverted = Ret (map Z.opp sig)
    /\ motif_intervals retrograde = Ret (rev (map Z.opp sig))
    /\ (Exists (fun d => d <> 0) sig ->
        motif_intervals inverted <> motif_intervals motif)
    /\ (Forall (fun d => d = 0) sig ->
        motif_intervals inverted = motif_intervals motif
        /\ get_hash inverted = get_hash motif)
    /\ (rev (map Z.opp sig) <> sig ->
        motif_intervals retrograde <> motif_intervals motif)
    /\ (rev (map Z.opp sig) = sig ->
        motif_intervals retrograde = motif_intervals motif
        /\ get_hash retrograde = get_hash motif).
Proof.
  intros sig.
  destruct (develop_motif_inverted motif scale start_time0 transposition g)
    as (inverted & Hinv & Hsi).
  destruct (develop_motif_retrograde motif scale start_time0 transposition g)
    as (retrograde & Hret & Hsr).
  exists inverted, retrograde.
  assert (Hm : motif_intervals motif = Ret sig) by apply motif_intervals_signature.
  assert (Hi : motif_intervals inverted = Ret (map Z.opp sig))
    by (rewrite motif_intervals_signature, Hsi; reflexivity).
  assert (Hr : motif_intervals retrograde = Ret (rev (map Z.opp sig)))
    by (rewrite motif_intervals_signature, Hsr; reflexivity).
  repeat split; try assumption.
  - intros Hex. rewrite Hi, Hm. intros [= H].
    exact (negated_signature_differs sig Hex H).
  - rewrite Hi, Hm, (negated_signature_same sig H). reflexivity.
  - unfold get_hash. rewrite Hi, Hm, (negated_signature_same sig H). reflexivity.
  - intros Hne. rewrite Hr, Hm. intros [= H]. exact (Hne H).
  - rewrite Hr, Hm, H. reflexivity.
  - unfold get_hash. rewrite Hr, Hm, H. reflexivity.
Qed.

End Development.

Section InitialMotif.

Context {FL : PyFloat} {RNG : PyRandom} {HL : Hashlib}.

Lemma next_motif_origin (params : MelodyParams) (scale : list Z) (s : AsmState) :
  partial (next_motif params scale s)
          (fun mp => candidate_origin params scale s (fst mp) (snd mp)).
Proof.
  intros g [motif pool] g' H. unfold next_motif in H.
  apply bind_M_Ret in H as (develop & g1 & Hdev & H).
  destruct develop.
  - apply bind_M_Ret in H as (m & g2 & Hm & H).
    apply ret_M_Ret in H as [[= -> ->] ->].
    left. split; [reflexivity|]. unfold develop_existing_motif in Hm.
    apply bind_M_Ret in Hm as (source & g3 & Hsrc & Hm).
    apply bind_M_Ret in Hm as (development & g4 & _ & Hm).
    apply bind_M_Ret in Hm as (transposition & g5 & _ & Hm).
    exists source, development, transposition, g5, g2. split; [|exact Hm].
    assert (Hne : motifs_used s <> []).
    { intros Hnil. unfold random_choice in Hsrc. rewrite Hnil in Hsrc. discriminate. }
    exact (total_partial _ _ (total_random_choice _ Hne) _ _ _ Hsrc).
  - apply bind_M_Ret in H as (m & g2 & Hm & H).
    apply ret_M_Ret in H as [[= -> ->] ->].
    right. split; [reflexivity|]. unfold generate_new_motif in Hm.
    apply bind_M_Ret in Hm as (u & g3 & _ & Hm).
    apply bind_M_Ret in Hm as (contour0 & g4 & _ & Hm).
    apply bind_M_Ret in Hm as (start_pitch & g5 & _ & Hm).
    exists start_pitch, contour0, g5, g2. exact Hm.
Qed.

Lemma assembly_step_pass (params : MelodyParams) (scale : list Z)
    (beats_per_measure : Z) (s s' : AsmState) (g g' : rng_state) :
  assembly_step params scale beats_per_measure s g = Ret (s', g') ->
  exists (motif : Motif) (h : string),
    candidate_origin params scale s motif (motifs_used s')
    /\ pass_effect params beats_per_measure s s' motif h.
Proof.
  intros H. unfold assembly_step in H.
  apply bind_M_Ret in H as ([motif pool] & g1 & Hnext & H).
  pose proof (next_motif_origin params scale s _ _ _ Hnext) as Horigin.
  cbn [fst snd] in Horigin.
  assert (Hstep : assembly_step params scale beats_per_measure s g = Ret (s', g')).
  { unfold assembly_step. rewrite (bind_M_step _ _ _ _ _ Hnext). exact H. }
  destruct (assembly_step_effect params scale beats_per_measure s _ _ _ Hstep)
    as (motif' & h & Heff).
  (* the candidate of [assembly_step_effect] is [motif] *)
  apply bind_M_Ret in H as (h0 & g2 & Hh & H).
  apply lift_M_Ret in Hh as [Hh ->].
  apply bind_M_Ret in H as (count & g3 & Hc & H).
  apply lift_M_Ret in Hc as [Hc ->].
  unfold dict_getitem in Hc. rewrite lookup_insert_eq in Hc. injection Hc as <-.
  apply bind_M_Ret in H as ([notes' motifs'] & g4 & Hacc & H).
  apply ret_M_Ret in H as [-> ->].
  exists motif, h0. split; [exact Horigin|].
  unfold pass_effect, ledger_count. cbn.
  split; [exact Hh|]. split; [reflexivity|]. split; [reflexivity|].
  destruct (default 0 (pattern_counts s !! h0) + 1 <=? max_repetition params) eqn:E.
  - apply Z.leb_le in E.
    apply bind_M_Ret in Hacc as (adjusted & g5 & Hadj & Hacc).
    apply lift_M_Ret in Hadj as [Hadj ->].
    apply ret_M_Ret in Hacc as [[= -> ->] _].
    split; [|intros; lia]. intros _. split; [reflexivity|]. eauto.
  - apply Z.leb_gt in E. apply ret_M_Ret in Hacc as [[= -> ->] _].
    split; [intros; lia|]. auto.
Qed.












End InitialMotif.

Section Presets.

Context {FL : PyFloat} {RNG : PyRandom} {HL : Hashlib}.

(** What [generate_melody_for_genre] leaves in the store of presets: the
    preset object it used carries the arguments of the call. *)
Lemma generate_melody_for_genre_store (fuel : nat) (genre : string)
    (duration_seconds0 : Z) (root_note0 : string) (seed : option Z)
    (presets presets' : gmap string MelodyParams) (g g' : rng_state)
    (melody : Melody) :
  generate_melody_for_genre fuel genre duration_seconds0 root_note0 seed presets g
  = Ret ((melody, presets'), g') ->
  exists p : MelodyParams,
    presets' !! preset_key presets genre = Some p
    /\ duration_seconds p = duration_seconds0
    /\ root_note p = root_note0
    /\ melody_params melody = p
    /\ forall k : string, k <> preset_key presets genre -> presets' !! k = presets !! k.
Proof.
  intros H. unfold generate_melody_for_genre in H.
  apply bind_M_Ret in H as ([p ps] & g1 & Hassign & H).
  apply lift_M_Ret in Hassign as [Hassign ->].
  apply bind_M_Ret in H as (m & g2 & Hgen & H).
  apply ret_M_Ret in H as [[= -> ->] ->]. cbn [fst snd] in *.
  unfold assign_preset in Hassign.
  destruct (dict_getitem presets "relaxation") as [fallback| |]; try discriminate.
  cbn [obind] in Hassign. injection Hassign as <- <-.
  eexists. split; [apply lookup_insert_eq|]. cbn.
  split; [reflexivity|]. split; [reflexivity|]. split.
  - destruct (generate_melody_draft _ _ _ _ _ _ Hgen) as (s & g0 & g3 & _ & _ & _ & _ & Hp).
    exact Hp.
  - intros k Hk. apply lookup_insert_ne. congruence.
Qed.

End Presets.

(* ------------------------------------------------------------------ *)
(** ** The properties on explicit inputs                               *)
(* ------------------------------------------------------------------ *)

Section Examples.

#[local] Existing Instance Runtime.fixed_point.
#[local] Existing Instance Runtime.tape_rng.
#[local] Existing Instance Runtime.toy_hashlib.

(** C1 on an input: the seeded run does not depend on the generator
    state it starts from. *)
Lemma generate_melody_deterministic_witness :
  generate_melody 40 params_8s (Some 42) no_draws
  = generate_melody 40 params_8s (Some 42) some_draws.
Proof.
  exact (proj1 (generate_melody_deterministic params_8s 42) 40%nat no_draws some_draws).
Defined.

(** C2 on an input.  Pass 1 moves note 0 from 72 to 74 and is accepted,
    so the best melody has the pitches 74, 74, 76, 77.  Pass 2 moves
    note 1 and is accepted: the code returns 72, 76, 76, 77, a variation
    of the argument in which the accepted change of pass 1 is lost; a
    candidate cloned from the best melody gives 74, 76, 76, 77. *)
Theorem optimize_melody_clones_argument_not_best :
  (exists (best1 : Melody) (g1 : rng_state),
      optimize_melody four_notes 1 two_passes = Ret (best1, g1)
      /\ map pitch (melody_notes best1) = [74; 74; 76; 77])
  /\ (exists (result : Melody) (g2 : rng_state),
      optimize_melody four_notes 2 two_passes = Ret (result, g2)
      /\ map pitch (melody_notes result) = [72; 76; 76; 77])
  /\ (exists (expected : Melody) (g2 : rng_state),
      optimize_melody_from_best four_notes 2 two_passes = Ret (expected, g2)
      /\ map pitch (melody_notes expected) = [74; 76; 76; 77]).
Proof.
  split; [|split].
  - destruct (optimize_melody four_notes 1 two_passes) as [[m g]| |] eqn:E;
      vm_compute in E; try discriminate.
    injection E as <- <-. eexists _, _. split; reflexivity.
  - destruct (optimize_melody four_notes 2 two_passes) as [[m g]| |] eqn:E;
      vm_compute in E; try discriminate.
    injection E as <- <-. eexists _, _. split; reflexivity.
  - destruct (optimize_melody_from_best four_notes 2 two_passes) as [[m g]| |] eqn:E;
      vm_compute in E; try discriminate.
    injection E as <- <-. eexists _, _. split; reflexivity.
Qed.

(** C3 on an input *)
Lemma generate_melody_repetition_cap_witness :
  generate_melody 40 params_8s (Some 42) no_draws = Ret (melody_8s, state_8s)
  /\ forall (motif : Motif) (h : string),
       motif ∈ melody_motifs melody_8s -> get_hash motif = Ret h ->
       hash_occurrences h (melody_motifs melody_8s) <= 2.
Proof.
  assert (Hrun : generate_melody 40 params_8s (Some 42) no_draws = Ret (melody_8s, state_8s))
    by (vm_compute; reflexivity).
  split; [exact Hrun|].
  exact (proj1 (generate_melody_repetition_cap 40 params_8s (Some 42) no_draws
                  melody_8s state_8s Hrun)).
Defined.

(** C4 on an input: three notes score 1.0 *)
Lemma calculate_uniqueness_spec_witness :
  calculate_uniqueness three_notes = Ret 1%Q.
Proof.
  apply (proj1 (calculate_uniqueness_spec three_notes)). vm_compute. reflexivity.
Defined.

(** C5 on an input.  Before the call the preset "relaxation" has
    [duration_seconds = 60] and [root_note = "C"]; after
    [generate_melody_for_genre("relaxation", 30, "G", seed=1)] the same
    preset object has [duration_seconds = 30] and [root_note = "G"]. *)
Theorem generate_melody_for_genre_overwrites_preset :
  (duration_seconds <$> GENRE_PRESETS !! "relaxation"%string) = Some 60
  /\ (root_note <$> GENRE_PRESETS !! "relaxation"%string) = Some "C"%string
  /\ exists (melody : Melody) (presets' : gmap string MelodyParams) (g' : rng_state),
       generate_melody_for_genre 200 "relaxation" 30 "G" (Some 1) GENRE_PRESETS no_draws
       = Ret ((melody, presets'), g')
       /\ (duration_seconds <$> presets' !! "relaxation"%string) = Some 30
       /\ (root_note <$> presets' !! "relaxation"%string) = Some "G"%string.
Proof.
  split; [vm_compute; reflexivity|]. split; [vm_compute; reflexivity|].
  assert (Hret : match generate_melody_for_genre 200 "relaxation" 30 "G" (Some 1)
                         GENRE_PRESETS no_draws with
                 | Ret _ => true
                 | _ => false
                 end = true) by (vm_compute; reflexivity).
  destruct (generate_melody_for_genre 200 "relaxation" 30 "G" (Some 1)
              GENRE_PRESETS no_draws)
    as [[[m ps] g]| |] eqn:E; try discriminate Hret.
  exists m, ps, g. split; [reflexivity|].
  destruct (generate_melody_for_genre_store _ _ _ _ _ _ _ _ _ _ E)
    as (p & Hp & Hd & Hr & _).
  change (preset_key GENRE_PRESETS "relaxation") with "relaxation"%string in Hp.
  rewrite Hp. cbn. rewrite Hd, Hr. split; reflexivity.
Qed.

(** C6 on an input *)
Lemma get_scale_notes_fail_soft_witness :
  get_scale_notes "Z" "minor" 3 = get_scale_notes "C" "minor" 3.
Proof.
  apply (proj1 get_scale_notes_fail_soft). vm_compute. reflexivity.
Defined.

(** C7 as stated fails: the inversion of a motif that repeats one pitch,
    and the retrograde of a motif that goes up and comes back by the same
    step, have the interval signature and the identity hash of their
    source. *)
Lemma inverted_retrograde_keep_signature :
  (develop_motif flat_motif INVERTED [60; 62; 64; 65; 67; 69; 71] 0 0 no_draws
   = Ret (developed flat_motif INVERTED, no_draws)
   /\ motif_intervals (developed flat_motif INVERTED) = motif_intervals flat_motif
   /\ get_hash (developed flat_motif INVERTED) = get_hash flat_motif)
  /\ (develop_motif arch_motif RETROGRADE [60; 62; 64; 65; 67; 69; 71] 0 0 no_draws
      = Ret (developed arch_motif RETROGRADE, no_draws)
      /\ motif_intervals (developed arch_motif RETROGRADE) = motif_intervals arch_motif
      /\ get_hash (developed arch_motif RETROGRADE) = get_hash arch_motif).
Proof. vm_compute. repeat split. Qed.

(** C7, as amended, on an input *)
Lemma develop_motif_inverted_retrograde_signature_witness :
  exists inverted : Motif,
    develop_motif flat_motif INVERTED [60; 62] 0 0 no_draws = Ret (inverted, no_draws)
    /\ get_hash inverted = get_hash flat_motif.
Proof.
  destruct (develop_motif_inverted_retrograde_signature flat_motif [60; 62] 0 0 no_draws)
    as (inverted & _ & Hinv & _ & _ & _ & _ & _ & Hsame & _).
  exists inverted. split; [exact Hinv|].
  apply Hsame. repeat constructor.
Defined.

(** C8 as stated fails: with [velocity_range = (80, 50)] the initial
    motif cannot draw a velocity and [generate_melody] raises
    [ValueError], although [duration_seconds] is 0. *)
Lemma generate_melody_zero_duration_raises :
  duration_seconds params_inverted_range = 0
  /\ forall fuel : nat,
       generate_melody fuel params_inverted_range (Some 1) no_draws = Raise ValueError.
Proof. split; [reflexivity|]. intros fuel. vm_compute. reflexivity. Qed.

(** C8, as amended, on an input *)
Lemma generate_melody_zero_duration_witness :
  exists (melody : Melody) (g' : rng_state),
    generate_melody 0 params_0s (Some 7) no_draws = Ret (melody, g')
    /\ melody_notes melody = [].
Proof.
  apply (generate_melody_zero_duration 0 params_0s (Some 7) no_draws).
  - reflexivity.
  - left. vm_compute. discriminate.
Defined.

(** C9 on an input *)
Lemma optimize_melody_changes_pitches_only_witness :
  exists (result : Melody) (g' : rng_state),
    optimize_melody four_notes 2 two_passes = Ret (result, g')
    /\ length (melody_notes result) = 4%nat.
Proof.
  destruct (optimize_melody_changes_pitches_only four_notes 2 two_passes)
    as (result & g' & Hrun & Hlen & _).
  exists result, g'. split; [exact Hrun | exact Hlen].
Defined.



End Examples.

(* ------------------------------------------------------------------ *)
(** ** Further properties of the code                                  *)
(* ------------------------------------------------------------------ *)

Section ScaleTables.

Lemma offsets_ok_shift (r : Z) (l : list Z) :
  offsets_ok l ->
  (exists rest, map (fun i => r + i) l = r :: rest)
  /\ StronglySorted Z.lt (map (fun i => r + i) l)
  /\ Forall (fun p => r <= p < r + 12) (map (fun i => r + i) l).
Proof.
  intros ((rest & ->) & Hsorted & Hrange). split; [|split].
  - exists (map (fun i => r + i) rest). cbn [map]. f_equal. lia.
  - clear Hrange. induction Hsorted as [|a l Hs IH Hall]; cbn [map]; constructor.
    + exact IH.
    + rewrite Forall_forall in *. intros y Hy.
      apply list_elem_of_fmap in Hy as (x & -> & Hx). specialize (Hall x Hx). lia.
  - rewrite Forall_forall in *. intros y Hy.
    apply list_elem_of_fmap in Hy as (x & -> & Hx). specialize (Hrange x Hx). lia.
Qed.

Ltac table_ok :=
  split; [eexists; reflexivity|];
  split; [repeat (constructor; [|repeat constructor; lia]); constructor
         | repeat constructor; lia].

Lemma scale_table_ok (mode : string) :
  offsets_ok (default SCALES_at_major (SCALES !! mode))
  /\ (length (default SCALES_at_major (SCALES !! mode)) = 5%nat
      \/ length (default SCALES_at_major (SCALES !! mode)) = 7%nat).
Proof.
  destruct (SCALES !! mode) as [l|] eqn:E; cbn [default].
  - unfold SCALES in E. cbn [list_to_map foldr curry fst snd] in E.
    repeat (apply lookup_insert_Some in E as [[_ <-]|[_ E]];
            [split; [table_ok | cbn; auto]|]).
    rewrite lookup_empty in E. discriminate.
  - change SCALES_at_major with [0; 2; 4; 5; 7; 9; 11].
    split; [table_ok | cbn; auto].
Qed.

Lemma chord_table_ok (chord_type : string) :
  offsets_ok (default CHORDS_at_major (CHORDS !! chord_type))
  /\ (length (default CHORDS_at_major (CHORDS !! chord_type)) = 3%nat
      \/ length (default CHORDS_at_major (CHORDS !! chord_type)) = 4%nat).
Proof.
  destruct (CHORDS !! chord_type) as [l|] eqn:E; cbn [default].
  - unfold CHORDS in E. cbn [list_to_map foldr curry fst snd] in E.
    repeat (apply lookup_insert_Some in E as [[_ <-]|[_ E]];
            [split; [table_ok | cbn; auto]|]).
    rewrite lookup_empty in E. discriminate.
  - change CHORDS_at_major with [0; 4; 7].
    split; [table_ok | cbn; auto].
Qed.

(** X1. Every scale [get_scale_notes] returns starts at its root pitch
    [NOTE_MAP.get(root, 60) + (octave - 4) * 12], ascends strictly, stays
    within the octave above the root, and has 5 or 7 notes. *)
Theorem get_scale_notes_shape (root mode : string) (octave : Z) :
  let root_midi := default 60 (NOTE_MAP !! root) + (octave - 4) * 12 in
  let scale := get_scale_notes root mode octave in
  (exists rest, scale = root_midi :: rest)
  /\ StronglySorted Z.lt scale
  /\ Forall (fun p => root_midi <= p < root_midi + 12) scale
  /\ (length scale = 5%nat \/ length scale = 7%nat).
Proof.
  intros root_midi scale. subst scale. unfold get_scale_notes. fold root_midi.
  destruct (scale_table_ok mode) as [Hok Hlen].
  destruct (offsets_ok_shift root_midi _ Hok) as (Hhd & Hs & Hr).
  repeat split; try assumption. rewrite length_map. exact Hlen.
Qed.

(** X2. Raising the octave by [k] raises every note of the scale by
    [12 * k] semitones. *)
Theorem get_scale_notes_octave_shift (root mode : string) (octave k : Z) :
  get_scale_notes root mode (octave + k)
  = map (fun p => p + 12 * k) (get_scale_notes root mode octave).
Proof.
  unfold get_scale_notes. rewrite map_map. apply map_ext. intros i. lia.
Qed.

(** X3. [get_chord_notes] never fails: an unknown chord type gives the
    major triad; every chord starts at [root_midi], ascends strictly
    within the octave above it, and has 3 or 4 notes. *)
Theorem get_chord_notes_shape (root_midi : Z) (chord_type : string) :
  (CHORDS !! chord_type = None ->
   get_chord_notes root_midi chord_type = [root_midi; root_midi + 4; root_midi + 7])
  /\ (exists rest, get_chord_notes root_midi chord_type = root_midi :: rest)
  /\ StronglySorted Z.lt (get_chord_notes root_midi chord_type)
  /\ Forall (fun p => root_midi <= p < root_midi + 12)
            (get_chord_notes root_midi chord_type)
  /\ (length (get_chord_notes root_midi chord_type) = 3%nat
      \/ length (get_chord_notes root_midi chord_type) = 4%nat).
Proof.
  split.
  - intros Hnone. unfold get_chord_notes. rewrite Hnone.
    change (default CHORDS_at_major None) with [0; 4; 7]. cbn [map].
    rewrite Z.add_0_r. reflexivity.
  - unfold get_chord_notes.
    destruct (chord_table_ok chord_type) as [Hok Hlen].
    destruct (offsets_ok_shift root_midi _ Hok) as (Hhd & Hs & Hr).
    repeat split; try assumption. rewrite length_map. exact Hlen.
Qed.

Lemma min_by_dist_nearest (target best : Z) (rest : list Z) :
  forall x, x ∈ best :: rest ->
    Z.abs (min_by_dist target best rest - target) <= Z.abs (x - target).
Proof.
  revert best. induction rest as [|y rest IH]; intros best x Hx; cbn [min_by_dist].
  - apply list_elem_of_singleton in Hx as ->. lia.
  - destruct (Z.abs (y - target) <? Z.abs (best - target)) eqn:E.
    + apply Z.ltb_lt in E.
      apply elem_of_cons in Hx as [->|Hx].
      * pose proof (IH y y ltac:(left)). lia.
      * apply IH. exact Hx.
    + apply Z.ltb_ge in E.
      apply elem_of_cons in Hx as [->|Hx].
      * apply IH. left.
      * apply elem_of_cons in Hx as [->|Hx].
        -- pose proof (IH best best ltac:(left)). lia.
        -- apply IH. right. exact Hx.
Qed.

(** X4. Snapping, [min(scale, key=lambda x: abs(x - target))]: on an
    empty scale it raises [ValueError]; otherwise it returns a member of
    the scale at the least distance from the target, and a target that is
    itself on the scale is returned unchanged. *)
Theorem snap_to_scale_nearest (scale : list Z) (target : Z) :
  match snap_to_scale scale target with
  | Ret p =>
      p ∈ scale
      /\ (forall x, x ∈ scale -> Z.abs (p - target) <= Z.abs (x - target))
      /\ (target ∈ scale -> p = target)
  | Raise e => scale = [] /\ e = ValueError
  | OutOfFuel => False
  end.
Proof.
  destruct scale as [|x rest]; cbn [snap_to_scale]; [auto|].
  split; [apply min_by_dist_elem|]. split; [apply min_by_dist_nearest|].
  intros Hin. pose proof (min_by_dist_nearest target x rest target Hin). lia.
Qed.

End ScaleTables.

Section Loops.

Context {RNG : PyRandom}.

(** A loop invariant that knows the part of the sequence already
    visited *)
Lemma partial_for_M_prefix {A S : Type} (xs : list A) (body : S -> A -> M S)
    (I : list A -> S -> Prop) (acc : S) :
  I [] acc ->
  (forall pre x suf s, xs = pre ++ x :: suf -> I pre s ->
      partial (body s x) (I (pre ++ [x]))) ->
  partial (for_M xs body acc) (I xs).
Proof.
  intros Hacc Hbody.
  assert (H : forall rest pre s, xs = pre ++ rest -> I pre s ->
                partial (for_M rest body s) (I (pre ++ rest))).
  { induction rest as [|x rest IH]; intros pre s Hxs Hs; cbn [for_M].
    - rewrite app_nil_r. apply partial_ret. exact Hs.
    - apply partial_bind with (P := I (pre ++ [x])).
      + eapply Hbody; eassumption.
      + intros s' Hs'. replace (pre ++ x :: rest) with ((pre ++ [x]) ++ rest)
          by (rewrite <- app_assoc; reflexivity).
        apply IH; [rewrite <- app_assoc; exact Hxs | exact Hs']. }
  apply (H xs [] acc); [reflexivity | exact Hacc].
Qed.

Lemma total_for_M_prefix {A S : Type} (xs : list A) (body : S -> A -> M S)
    (I : list A -> S -> Prop) (acc : S) :
  I [] acc ->
  (forall pre x suf s, xs = pre ++ x :: suf -> I pre s ->
      total (body s x) (I (pre ++ [x]))) ->
  total (for_M xs body acc) (I xs).
Proof.
  intros Hacc Hbody.
  assert (H : forall rest pre s, xs = pre ++ rest -> I pre s ->
                total (for_M rest body s) (I (pre ++ rest))).
  { induction rest as [|x rest IH]; intros pre s Hxs Hs; cbn [for_M].
    - rewrite app_nil_r. apply total_ret. exact Hs.
    - apply total_bind with (P := I (pre ++ [x])).
      + eapply Hbody; eassumption.
      + intros s' Hs'. replace (pre ++ x :: rest) with ((pre ++ [x]) ++ rest)
          by (rewrite <- app_assoc; reflexivity).
        apply IH; [rewrite <- app_assoc; exact Hxs | exact Hs']. }
  apply (H xs [] acc); [reflexivity | exact Hacc].
Qed.

(** The element of [range(0, n)] behind a prefix is the length of the
    prefix. *)
Lemma seqZ_split_index (n : Z) (pre : list Z) (x : Z) (suf : list Z) :
  seqZ 0 n = pre ++ x :: suf -> x = len pre /\ len pre < n.
Proof.
  intros H.
  assert (Hx : seqZ 0 n !! length pre = Some x).
  { rewrite H. rewrite lookup_app_r by lia.
    replace (length pre - length pre)%nat with 0%nat by lia. reflexivity. }
  apply lookup_seqZ in Hx as [-> Hlt]. unfold len. lia.
Qed.

End Loops.

Section Contours.

Context {RNG : PyRandom}.

(** Case analysis on membership in a literal list *)
Ltac members H :=
  repeat (apply elem_of_cons in H as [->|H]);
  [.. | apply elem_of_nil in H; contradiction].

Lemma total_repeat_choice_members (n : Z) (seq : list Z) :
  seq <> [] ->
  total (repeat_M (Z.to_nat n) (random_choice seq))
        (fun l => len l = Z.max 0 n /\ Forall (fun x => x ∈ seq) l).
Proof.
  intros Hne. eapply total_weaken.
  - apply total_repeat_M. apply total_random_choice. exact Hne.
  - intros l [Hl HP]. split; [unfold len; lia | exact HP].
Qed.

Lemma wave_direction_step (i : Z) :
  0 <= i ->
  wave_direction i
  = if i mod 3 =? 0 then wave_direction (i - 1) * -1 else wave_direction (i - 1).
Proof.
  intros Hi. unfold wave_direction.
  destruct (i mod 3 =? 0) eqn:E.
  - apply Z.eqb_eq in E.
    assert (Hq : (i - 1) / 3 = Z.pred (i / 3)) by (Z.div_mod_to_equations; lia).
    rewrite Hq, Z.even_pred, <- Z.negb_even.
    destruct (Z.even (i / 3)); reflexivity.
  - apply Z.eqb_neq in E.
    assert (Hq : (i - 1) / 3 = i / 3) by (Z.div_mod_to_equations; lia).
    rewrite Hq. reflexivity.
Qed.

Lemma sum_Z_app (l1 l2 : list Z) : sum_Z (l1 ++ l2) = sum_Z l1 + sum_Z l2.
Proof. unfold sum_Z. induction l1 as [|x l1 IH]; cbn [fold_right app]; lia. Qed.

Lemma sum_Z_bounds (lo hi : Z) (l : list Z) :
  Forall (fun x => lo <= x <= hi) l -> lo * len l <= sum_Z l <= hi * len l.
Proof.
  induction 1 as [|x l Hx _ IH]; [unfold sum_Z, len; cbn; lia|].
  rewrite len_cons. change (sum_Z (x :: l)) with (x + sum_Z l). lia.
Qed.

Lemma total_generate_contour_length (contour_type : Contour) (length : Z) :
  total (generate_contour contour_type length) (fun l => len l = Z.max 0 length).
Proof.
  destruct contour_type; cbn [generate_contour];
    try (eapply total_weaken;
         [apply total_repeat_choice_members; discriminate | intros l [Hl _]; exact Hl]).
  - (* ARCH *)
    apply total_bind with (P := fun l => len l = Z.max 0 (length / 2)).
    { eapply total_weaken;
        [apply total_repeat_choice_members; discriminate | intros l [Hl _]; exact Hl]. }
    intros rise Hrise.
    apply total_bind with (P := fun l => len l = Z.max 0 (length - length / 2)).
    { eapply total_weaken;
        [apply total_repeat_choice_members; discriminate | intros l [Hl _]; exact Hl]. }
    intros fall Hfall. apply total_ret. rewrite len_app, Hrise, Hfall.
    Z.div_mod_to_equations. lia.
  - (* WAVE *)
    apply total_bind with (P := fun r => len (fst r) = Z.max 0 length);
      [|intros r Hr; apply total_ret; exact Hr].
    eapply total_weaken.
    + apply total_for_M_prefix
        with (I := fun (pre : list Z) (r : list Z * Z) => len (fst r) = len pre).
      * reflexivity.
      * intros pre i suf [pattern direction] _ Hlen. cbn [fst] in Hlen.
        apply total_bind with (P := fun _ => True).
        { eapply total_weaken; [apply total_random_choice; discriminate | auto]. }
        intros c _. apply total_ret. cbn [fst]. rewrite !len_app, Hlen. reflexivity.
    + intros r Hr. rewrite Hr. unfold py_range, len. rewrite length_seqZ. lia.
Qed.

(** X5. [generate_contour] always returns, and returns exactly
    [max(0, length)] intervals, whatever the contour type. *)
Theorem generate_contour_length (contour_type : Contour) (length : Z)
    (g : rng_state) :
  exists (intervals : list Z) (g' : rng_state),
    generate_contour contour_type length g = Ret (intervals, g')
    /\ len intervals = Z.max 0 length.
Proof.
  destruct (total_generate_contour_length contour_type length g)
    as (intervals & g' & Hrun & Hlen).
  exists intervals, g'. split; [exact Hrun | exact Hlen].
Qed.

(** X6. An [ARCH] contour rises, then falls: its first [length // 2]
    steps are drawn from 1, 2, 3 and the remaining ones from -1, -2, -3.
    So for a length of 2 or more the first half sums to more than 0 and
    the second half to less than 0. *)
Theorem generate_contour_arch_rises_then_falls (length : Z) :
  total (generate_contour ARCH length)
        (fun l =>
           let mid := Z.to_nat (length / 2) in
           Forall (fun x => x ∈ [1; 2; 3]) (take mid l)
           /\ Forall (fun x => x ∈ [-1; -2; -3]) (drop mid l)
           /\ (2 <= length -> 0 < sum_Z (take mid l) /\ sum_Z (drop mid l) < 0)).
Proof.
  cbn [generate_contour].
  apply total_bind
    with (P := fun l => len l = Z.max 0 (length / 2) /\ Forall (fun x => x ∈ [1; 2; 3]) l);
    [apply total_repeat_choice_members; discriminate|].
  intros rise [Hrlen Hrise].
  apply total_bind
    with (P := fun l => len l = Z.max 0 (length - length / 2)
                        /\ Forall (fun x => x ∈ [-1; -2; -3]) l);
    [apply total_repeat_choice_members; discriminate|].
  intros fall [Hflen Hfall]. apply total_ret. cbv zeta.
  assert (Hmid : Z.to_nat (length / 2) = List.length rise) by (unfold len in Hrlen; lia).
  rewrite Hmid, take_app_length, drop_app_length.
  split; [exact Hrise|]. split; [exact Hfall|].
  intros Hlen.
  assert (Hr : 1 * len rise <= sum_Z rise <= 3 * len rise).
  { apply sum_Z_bounds. eapply Forall_impl; [exact Hrise|].
    intros x Hx. cbn. members Hx; lia. }
  assert (Hf : -3 * len fall <= sum_Z fall <= -1 * len fall).
  { apply sum_Z_bounds. eapply Forall_impl; [exact Hfall|].
    intros x Hx. cbn. members Hx; lia. }
  assert (1 <= length / 2) by (Z.div_mod_to_equations; lia).
  assert (1 <= length - length / 2) by (Z.div_mod_to_equations; lia).
  lia.
Qed.

(** X7. A [WAVE] contour starts downward and flips its direction every
    third step: step [i] is [d] or [2 * d], where [d] is -1 when
    [i // 3] is even and +1 when it is odd. *)
Theorem generate_contour_wave_directions (length : Z) :
  total (generate_contour WAVE length)
        (fun l => forall (i : nat) (x : Z),
             l !! i = Some x ->
             x = wave_direction (Z.of_nat i) * 1 \/ x = wave_direction (Z.of_nat i) * 2).
Proof.
  cbn [generate_contour].
  apply total_bind
    with (P := fun r : list Z * Z => forall (i : nat) (x : Z),
                 fst r !! i = Some x ->
                 x = wave_direction (Z.of_nat i) * 1 \/ x = wave_direction (Z.of_nat i) * 2);
    [|intros r Hr; apply total_ret; exact Hr].
  eapply total_weaken.
  - apply total_for_M_prefix
      with (I := fun (pre : list Z) (r : list Z * Z) =>
                   len (fst r) = len pre
                   /\ snd r = wave_direction (len pre - 1)
                   /\ forall (i : nat) (x : Z),
                        fst r !! i = Some x ->
                        x = wave_direction (Z.of_nat i) * 1
                        \/ x = wave_direction (Z.of_nat i) * 2).
    + split; [reflexivity|]. split; [reflexivity|]. intros i x Hx. discriminate.
    + intros pre i suf [pattern direction] Hsplit (Hlen & Hdir & Hpat).
      cbn [fst snd] in *. apply seqZ_split_index in Hsplit as [-> Hlt].
      apply total_bind with (P := fun c => c ∈ [1; 2]);
        [apply total_random_choice; discriminate|].
      intros c Hc. apply total_ret. cbn [fst snd].
      assert (Hnew : (if len pre mod 3 =? 0 then direction * -1 else direction)
                     = wave_direction (len pre)).
      { rewrite (wave_direction_step (len pre)) by apply len_nonneg.
        rewrite Hdir. reflexivity. }
      rewrite Hnew, !len_app, Hlen.
      split; [reflexivity|]. split.
      { f_equal. unfold len. cbn. lia. }
      intros j x Hx. apply lookup_app_Some in Hx as [Hx|[Hge Hx]].
      * apply Hpat. exact Hx.
      * apply list_lookup_singleton_Some in Hx as [Hj <-].
        assert (Hjeq : Z.of_nat j = len pre) by (unfold len in *; lia).
        rewrite Hjeq. members Hc; [left | right]; reflexivity.
  - intros r (_ & _ & Hpat). exact Hpat.
Qed.

(** X8. The other contours keep their steps in a fixed range:
    [DESCENDING] in -2..0 (so the sum is at most 0),
    [ASCENDING] in 0..2 (so the sum is at least 0), [STATIC] in -1..1. *)
Theorem generate_contour_step_ranges (length : Z) :
  total (generate_contour DESCENDING length)
        (fun l => Forall (fun x => -2 <= x <= 0) l /\ sum_Z l <= 0)
  /\ total (generate_contour ASCENDING length)
           (fun l => Forall (fun x => 0 <= x <= 2) l /\ 0 <= sum_Z l)
  /\ total (generate_contour STATIC length)
           (fun l => Forall (fun x => -1 <= x <= 1) l).
Proof.
  split; [|split]; cbn [generate_contour].
  - eapply total_weaken; [apply total_repeat_choice_members; discriminate|].
    intros l [_ Hl].
    assert (Hr : Forall (fun x => -2 <= x <= 0) l).
    { eapply Forall_impl; [exact Hl|]. intros x Hx. cbn. members Hx; lia. }
    split; [exact Hr|]. pose proof (sum_Z_bounds _ _ _ Hr). pose proof (len_nonneg l). lia.
  - eapply total_weaken; [apply total_repeat_choice_members; discriminate|].
    intros l [_ Hl].
    assert (Hr : Forall (fun x => 0 <= x <= 2) l).
    { eapply Forall_impl; [exact Hl|]. intros x Hx. cbn. members Hx; lia. }
    split; [exact Hr|]. pose proof (sum_Z_bounds _ _ _ Hr). pose proof (len_nonneg l). lia.
  - eapply total_weaken; [apply total_repeat_choice_members; discriminate|].
    intros l [_ Hl]. eapply Forall_impl; [exact Hl|]. intros x Hx. cbn. members Hx; lia.
Qed.

End Contours.

Section Motifs.

Context {FL : PyFloat} {RNG : PyRandom} {HL : Hashlib}.

Lemma raises_bind_l {A B : Type} (m : M A) (k : A -> M B) (e : pyexn) :
  raises m e -> raises (bind_M m k) e.
Proof. intros Hm g. unfold bind_M. rewrite (Hm g). reflexivity. Qed.

Lemma raises_bind_r {A B : Type} (m : M A) (k : A -> M B) (P : A -> Prop) (e : pyexn) :
  total m P -> (forall a, P a -> raises (k a) e) -> raises (bind_M m k) e.
Proof.
  intros Hm Hk g. destruct (Hm g) as (a & g1 & Hmg & HP).
  rewrite (bind_M_step _ _ _ _ _ Hmg). apply Hk. exact HP.
Qed.

Lemma raises_lift {A : Type} (e : pyexn) : raises (lift_M (@Raise A e)) e.
Proof. intros g. reflexivity. Qed.

Lemma partial_random_choice {A : Type} (seq : list A) :
  partial (random_choice seq) (fun x => x ∈ seq).
Proof.
  destruct seq as [|a seq].
  - intros g x g' H. discriminate.
  - apply total_partial. apply total_random_choice. discriminate.
Qed.

Lemma partial_random_randint (a b : Z) :
  partial (random_randint a b) (fun x => a <= x <= b).
Proof.
  destruct (Z_le_gt_dec a b) as [Hle|Hgt].
  - apply total_partial. apply total_random_randint. exact Hle.
  - intros g x g' H. unfold random_randint in H.
    destruct (0 <? b + 1 - a) eqn:E; [apply Z.ltb_lt in E; lia | discriminate].
Qed.

Lemma raises_random_randint (a b : Z) :
  b < a -> raises (random_randint a b) ValueError.
Proof.
  intros Hlt g. unfold random_randint.
  destruct (0 <? b + 1 - a) eqn:E; [apply Z.ltb_lt in E; lia | reflexivity].
Qed.

Lemma last_cons_default {A : Type} (x d : A) (l : list A) :
  List.last (x :: l) d = List.last l x.
Proof.
  revert x d. induction l as [|y l IH]; intros x d; [reflexivity|].
  change (List.last (x :: y :: l) d) with (List.last (y :: l) d).
  rewrite (IH y d), (IH y x). reflexivity.
Qed.

Lemma follows_contour_snoc (scale : list Z) (contour pitches : list Z)
    (start interval p : Z) :
  follows_contour scale start contour pitches ->
  (p = List.last pitches start + interval
   \/ snap_to_scale scale (List.last pitches start + interval) = Ret p) ->
  follows_contour scale start (contour ++ [interval]) (pitches ++ [p]).
Proof.
  revert start pitches.
  induction contour as [|i contour IH]; intros start [|q pitches] Hf Hp;
    cbn [follows_contour app] in *; try contradiction.
  - split; [exact Hp | exact I].
  - destruct Hf as [Hq Hrest]. split; [exact Hq|].
    apply IH; [exact Hrest|].
    rewrite last_cons_default in Hp. exact Hp.
Qed.

Lemma onsets_snoc (now : Q) (ds : list Q) (d : Q) :
  onsets now (ds ++ [d]) = onsets now ds ++ [fold_left fadd ds now].
Proof.
  revert now. induction ds as [|d0 ds IH]; intros now; cbn [onsets app fold_left].
  - reflexivity.
  - rewrite IH. reflexivity.
Qed.

Lemma partial_generate_motif_shape (scale : list Z) (start_pitch length : Z)
    (contour_type : Contour) (params : MelodyParams) :
  partial (generate_motif scale start_pitch length contour_type params)
    (fun motif =>
       len (motif_contour motif) = Z.max 0 length
       /\ len (motif_notes motif) = len (motif_contour motif)
       /\ follows_contour scale start_pitch (motif_contour motif)
            (map pitch (motif_notes motif))
       /\ Forall (fun n => fst (velocity_range params) <= velocity n
                           <= snd (velocity_range params)) (motif_notes motif)
       /\ exists ds : list Q,
            Forall (fun d => d ∈ DURATION_PALETTE) ds
            /\ map duration (motif_notes motif)
               = map (fun d => fmul d (legato params)) ds
            /\ map start_time (motif_notes motif) = onsets 0 ds).
Proof.
  unfold generate_motif.
  apply partial_bind with (P := fun l => len l = Z.max 0 length);
    [apply total_partial; apply total_generate_contour_length|].
  intros contour0 Hlen.
  apply partial_bind
    with (P := fun st => len (fst (fst st)) = len contour0
                         /\ motif_walk scale start_pitch params contour0 st).
  - apply partial_for_M_prefix
      with (I := fun pre st => len (fst (fst st)) = len pre
                               /\ motif_walk scale start_pitch params pre st).
    + split; [reflexivity|]. cbn. repeat split; try constructor.
      exists []. repeat split; constructor.
    + intros pre interval suf [[notes current_pitch] now] _ [Hn Hwalk].
      cbn [fst] in Hn. destruct Hwalk as (Hf & Hcur & Hvel & ds & Hds & Hdur & Hst & Hnow).
      apply partial_bind
        with (P := fun q => snap_to_scale scale (current_pitch + interval) = Ret q);
        [apply partial_lift; auto|].
      intros closest Hclosest.
      apply partial_bind with (P := fun _ => True); [apply partial_true|].
      intros u _.
      apply partial_bind with (P := fun _ => True); [apply partial_true|].
      intros v _.
      apply partial_bind with (P := fun d => d ∈ DURATION_PALETTE).
      { destruct (Qltb v (syncopation params));
          (eapply partial_weaken; [apply partial_random_choice|]);
          intros d Hd; unfold DURATION_PALETTE;
          repeat (apply elem_of_cons in Hd as [->|Hd]);
          try (apply elem_of_nil in Hd; contradiction);
          repeat first [apply list_elem_of_here | apply list_elem_of_further]. }
      intros d Hd.
      apply partial_bind
        with (P := fun x => fst (velocity_range params) <= x <= snd (velocity_range params));
        [apply partial_random_randint|].
      intros vel Hv. apply partial_ret. cbn [fst].
      split; [rewrite !len_app, Hn; reflexivity|].
      unfold motif_walk. rewrite map_app. cbn [map pitch].
      split.
      { apply follows_contour_snoc; [exact Hf|]. rewrite <- Hcur.
        destruct (Qltb u (flit (1 # 10))); [left; reflexivity | right; exact Hclosest]. }
      split; [rewrite last_last; reflexivity|].
      split; [apply Forall_app; split; [exact Hvel | constructor; [exact Hv | constructor]]|].
      exists (ds ++ [d]).
      split; [apply Forall_app; split; [exact Hds | constructor; [exact Hd | constructor]]|].
      rewrite !map_app, Hdur, Hst, onsets_snoc, fold_left_app, <- Hnow.
      cbn. repeat split; reflexivity.
  - intros [[notes current_pitch] now] [Hn (Hf & _ & Hvel & ds & Hds & Hdur & Hst & _)].
    apply partial_ret. cbn [fst motif_notes motif_contour] in *.
    repeat split; try assumption. exists ds. auto.
Qed.

(** X9. Whenever [generate_motif] returns: the motif has one note per
    contour step, [max(0, length)] of them; its pitches walk along the
    contour (each is the previous pitch plus the step, either as it is or
    snapped to the scale); every velocity lies in [velocity_range]; the
    first note starts at 0, each next one where the drawn duration of the
    previous one ends, and the stored durations are the drawn ones, from
    0.5, 0.75, 1.0, 1.5, times [legato]. *)
Theorem generate_motif_shape (scale : list Z) (start_pitch length : Z)
    (contour_type : Contour) (params : MelodyParams)
    (g : rng_state) (motif : Motif) (g' : rng_state) :
  generate_motif scale start_pitch length contour_type params g = Ret (motif, g') ->
  len (motif_contour motif) = Z.max 0 length
  /\ len (motif_notes motif) = len (motif_contour motif)
  /\ follows_contour scale start_pitch (motif_contour motif)
       (map pitch (motif_notes motif))
  /\ Forall (fun n => fst (velocity_range params) <= velocity n
                      <= snd (velocity_range params)) (motif_notes motif)
  /\ exists ds : list Q,
       Forall (fun d => d ∈ DURATION_PALETTE) ds
       /\ map duration (motif_notes motif)
          = map (fun d => fmul d (legato params)) ds
       /\ map start_time (motif_notes motif) = onsets 0 ds.
Proof.
  intros Hrun.
  exact (partial_generate_motif_shape scale start_pitch length contour_type params
           g motif g' Hrun).
Qed.

(** X10. The edge cases of [generate_motif].  A length of 0 or less
    gives a motif without notes, whatever the scale and the velocity
    range.  With a length of 1 or more it raises [ValueError] on an empty
    scale, and also when the velocity range is empty ([lo > hi]); in both
    cases whatever the generator draws. *)
Theorem generate_motif_edge_cases (scale : list Z) (start_pitch length : Z)
    (contour_type : Contour) (params : MelodyParams) :
  (length <= 0 ->
   total (generate_motif scale start_pitch length contour_type params)
         (fun motif => motif_notes motif = [] /\ motif_contour motif = []))
  /\ (1 <= length -> scale = [] ->
      raises (generate_motif scale start_pitch length contour_type params) ValueError)
  /\ (1 <= length -> scale <> [] ->
      snd (velocity_range params) < fst (velocity_range params) ->
      raises (generate_motif scale start_pitch length contour_type params) ValueError).
Proof.
  split; [|split].
  - intros Hlen. unfold generate_motif.
    apply total_bind with (P := fun l => l = []).
    { eapply total_weaken; [apply total_generate_contour_length|].
      intros l Hl. destruct l; [reflexivity|].
      rewrite len_cons in Hl. pose proof (len_nonneg l). lia. }
    intros ? ->. cbn [for_M].
    apply total_bind with (P := fun st => st = ([], start_pitch, 0%Q));
      [apply total_ret; reflexivity|].
    intros ? ->. apply total_ret. auto.
  - intros Hlen ->. unfold generate_motif.
    apply raises_bind_r with (P := fun l => len l = Z.max 0 length);
      [apply total_generate_contour_length|].
    intros [|interval rest] Hl; [change (len (@nil Z)) with 0 in Hl; lia|].
    apply raises_bind_l. cbn [for_M]. apply raises_bind_l.
    apply raises_bind_l. apply raises_lift.
  - intros Hlen Hscale Hrange. unfold generate_motif.
    apply raises_bind_r with (P := fun l => len l = Z.max 0 length);
      [apply total_generate_contour_length|].
    intros [|interval rest] Hl; [change (len (@nil Z)) with 0 in Hl; lia|].
    apply raises_bind_l. cbn [for_M]. apply raises_bind_l.
    destruct (snap_to_scale_elem scale (start_pitch + interval) Hscale) as (p & Hp & _).
    apply raises_bind_r with (P := fun _ => True);
      [apply total_lift with (x := p); [exact Hp | exact I]|].
    intros closest _.
    apply raises_bind_r with (P := fun _ => True); [apply total_random_random|].
    intros u _.
    apply raises_bind_r with (P := fun _ => True); [apply total_random_random|].
    intros v _.
    apply raises_bind_r with (P := fun _ => True).
    { destruct (Qltb v (syncopation params));
        (eapply total_weaken; [apply total_random_choice; discriminate | auto]). }
    intros d _. apply raises_bind_l. apply raises_random_randint. exact Hrange.
Qed.

End Motifs.

Section Developments.

Context {FL : PyFloat} {RNG : PyRandom} {HL : Hashlib}.

Lemma getitem_first {A : Type} (x : A) (l : list A) : getitem (x :: l) 0 = Ret x.
Proof. reflexivity. Qed.

Lemma enumerate_nonempty {A : Type} (l : list A) (pre : list (Z * A)) (x : Z * A)
    (suf : list (Z * A)) :
  enumerate l = pre ++ x :: suf -> exists a l', l = a :: l'.
Proof.
  destruct l as [|a l']; [|eauto].
  unfold enumerate. cbn. intros H. destruct pre; discriminate.
Qed.

(** One pass of the loop of [develop_motif], whenever it returns: a
    relocated copy of the note is appended; its velocity is that of the
    note, its duration the developed one. *)
Lemma develop_note_effect (motif : Motif) (development : MotifDevelopment)
    (scale : list Z) (start_time0 : Q) (transposition : Z) (first : MelodyNote)
    (acc : list MelodyNote) (i : Z) (note : MelodyNote) :
  getitem (motif_notes motif) 0 = Ret first ->
  partial (develop_note motif development scale start_time0 transposition acc (i, note))
    (fun acc' =>
       exists p : Z,
         acc' = acc ++ [relocated start_time0 first note p
                          (developed_duration development (duration note))]).
Proof.
  intros Hfirst g acc' g' H. unfold develop_note in H.
  apply bind_M_Ret in H as ([p d] & g1 & Hpd & H).
  apply bind_M_Ret in H as (f & g2 & Hf & H).
  apply lift_M_Ret in Hf as [Hf ->]. rewrite Hfirst in Hf. injection Hf as <-.
  apply ret_M_Ret in H as [-> _]. cbn [fst snd].
  exists p. unfold relocated. do 3 f_equal.
  destruct development; cbn [developed_duration].
  - apply ret_M_Ret in Hpd as [[= _ <-] _]. reflexivity.
  - apply bind_M_Ret in Hpd as (q & g3 & _ & Hpd).
    apply ret_M_Ret in Hpd as [[= _ <-] _]. reflexivity.
  - destruct (0 <? i).
    + apply bind_M_Ret in Hpd as (prev & g3 & _ & Hpd).
      apply bind_M_Ret in Hpd as (last & g4 & _ & Hpd).
      apply ret_M_Ret in Hpd as [[= _ <-] _]. reflexivity.
    + apply ret_M_Ret in Hpd as [[= _ <-] _]. reflexivity.
  - apply ret_M_Ret in Hpd as [[= _ <-] _]. reflexivity.
  - apply ret_M_Ret in Hpd as [[= _ <-] _]. reflexivity.
  - apply ret_M_Ret in Hpd as [[= _ <-] _]. reflexivity.
  - apply bind_M_Ret in Hpd as (u & g3 & _ & Hpd).
    destruct (Qltb u (flit (3 # 10))).
    + apply bind_M_Ret in Hpd as (dd & g4 & _ & Hpd).
      apply bind_M_Ret in Hpd as (q & g5 & _ & Hpd).
      apply ret_M_Ret in Hpd as [[= _ <-] _]. reflexivity.
    + apply ret_M_Ret in Hpd as [[= _ <-] _]. reflexivity.
Qed.

Lemma retime_unfold (start_time0 : Q) (notes : list MelodyNote) :
  map pitch (retime start_time0 notes) = map pitch notes
  /\ map duration (retime start_time0 notes) = map duration notes
  /\ map velocity (retime start_time0 notes) = map velocity notes
  /\ map start_time (retime start_time0 notes) = onsets start_time0 (map duration notes).
Proof.
  unfold retime.
  assert (H : forall l done now,
             let r := fst (fold_left
               (fun '(done, current_time) note =>
                  (done ++ [mkMelodyNote (pitch note) current_time (duration note)
                                         (velocity note)],
                   fadd current_time (duration note)))
               l (done, now)) in
             map pitch r = map pitch done ++ map pitch l
             /\ map duration r = map duration done ++ map duration l
             /\ map velocity r = map velocity done ++ map velocity l
             /\ map start_time r = map start_time done ++ onsets now (map duration l)).
  { induction l as [|n l IH]; intros done now; cbn [fold_left map onsets].
    - cbn. rewrite !app_nil_r. auto.
    - destruct (IH (done ++ [mkMelodyNote (pitch n) now (duration n) (velocity n)])
                   (fadd now (duration n))) as (Hp & Hd & Hv & Hs).
      cbv zeta in *. rewrite Hp, Hd, Hv, Hs, !map_app, <- !app_assoc. cbn. auto. }
  destruct (H notes [] start_time0) as (Hp & Hd & Hv & Hs). cbv zeta in *.
  rewrite Hp, Hd, Hv, Hs. auto.
Qed.

Lemma partial_develop_motif_rhythm (motif : Motif) (development : MotifDevelopment)
    (scale : list Z) (start_time0 : Q) (transposition : Z) :
  partial (develop_motif motif development scale start_time0 transposition)
    (fun developed =>
       let durations :=
         developed_order development
           (map (developed_duration development) (map duration (motif_notes motif))) in
       motif_contour developed = motif_contour motif
       /\ length (motif_notes developed) = length (motif_notes motif)
       /\ map velocity (motif_notes developed)
          = developed_order development (map velocity (motif_notes motif))
       /\ map duration (motif_notes developed) = durations
       /\ map start_time (motif_notes developed)
          = match development with
            | RETROGRADE => onsets start_time0 durations
            | _ =>
                map (fun n =>
                       fadd start_time0
                            (fsub (start_time n)
                                  (start_time (List.hd n (motif_notes motif)))))
                    (motif_notes motif)
            end).
Proof.
  unfold develop_motif.
  apply partial_bind
    with (P := fun new_notes =>
                 map velocity new_notes = map velocity (motif_notes motif)
                 /\ map duration new_notes
                    = map (developed_duration development)
                          (map duration (motif_notes motif))
                 /\ map start_time new_notes
                    = map (fun n =>
                             fadd start_time0
                                  (fsub (start_time n)
                                        (start_time (List.hd n (motif_notes motif)))))
                          (motif_notes motif)).
  - eapply partial_weaken.
    + apply partial_for_M_prefix
        with (I := fun (pre : list (Z * MelodyNote)) new_notes =>
                     map velocity new_notes = map velocity (map snd pre)
                     /\ map duration new_notes
                        = map (developed_duration development)
                              (map duration (map snd pre))
                     /\ map start_time new_notes
                        = map (fun n =>
                                 fadd start_time0
                                      (fsub (start_time n)
                                            (start_time (List.hd n (motif_notes motif)))))
                              (map snd pre)).
      * cbn. auto.
      * intros pre [i note] suf acc Hsplit (Hv & Hd & Hs).
        destruct (enumerate_nonempty _ _ _ _ Hsplit) as (first & rest & Hnotes).
        eapply partial_weaken.
        -- apply develop_note_effect with (first := first).
           rewrite Hnotes. reflexivity.
        -- intros acc' (p & ->). rewrite !map_app, Hv, Hd, Hs, Hnotes.
           cbn. auto.
    + intros new_notes H. rewrite snd_enumerate in H. exact H.
  - intros new_notes (Hv & Hd & Hs). apply partial_ret.
    cbn [motif_notes motif_contour]. cbv zeta.
    split; [reflexivity|].
    assert (Hlen : length new_notes = length (motif_notes motif)).
    { rewrite <- (length_map velocity new_notes), Hv, length_map. reflexivity. }
    destruct development; cbn [developed_order];
      try (split; [exact Hlen|]; split; [exact Hv|]; split; [exact Hd | exact Hs]).
    destruct (retime_unfold start_time0 (rev new_notes)) as (_ & Hrd & Hrv & Hrs).
    split.
    { rewrite <- (length_map velocity), Hrv, length_map, length_rev. exact Hlen. }
    rewrite Hrv, Hrd, Hrs, !map_rev, Hv, Hd. auto.
Qed.

(** X11. What no development changes, and what only some change.
    Whenever [develop_motif] returns, the motif has as many notes as its
    source and the contour of its source; the velocities are those of the
    source; the durations are those of the source, times 1.5 for
    [AUGMENTED] and times 0.75 for [DIMINISHED]; for [RETROGRADE] both
    come in reverse order.  Each note starts at [start_time] plus its
    distance from the first source note, except for [RETROGRADE], where
    the notes follow each other from [start_time] on. *)
Theorem develop_motif_rhythm (motif : Motif) (development : MotifDevelopment)
    (scale : list Z) (start_time0 : Q) (transposition : Z)
    (g : rng_state) (developed : Motif) (g' : rng_state) :
  develop_motif motif development scale start_time0 transposition g
  = Ret (developed, g') ->
  let durations :=
    developed_order development
      (map (developed_duration development) (map duration (motif_notes motif))) in
  motif_contour developed = motif_contour motif
  /\ length (motif_notes developed) = length (motif_notes motif)
  /\ map velocity (motif_notes developed)
     = developed_order development (map velocity (motif_notes motif))
  /\ map duration (motif_notes developed) = durations
  /\ map start_time (motif_notes developed)
     = match development with
       | RETROGRADE => onsets start_time0 durations
       | _ =>
           map (fun n =>
                  fadd start_time0
                       (fsub (start_time n)
                             (start_time (List.hd n (motif_notes motif)))))
               (motif_notes motif)
       end.
Proof.
  intros Hrun.
  exact (partial_develop_motif_rhythm motif development scale start_time0
           transposition g developed g' Hrun).
Qed.

(** A loop of [develop_motif] whose passes draw nothing *)
Lemma develop_loop_pure (motif : Motif) (development : MotifDevelopment)
    (scale : list Z) (start_time0 : Q) (transposition : Z)
    (f : MelodyNote -> MelodyNote) (zl : list (Z * MelodyNote))
    (acc : list MelodyNote) (g : rng_state) :
  (forall acc0 i note, (i, note) ∈ zl ->
      develop_note motif development scale start_time0 transposition acc0 (i, note) g
      = Ret (acc0 ++ [f note], g)) ->
  for_M zl (develop_note motif development scale start_time0 transposition) acc g
  = Ret (acc ++ map f (map snd zl), g).
Proof.
  revert acc. induction zl as [|[i note] zl IH]; intros acc Hstep.
  - cbn. rewrite app_nil_r. reflexivity.
  - cbn [for_M]. rewrite (bind_M_step _ _ _ _ _ (Hstep acc i note ltac:(left))).
    rewrite IH by (intros; apply Hstep; right; assumption).
    cbn. rewrite <- app_assoc. reflexivity.
Qed.

Lemma develop_motif_pure (motif : Motif) (development : MotifDevelopment)
    (scale : list Z) (start_time0 : Q) (transposition : Z)
    (f : MelodyNote -> MelodyNote) (g : rng_state) :
  development <> RETROGRADE ->
  (forall acc0 i note, (i, note) ∈ enumerate (motif_notes motif) ->
      develop_note motif development scale start_time0 transposition acc0 (i, note) g
      = Ret (acc0 ++ [f note], g)) ->
  develop_motif motif development scale start_time0 transposition g
  = Ret (mkMotif (map f (motif_notes motif)) (motif_contour motif), g).
Proof.
  intros Hdev Hstep. unfold develop_motif.
  rewrite (bind_M_step _ _ _ _ _
             (develop_loop_pure motif development scale start_time0 transposition
                f _ [] g Hstep)).
  rewrite snd_enumerate. cbn [app].
  destruct development; try reflexivity. congruence.
Qed.

Lemma enumerate_member_first {A : Type} (l : list A) (i : Z) (x : A) :
  (i, x) ∈ enumerate l -> exists a l', l = a :: l'.
Proof.
  intros Hin. apply list_elem_of_split in Hin as (pre & suf & H).
  eapply enumerate_nonempty. exact H.
Qed.

Lemma same_pitches_same_hash (m1 m2 : Motif) :
  map pitch (motif_notes m1) = map pitch (motif_notes m2) ->
  get_hash m1 = get_hash m2.
Proof. intros H. rewrite !get_hash_signature, H. reflexivity. Qed.

(** X12. [EXACT], [AUGMENTED] and [DIMINISHED] always return, draw no
    random number, and keep every pitch; the developed motif therefore
    has the identity hash of its source and counts toward the same
    repetition bucket. *)
Theorem develop_motif_same_bucket (motif : Motif) (development : MotifDevelopment)
    (scale : list Z) (start_time0 : Q) (transposition : Z) (g : rng_state) :
  development = EXACT \/ development = AUGMENTED \/ development = DIMINISHED ->
  exists developed : Motif,
    develop_motif motif development scale start_time0 transposition g
    = Ret (developed, g)
    /\ map pitch (motif_notes developed) = map pitch (motif_notes motif)
    /\ get_hash developed = get_hash motif.
Proof.
  intros Hdev.
  set (f := fun note =>
              relocated start_time0 (List.hd note (motif_notes motif)) note
                        (pitch note) (developed_duration development (duration note))).
  assert (Hrun : develop_motif motif development scale start_time0 transposition g
                 = Ret (mkMotif (map f (motif_notes motif)) (motif_contour motif), g)).
  { apply develop_motif_pure; [destruct Hdev as [->|[->| ->]]; discriminate|].
    intros acc0 i note Hin.
    destruct (enumerate_member_first _ _ _ Hin) as (first & rest & Hnotes).
    unfold develop_note, bind_M, lift_M, ret_M, f. rewrite Hnotes.
    destruct Hdev as [->|[->| ->]]; reflexivity. }
  eexists. split; [exact Hrun|].
  assert (Hp : map pitch (map f (motif_notes motif)) = map pitch (motif_notes motif)).
  { rewrite map_map. apply map_ext. intros n. reflexivity. }
  split; [exact Hp|]. apply same_pitches_same_hash. exact Hp.
Qed.

(** X13. [TRANSPOSED].  On a scale that is not empty it always returns
    and draws no random number; every pitch of the result is the source
    pitch plus the offset, snapped, hence a member of the scale; with the
    offset 0 on a source whose pitches are all on the scale nothing
    moves, and the identity hash is that of the source.  On an empty
    scale a motif that has notes makes it raise [ValueError]. *)
Theorem develop_motif_transposed (motif : Motif) (scale : list Z) (start_time0 : Q)
    (transposition : Z) (g : rng_state) :
  (scale <> [] ->
   exists developed : Motif,
     develop_motif motif TRANSPOSED scale start_time0 transposition g
     = Ret (developed, g)
     /\ Forall2 (fun n n' => snap_to_scale scale (pitch n + transposition)
                              = Ret (pitch n'))
                 (motif_notes motif) (motif_notes developed)
     /\ Forall (fun n' => pitch n' ∈ scale) (motif_notes developed)
     /\ (transposition = 0 ->
         Forall (fun n => pitch n ∈ scale) (motif_notes motif) ->
         map pitch (motif_notes developed) = map pitch (motif_notes motif)
         /\ get_hash developed = get_hash motif))
  /\ (scale = [] -> motif_notes motif <> [] ->
      develop_motif motif TRANSPOSED scale start_time0 transposition g
      = Raise ValueError).
Proof.
  split.
  - intros Hscale. destruct scale as [|x rest]; [congruence|].
    set (f := fun note =>
                relocated start_time0 (List.hd note (motif_notes motif)) note
                          (min_by_dist (pitch note + transposition) x rest)
                          (duration note)).
    assert (Hrun : develop_motif motif TRANSPOSED (x :: rest) start_time0 transposition g
                   = Ret (mkMotif (map f (motif_notes motif)) (motif_contour motif), g)).
    { apply develop_motif_pure; [discriminate|].
      intros acc0 i note Hin.
      destruct (enumerate_member_first _ _ _ Hin) as (first & tl & Hnotes).
      unfold develop_note, bind_M, lift_M, ret_M, f. rewrite Hnotes. reflexivity. }
    eexists. split; [exact Hrun|]. cbn [motif_notes].
    assert (Hsnap : Forall2 (fun n n' => snap_to_scale (x :: rest) (pitch n + transposition)
                                         = Ret (pitch n'))
                            (motif_notes motif) (map f (motif_notes motif))).
    { induction (motif_notes motif) as [|n l IH'] in f |- *; cbn [map]; constructor.
      - reflexivity.
      - apply Forall2_fmap_r. apply Forall_Forall2_diag.
        apply Forall_forall. intros; reflexivity. }
    split; [exact Hsnap|]. split.
    { apply Forall_forall. intros n' Hn'.
      apply list_elem_of_fmap in Hn' as (n & -> & _). apply min_by_dist_elem. }
    intros -> Hon.
    assert (Hp : map pitch (map f (motif_notes motif)) = map pitch (motif_notes motif)).
    { rewrite map_map. apply map_ext_in. intros n Hn.
      rewrite Forall_forall in Hon. apply list_elem_of_In in Hn. specialize (Hon n Hn).
      unfold f. cbn [pitch relocated]. rewrite Z.add_0_r.
      pose proof (min_by_dist_nearest (pitch n) x rest (pitch n) Hon). lia. }
    split; [exact Hp|]. apply same_pitches_same_hash. exact Hp.
  - intros -> Hne. unfold develop_motif.
    destruct (motif_notes motif) as [|a l] eqn:Hnotes; [congruence|].
    unfold enumerate.
    rewrite seqZ_cons by (rewrite len_cons; pose proof (len_nonneg l); lia).
    cbn [zip zip_with for_M]. reflexivity.
Qed.

Lemma invert_from_mirror (p q : Z) (ps : list Z) :
  invert_from p q ps = map (fun x => q + p - x) ps.
Proof.
  revert p q. induction ps as [|r ps IH]; intros p q; [reflexivity|].
  cbn [invert_from map]. f_equal; [lia|].
  rewrite IH. apply map_ext. intros x. lia.
Qed.

Lemma develop_motif_inverted_pitches (motif : Motif) (scale : list Z)
    (start_time0 : Q) (transposition : Z) (g : rng_state) :
  exists inverted,
    develop_motif motif INVERTED scale start_time0 transposition g = Ret (inverted, g)
    /\ map pitch (motif_notes inverted)
       = match motif_notes motif with
         | [] => []
         | first :: _ =>
             map (fun p => 2 * pitch first - p) (map pitch (motif_notes motif))
         end.
Proof.
  unfold develop_motif.
  destruct (motif_notes motif) as [|a l] eqn:Hnotes.
  - eexists. split; reflexivity.
  - set (note' := mkMelodyNote (pitch a)
                    (fadd start_time0 (fsub (start_time a) (start_time a)))
                    (duration a) (velocity a)).
    assert (Hstep : develop_note motif INVERTED scale start_time0 transposition
                      [] (0, a) g = Ret ([] ++ [note'], g)).
    { unfold develop_note, bind_M, lift_M, ret_M. rewrite Hnotes. reflexivity. }
    destruct (develop_loop_inverted motif scale start_time0 transposition
                l [] a [] note' g Hnotes) as (tail & Hloop & Htail).
    assert (Hfor : for_M (enumerate (a :: l))
                     (develop_note motif INVERTED scale start_time0 transposition) [] g
                   = Ret (([] ++ [note']) ++ tail, g)).
    { unfold enumerate.
      rewrite seqZ_cons by (rewrite len_cons; pose proof (len_nonneg l); lia).
      cbn [zip zip_with for_M]. rewrite (bind_M_step _ _ _ _ _ Hstep).
      change (Z.succ 0) with (len (@nil MelodyNote) + 1).
      replace (Z.pred (len (a :: l))) with (len l) by (rewrite len_cons; lia).
      exact Hloop. }
    rewrite (bind_M_step _ _ _ _ _ Hfor).
    eexists. split; [reflexivity|].
    cbn [motif_notes app map]. rewrite Htail, invert_from_mirror.
    f_equal; [cbn; lia|]. apply map_ext. intros x. cbn. lia.
Qed.

Lemma develop_motif_retrograde_pitches (motif : Motif) (scale : list Z)
    (start_time0 : Q) (transposition : Z) (g : rng_state) :
  exists retrograde,
    develop_motif motif RETROGRADE scale start_time0 transposition g
    = Ret (retrograde, g)
    /\ map pitch (motif_notes retrograde) = rev (map pitch (motif_notes motif)).
Proof.
  unfold develop_motif.
  destruct (motif_notes motif) as [|a l] eqn:Hnotes.
  - eexists. split; reflexivity.
  - assert (Hfirst : getitem (motif_notes motif) 0 = Ret a)
      by (rewrite Hnotes; reflexivity).
    destruct (develop_loop_retrograde motif scale start_time0 transposition a
                (enumerate (a :: l)) [] g Hfirst) as (tail & Hloop & Htail).
    rewrite (bind_M_step _ _ _ _ _ Hloop).
    eexists. split; [reflexivity|].
    cbn [motif_notes app]. rewrite retime_pitches, map_rev, Htail, snd_enumerate.
    reflexivity.
Qed.

(** X14. [INVERTED] mirrors the motif around the pitch of its first
    note: it always returns, draws no random number, and note [k] of the
    result has the pitch [2 * pitch[0] - pitch[k]]. *)
Theorem develop_motif_inverted_mirror (motif : Motif) (scale : list Z)
    (start_time0 : Q) (transposition : Z) (g : rng_state) :
  exists inverted : Motif,
    develop_motif motif INVERTED scale start_time0 transposition g = Ret (inverted, g)
    /\ length (motif_notes inverted) = length (motif_notes motif)
    /\ forall (first : MelodyNote) (k : nat) (note : MelodyNote),
         motif_notes motif !! 0%nat = Some first ->
         motif_notes motif !! k = Some note ->
         pitch <$> (motif_notes inverted !! k) = Some (2 * pitch first - pitch note).
Proof.
  destruct (develop_motif_inverted_pitches motif scale start_time0 transposition g)
    as (inverted & Hrun & Hp).
  exists inverted. split; [exact Hrun|]. split.
  - rewrite <- (length_map pitch (motif_notes inverted)), Hp.
    destruct (motif_notes motif); [reflexivity|]. rewrite !length_map. reflexivity.
  - intros first k note Hfirst Hk.
    destruct (motif_notes motif) as [|a l] eqn:Hnotes; [discriminate|].
    injection Hfirst as <-.
    rewrite <- list_lookup_fmap. change (pitch <$> motif_notes inverted)
      with (map pitch (motif_notes inverted)).
    rewrite Hp. change (map ?f ?l) with (f <$> l).
    rewrite !list_lookup_fmap, Hk. reflexivity.
Qed.

(** X15. Inverting twice, and reversing twice, gives back the pitches,
    the durations and the velocities of the source, note by note (the
    start times depend on the start time asked for). *)
Theorem develop_motif_involutions (motif : Motif) (scale : list Z)
    (start1 start2 : Q) (transposition : Z) (g : rng_state)
    (development : MotifDevelopment) :
  development = INVERTED \/ development = RETROGRADE ->
  exists once twice : Motif,
    develop_motif motif development scale start1 transposition g = Ret (once, g)
    /\ develop_motif once development scale start2 transposition g = Ret (twice, g)
    /\ map pitch (motif_notes twice) = map pitch (motif_notes motif)
    /\ map duration (motif_notes twice) = map duration (motif_notes motif)
    /\ map velocity (motif_notes twice) = map velocity (motif_notes motif).
Proof.
  intros [->| ->].
  - destruct (develop_motif_inverted_pitches motif scale start1 transposition g)
      as (once & Hrun1 & Hp1).
    destruct (develop_motif_inverted_pitches once scale start2 transposition g)
      as (twice & Hrun2 & Hp2).
    destruct (partial_develop_motif_rhythm _ _ _ _ _ _ _ _ Hrun1) as (_ & _ & Hv1 & Hd1 & _).
    destruct (partial_develop_motif_rhythm _ _ _ _ _ _ _ _ Hrun2) as (_ & _ & Hv2 & Hd2 & _).
    cbn [developed_order developed_duration] in *.
    exists once, twice. split; [exact Hrun1|]. split; [exact Hrun2|].
    split; [|split].
    + destruct (motif_notes motif) as [|a l] eqn:Hnotes.
      * destruct (motif_notes once); [|discriminate]. exact Hp2.
      * destruct (motif_notes once) as [|b l1] eqn:Honce; [discriminate|].
        cbn [map] in Hp1. injection Hp1 as Hb Hl1.
        rewrite Hp2. cbn [map]. rewrite Hb, Hl1.
        f_equal; [lia|]. rewrite map_map. rewrite <- (map_id (map pitch l)) at 2.
        apply map_ext. intros x. lia.
    + rewrite Hd2, !map_id, Hd1, map_id. reflexivity.
    + rewrite Hv2, Hv1. reflexivity.
  - destruct (develop_motif_retrograde_pitches motif scale start1 transposition g)
      as (once & Hrun1 & Hp1).
    destruct (develop_motif_retrograde_pitches once scale start2 transposition g)
      as (twice & Hrun2 & Hp2).
    destruct (partial_develop_motif_rhythm _ _ _ _ _ _ _ _ Hrun1) as (_ & _ & Hv1 & Hd1 & _).
    destruct (partial_develop_motif_rhythm _ _ _ _ _ _ _ _ Hrun2) as (_ & _ & Hv2 & Hd2 & _).
    cbn [developed_order developed_duration] in *.
    exists once, twice. split; [exact Hrun1|]. split; [exact Hrun2|].
    split; [|split].
    + rewrite Hp2, Hp1, rev_involutive. reflexivity.
    + rewrite Hd2, !map_id, Hd1, map_id, rev_involutive. reflexivity.
    + rewrite Hv2, Hv1, rev_involutive. reflexivity.
Qed.

(** X16. [VARIED] on a scale that is not empty always returns, and
    leaves each pitch as it is or replaces it by the pitch moved by -2,
    -1, 1 or 2 semitones and snapped to the scale. *)
Theorem develop_motif_varied (motif : Motif) (scale : list Z) (start_time0 : Q)
    (transposition : Z) :
  scale <> [] ->
  total (develop_motif motif VARIED scale start_time0 transposition)
    (fun developed =>
       Forall2 (fun n n' =>
                  pitch n' = pitch n
                  \/ exists d, d ∈ [-2; -1; 1; 2]
                               /\ snap_to_scale scale (pitch n + d) = Ret (pitch n'))
               (motif_notes motif) (motif_notes developed)).
Proof.
  intros Hscale. unfold develop_motif.
  set (R := fun n n' : MelodyNote =>
              pitch n' = pitch n
              \/ exists d, d ∈ [-2; -1; 1; 2]
                           /\ snap_to_scale scale (pitch n + d) = Ret (pitch n')).
  apply total_bind with (P := fun new_notes => Forall2 R (motif_notes motif) new_notes);
    [|intros new_notes H; apply total_ret; exact H].
  eapply total_weaken.
  - apply total_for_M_prefix
      with (I := fun (pre : list (Z * MelodyNote)) acc => Forall2 R (map snd pre) acc).
    + constructor.
    + intros pre [i note] suf acc Hsplit Hacc.
      destruct (enumerate_nonempty _ _ _ _ Hsplit) as (first & rest & Hnotes).
      unfold develop_note.
      apply total_bind
        with (P := fun pd : Z * Q =>
                     fst pd = pitch note
                     \/ exists d, d ∈ [-2; -1; 1; 2]
                                  /\ snap_to_scale scale (pitch note + d) = Ret (fst pd)).
      * apply total_bind with (P := fun _ => True); [apply total_random_random|].
        intros u _. destruct (Qltb u (flit (3 # 10))).
        -- apply total_bind with (P := fun d => d ∈ [-2; -1; 1; 2]);
             [apply total_random_choice; discriminate|].
           intros d Hd.
           destruct (snap_to_scale_elem scale (pitch note + d) Hscale) as (q & Hq & _).
           apply total_bind with (P := fun q' => q' = q);
             [apply total_lift with (x := q); [exact Hq | reflexivity]|].
           intros ? ->. apply total_ret. right. exists d. auto.
        -- apply total_ret. left. reflexivity.
      * intros pd Hpd.
        apply total_bind with (P := fun _ => True).
        { apply total_lift with (x := first); [rewrite Hnotes; reflexivity | exact I]. }
        intros f _. apply total_ret. rewrite map_app.
        apply Forall2_app; [exact Hacc|]. constructor; [exact Hpd | constructor].
  - intros new_notes H. rewrite snd_enumerate in H. exact H.
Qed.

End Developments.

Section Invariance.

Context {FL : PyFloat} {RNG : PyRandom} {HL : Hashlib}.

Lemma signature_shift (k : Z) (ps : list Z) :
  signature (map (fun p => p + k) ps) = signature ps.
Proof.
  induction ps as [|a tl IH]; [reflexivity|].
  destruct tl as [|b rest]; [reflexivity|].
  change (signature (map (fun p => p + k) (a :: b :: rest)))
    with ((b + k - (a + k)) :: signature (map (fun p => p + k) (b :: rest))).
  change (signature (a :: b :: rest)) with ((b - a) :: signature (b :: rest)).
  rewrite IH. f_equal. lia.
Qed.

Lemma sliding_windows_shift (k : Z) (ps : list Z) :
  sliding_windows (map (fun p => p + k) ps) = sliding_windows ps.
Proof.
  induction ps as [|a tl IH]; [reflexivity|].
  destruct tl as [|b [|c [|d rest]]]; try reflexivity.
  change (sliding_windows (map (fun p => p + k) (a :: b :: c :: d :: rest)))
    with ([b + k - (a + k); c + k - (b + k); d + k - (c + k)]
            :: sliding_windows (map (fun p => p + k) (b :: c :: d :: rest))).
  change (sliding_windows (a :: b :: c :: d :: rest))
    with ([b - a; c - b; d - c] :: sliding_windows (b :: c :: d :: rest)).
  rewrite IH. f_equal. repeat (f_equal; try lia).
Qed.

Lemma sliding_windows_mirror (k : Z) (ps : list Z) :
  sliding_windows (map (fun p => k - p) ps) = map (map Z.opp) (sliding_windows ps).
Proof.
  induction ps as [|a tl IH]; [reflexivity|].
  destruct tl as [|b [|c [|d rest]]]; try reflexivity.
  change (sliding_windows (map (fun p => k - p) (a :: b :: c :: d :: rest)))
    with ([k - b - (k - a); k - c - (k - b); k - d - (k - c)]
            :: sliding_windows (map (fun p => k - p) (b :: c :: d :: rest))).
  change (sliding_windows (a :: b :: c :: d :: rest))
    with ([b - a; c - b; d - c] :: sliding_windows (b :: c :: d :: rest)).
  rewrite IH. cbn [map]. f_equal. repeat (f_equal; try lia).
Qed.

Lemma remove_dups_map_length {A B : Type} `{EqDecision A} `{EqDecision B}
    (f : A -> B) (l : list A) :
  (forall x y, f x = f y -> x = y) ->
  length (remove_dups (map f l)) = length (remove_dups l).
Proof.
  intros Hinj. induction l as [|x l IH]; [reflexivity|].
  cbn [map remove_dups].
  destruct (decide_rel elem_of x l) as [Hin|Hout];
    destruct (decide_rel elem_of (f x) (map f l)) as [Hin'|Hout']; cbn [length].
  - exact IH.
  - exfalso. apply Hout'. apply list_elem_of_fmap. eauto.
  - exfalso. apply Hout. apply list_elem_of_fmap in Hin' as (y & Hy & Hyl).
    apply Hinj in Hy. subst. exact Hyl.
  - rewrite IH. reflexivity.
Qed.

Lemma map_opp_injective (x y : list Z) : map Z.opp x = map Z.opp y -> x = y.
Proof.
  revert y. induction x as [|a x IH]; intros [|b y] H; try discriminate; [reflexivity|].
  cbn [map] in H. injection H as Hab Hxy. f_equal; [lia | apply IH; exact Hxy].
Qed.

(** X17. The identity hash looks at pitch differences only: two motifs
    whose pitch sequences differ by a constant offset, whatever their
    timing, dynamics and contour field, have the same [get_hash]. *)
Theorem get_hash_transposition_invariant (motif1 motif2 : Motif) (k : Z) :
  map pitch (motif_notes motif2) = map (fun p => p + k) (map pitch (motif_notes motif1)) ->
  get_hash motif2 = get_hash motif1.
Proof.
  intros Hp. rewrite !get_hash_signature, Hp, signature_shift. reflexivity.
Qed.

(** X18. The uniqueness score looks at pitch differences only, and not
    at their direction: a melody transposed by a constant, and a melody
    mirrored around a pitch (every pitch [p] replaced by [k - p]), score
    exactly as the original does, whatever their timing and dynamics. *)
Theorem calculate_uniqueness_invariant (melody1 melody2 : Melody) (k : Z) :
  map pitch (melody_notes melody2) = map (fun p => p + k) (map pitch (melody_notes melody1))
  \/ map pitch (melody_notes melody2)
     = map (fun p => k - p) (map pitch (melody_notes melody1)) ->
  calculate_uniqueness melody2 = calculate_uniqueness melody1.
Proof.
  intros Hp. unfold calculate_uniqueness.
  assert (Hlen : len (melody_notes melody2) = len (melody_notes melody1)).
  { unfold len. f_equal.
    rewrite <- (length_map pitch (melody_notes melody2)).
    destruct Hp as [-> | ->]; rewrite !length_map; reflexivity. }
  destruct (Z_lt_le_dec (len (melody_notes melody1)) 4) as [Hlt|Hge].
  - rewrite !calculate_uniqueness_notes_small by lia. reflexivity.
  - rewrite !calculate_uniqueness_notes_large by lia. rewrite Hlen.
    do 2 f_equal. unfold distinct_windows. f_equal.
    destruct Hp as [-> | ->].
    + rewrite sliding_windows_shift. reflexivity.
    + rewrite sliding_windows_mirror.
      apply remove_dups_map_length. apply map_opp_injective.
Qed.

End Invariance.

Section OptimizerScore.

Context {FL : PyFloat} {RNG : PyRandom} {HL : Hashlib}.

Lemma total_and {A : Type} (m : M A) (P Q : A -> Prop) :
  total m P -> partial m Q -> total m (fun a => P a /\ Q a).
Proof.
  intros Hp Hq g. destruct (Hp g) as (a & g' & Hrun & Ha).
  exists a, g'. split; [exact Hrun|]. split; [exact Ha | exact (Hq _ _ _ Hrun)].
Qed.

Lemma calculate_uniqueness_bounds (melody : Melody) (score : Q) :
  calculate_uniqueness melody = Ret score -> (0 <= score <= 1)%Q.
Proof.
  unfold calculate_uniqueness.
  destruct (Z_lt_le_dec (len (melody_notes melody)) 4) as [Hlt|Hge].
  - rewrite calculate_uniqueness_notes_small by exact Hlt.
    intros [= <-]. split; discriminate.
  - rewrite calculate_uniqueness_notes_large by exact Hge.
    intros [= <-]. apply truediv_unit_interval; [|lia].
    unfold distinct_windows. split; [lia|].
    pose proof (remove_dups_length_le (sliding_windows (map pitch (melody_notes melody))))
      as Hd.
    rewrite sliding_windows_length, length_map in Hd. unfold len in *. lia.
Qed.

Lemma partial_optimize_step_fresh (melody : Melody) (scale : list Z) (st : Melody * Q) :
  score_is_fresh st ->
  partial (optimize_step melody scale st) score_is_fresh.
Proof.
  intros Hst g st' g' H. destruct st as [best_melody best_score].
  unfold optimize_step in H.
  apply bind_M_Ret in H as (num_changes & g1 & _ & H).
  apply bind_M_Ret in H as (indices & g2 & _ & H).
  apply bind_M_Ret in H as (notes' & g3 & _ & H).
  apply bind_M_Ret in H as (new_score & g4 & Hscore & H).
  apply lift_M_Ret in Hscore as [Hscore ->].
  apply bind_M_Ret in H as (accept & g5 & _ & H).
  destruct accept; apply ret_M_Ret in H as [-> _].
  - exact Hscore.
  - exact Hst.
Qed.

Lemma total_optimize_melody_fresh (melody : Melody) (max_iterations : Z) :
  total (optimize_melody melody max_iterations)
        (fun result =>
           optimized_from
             (get_scale_notes (root_note (melody_params melody))
                (mode (melody_params melody)) (octave (melody_params melody)))
             melody result
           /\ calculate_uniqueness result = Ret (uniqueness_score result)).
Proof.
  unfold optimize_melody.
  set (scale := get_scale_notes _ _ _).
  assert (Hscale : scale <> []).
  { subst scale.
    destruct (get_scale_notes_cons (root_note (melody_params melody))
                (mode (melody_params melody)) (octave (melody_params melody)))
      as (x & rest & ->). discriminate. }
  destruct (total_calculate_uniqueness melody) as (score & Hscore).
  apply total_bind with (P := fun q => q = score);
    [apply total_lift with (x := score); [exact Hscore | reflexivity]|].
  intros ? ->.
  apply total_bind
    with (P := fun st => optimized_from scale melody (fst st) /\ score_is_fresh st).
  { apply total_for_M.
    - cbn [fst]. split; [|exact Hscore].
      unfold optimized_from. split; [apply pitch_variation_refl | auto].
    - intros st _ [Hopt Hfresh] _. apply total_and.
      + apply total_optimize_step; assumption.
      + apply partial_optimize_step_fresh. exact Hfresh. }
  intros [best_melody best_score] [Hbest Hfresh]. cbn [fst] in Hbest.
  apply total_ret. destruct Hbest as (Hv & Hm & Hp).
  split; [unfold optimized_from; cbn; auto|].
  unfold score_is_fresh, calculate_uniqueness in *. cbn in *. exact Hfresh.
Qed.

(** X19. Whatever the melody and the iteration budget, the
    [uniqueness_score] that [optimize_melody] stores in its result is the
    score [calculate_uniqueness] gives for the notes of that result, and
    lies in [0, 1]; the motif list and the params are those of the
    argument. *)
Theorem optimize_melody_score_is_fresh (melody : Melody) (max_iterations : Z)
    (g : rng_state) :
  exists (result : Melody) (g' : rng_state),
    optimize_melody melody max_iterations g = Ret (result, g')
    /\ calculate_uniqueness result = Ret (uniqueness_score result)
    /\ (0 <= uniqueness_score result <= 1)%Q
    /\ melody_motifs result = melody_motifs melody
    /\ melody_params result = melody_params melody.
Proof.
  destruct (total_optimize_melody_fresh melody max_iterations g)
    as (result & g' & Hrun & (_ & Hm & Hp) & Hfresh).
  exists result, g'. split; [exact Hrun|]. split; [exact Hfresh|].
  split; [exact (calculate_uniqueness_bounds _ _ Hfresh)|]. auto.
Qed.

(** X20. With an iteration budget of 0 or less [optimize_melody] draws
    no random number and returns its argument with the score of the
    argument: notes, motifs and params are unchanged. *)
Theorem optimize_melody_no_iterations (melody : Melody) (max_iterations : Z)
    (g : rng_state) :
  max_iterations <= 0 ->
  exists score : Q,
    calculate_uniqueness melody = Ret score
    /\ optimize_melody melody max_iterations g
       = Ret (mkMelody (melody_notes melody) (melody_motifs melody)
                       (melody_params melody) score, g).
Proof.
  intros Hn. destruct (total_calculate_uniqueness melody) as (score & Hscore).
  exists score. split; [exact Hscore|].
  unfold optimize_melody, py_range. rewrite seqZ_nil by lia.
  unfold bind_M, lift_M. rewrite Hscore. reflexivity.
Qed.

End OptimizerScore.

Section Assembly.

Context {FL : PyFloat} {RNG : PyRandom} {HL : Hashlib}.

(** The accepted branch copies the notes of the candidate: only the
    start times change. *)
Lemma adjusted_notes_effect (now : Q) (motif : Motif) (adjusted : list MelodyNote) :
  adjusted_notes now motif = Ret adjusted ->
  map pitch adjusted = map pitch (motif_notes motif)
  /\ map duration adjusted = map duration (motif_notes motif)
  /\ map velocity adjusted = map velocity (motif_notes motif).
Proof.
  unfold adjusted_notes.
  remember (getitem (motif_notes motif) 0) as first eqn:Hfirst. clear Hfirst.
  generalize (motif_notes motif). intros l. revert adjusted.
  induction l as [|note l IH]; intros adjusted H.
  - injection H as <-. auto.
  - destruct first as [f| |]; cbn [obind] in H; try discriminate.
    match type of H with
    | obind ?o _ = _ => destruct o as [rest| |] eqn:Hrest; cbn [obind] in H;
                        try discriminate
    end.
    injection H as <-. destruct (IH rest Hrest) as (Hp & Hd & Hv).
    cbn [map pitch duration velocity]. rewrite Hp, Hd, Hv. auto.
Qed.

Lemma velocities_in_range_app (params : MelodyParams) (l1 l2 : list MelodyNote) :
  velocities_in_range params l1 -> velocities_in_range params l2 ->
  velocities_in_range params (l1 ++ l2).
Proof.
  unfold velocities_in_range. intros H1 H2. rewrite map_app.
  apply Forall_app. auto.
Qed.

Lemma candidate_fits (params : MelodyParams) (scale : list Z) (s : AsmState)
    (motif : Motif) (pool' : list Motif) :
  Forall (motif_fits params) (motifs_used s) ->
  candidate_origin params scale s motif pool' ->
  motif_fits params motif /\ Forall (motif_fits params) pool'.
Proof.
  intros Hpool [[-> (source & development & transposition & g & g' & Hin & Hrun)]
               |[-> (start_pitch & contour0 & g & g' & Hrun)]].
  - split; [|exact Hpool].
    rewrite Forall_forall in Hpool. destruct (Hpool source Hin) as [Hlen Hvel].
    destruct (partial_develop_motif_rhythm _ _ _ _ _ _ _ _ Hrun)
      as (_ & Hl & Hv & _).
    split.
    + unfold len in *. rewrite Hl. exact Hlen.
    + unfold velocities_in_range in *. rewrite Hv.
      destruct development; cbn [developed_order]; try exact Hvel.
      apply Forall_rev. exact Hvel.
  - destruct (partial_generate_motif_shape _ _ _ _ _ _ _ _ Hrun)
      as (Hc & Hn & _ & Hv & _).
    assert (Hfit : motif_fits params motif).
    { split; [rewrite Hn; exact Hc|].
      unfold velocities_in_range. apply Forall_fmap. exact Hv. }
    split; [exact Hfit|]. apply Forall_app. split; [exact Hpool|].
    constructor; [exact Hfit | constructor].
Qed.

Lemma assembled_ok_step (params : MelodyParams) (scale : list Z)
    (beats_per_measure : Z) (s : AsmState) :
  assembled_ok params s ->
  partial (assembly_step params scale beats_per_measure s) (assembled_ok params).
Proof.
  intros (Hpool & Hmotifs & Hcount & Hvel) g s' g' Hstep.
  destruct (assembly_step_pass _ _ _ _ _ _ _ Hstep)
    as (motif & h & Horigin & (_ & _ & _ & Hacc & Hrej)).
  destruct (candidate_fits _ _ _ _ _ Hpool Horigin) as [[Hlen Hmv] Hpool'].
  unfold assembled_ok. split; [exact Hpool'|].
  destruct (Z_le_gt_dec (ledger_count (pattern_counts s) h + 1) (max_repetition params))
    as [Hok|Hover].
  - destruct (Hacc Hok) as (Hm & adjusted & Hadj & Hn).
    destruct (adjusted_notes_effect _ _ _ Hadj) as (_ & _ & Hav).
    rewrite Hm, Hn. split; [|split].
    + apply Forall_app. split; [exact Hmotifs|]. constructor; [|constructor].
      split; assumption.
    + rewrite !len_app, Hcount.
      assert (Hal : len adjusted = len (motif_notes motif)).
      { unfold len. f_equal.
        rewrite <- (length_map velocity adjusted), Hav, length_map. reflexivity. }
      rewrite Hal, Hlen. change (len [motif]) with 1. lia.
    + apply velocities_in_range_app; [exact Hvel|].
      unfold velocities_in_range in *. rewrite Hav. exact Hmv.
  - destruct (Hrej ltac:(lia)) as [Hm Hn]. rewrite Hm, Hn. auto.
Qed.

Lemma assemble_melody_ok (fuel : nat) (params : MelodyParams) :
  partial (assemble_melody fuel params) (assembled_ok params).
Proof.
  unfold assemble_melody.
  apply partial_bind with (P := fun _ => True); [apply partial_true|].
  intros start_pitch _.
  apply partial_bind with (P := motif_fits params).
  { eapply partial_weaken; [apply partial_generate_motif_shape|].
    intros motif (Hc & Hn & _ & Hv & _).
    split; [rewrite Hn; exact Hc|].
    unfold velocities_in_range. apply Forall_fmap. exact Hv. }
  intros initial_motif Hfit.
  apply partial_assembly_loop.
  - unfold assembled_ok, entry_state. cbn.
    repeat split; try constructor; [exact Hfit | constructor].
  - intros s0 Hs0. apply assembled_ok_step. exact Hs0.
Qed.

Lemma pitch_variation_velocity (scale : list Z) (l l' : list MelodyNote) :
  pitch_variation scale l l' -> map velocity l' = map velocity l.
Proof.
  induction 1 as [|n n' l l' (_ & _ & Hv & _) _ IH]; [reflexivity|].
  cbn [map]. rewrite Hv, IH. reflexivity.
Qed.

Lemma generate_melody_assembled (fuel : nat) (params : MelodyParams)
    (seed : option Z) (g : rng_state) (melody : Melody) (g' : rng_state) :
  generate_melody fuel params seed g = Ret (melody, g') ->
  Forall (motif_fits params) (melody_motifs melody)
  /\ len (melody_notes melody)
     = len (melody_motifs melody) * Z.max 0 (motif_length params)
  /\ velocities_in_range params (melody_notes melody).
Proof.
  intros Hrun.
  destruct (generate_melody_draft _ _ _ _ _ _ Hrun)
    as (s & g0 & g1 & Hasm & _ & Hopt & Hmotifs & _).
  destruct (assemble_melody_ok fuel params _ _ _ Hasm) as (_ & Hm & Hcount & Hvel).
  destruct (total_partial _ _ (total_optimize_melody _ _) _ _ _ Hopt) as (Hvar & _).
  cbn [melody_notes] in Hvar.
  rewrite Hmotifs. split; [exact Hm|]. split.
  - unfold len in *. rewrite <- (Forall2_length _ _ _ Hvar). exact Hcount.
  - unfold velocities_in_range in *.
    rewrite (pitch_variation_velocity _ _ _ Hvar). exact Hvel.
Qed.

(** X21. In every melody [generate_melody] returns, each motif of the
    motif list has exactly [max(0, motif_length)] notes, and the note
    list has [max(0, motif_length)] notes per motif of the motif list:
    a candidate is kept whole or dropped whole, and the optimizer neither
    adds nor removes a note. *)
Theorem generate_melody_note_count (fuel : nat) (params : MelodyParams)
    (seed : option Z) (g : rng_state) (melody : Melody) (g' : rng_state) :
  generate_melody fuel params seed g = Ret (melody, g') ->
  Forall (fun m => len (motif_notes m) = Z.max 0 (motif_length params))
         (melody_motifs melody)
  /\ len (melody_notes melody)
     = len (melody_motifs melody) * Z.max 0 (motif_length params).
Proof.
  intros Hrun.
  destruct (generate_melody_assembled _ _ _ _ _ _ Hrun) as (Hfit & Hcount & _).
  split; [|exact Hcount].
  eapply Forall_impl; [exact Hfit|]. intros m [Hlen _]. exact Hlen.
Qed.

(** X22. Every note of a melody [generate_melody] returns has its
    velocity within [velocity_range]: velocities are drawn there when a
    motif is generated, and no development, no relocation and no
    optimizer pass changes a velocity. *)
Theorem generate_melody_velocities (fuel : nat) (params : MelodyParams)
    (seed : option Z) (g : rng_state) (melody : Melody) (g' : rng_state) :
  generate_melody fuel params seed g = Ret (melody, g') ->
  Forall (fun n => fst (velocity_range params) <= velocity n
                   <= snd (velocity_range params))
         (melody_notes melody).
Proof.
  intros Hrun.
  destruct (generate_melody_assembled _ _ _ _ _ _ Hrun) as (_ & _ & Hvel).
  unfold velocities_in_range in Hvel. apply Forall_fmap in Hvel. exact Hvel.
Qed.

Lemma nothing_kept_step (params : MelodyParams) (scale : list Z)
    (beats_per_measure : Z) (s : AsmState) :
  max_repetition params <= 0 ->
  nothing_kept s ->
  partial (assembly_step params scale beats_per_measure s) nothing_kept.
Proof.
  intros Hmax (Hn & Hm & Hledger) g s' g' Hstep.
  destruct (assembly_step_effect params scale beats_per_measure s _ _ _ Hstep)
    as (motif & h & (_ & Hcounts & _ & _ & Hrej)).
  pose proof (Hledger h) as Hh.
  destruct (Hrej ltac:(lia)) as [Hm' Hn'].
  unfold nothing_kept. rewrite Hm', Hn'. split; [exact Hn|]. split; [exact Hm|].
  intros h'. unfold ledger_count in *. rewrite Hcounts, lookup_insert.
  destruct (decide (h = h')) as [<-|Hne].
  - change (0 <= default 0 (pattern_counts s !! h) + 1). lia.
  - apply Hledger.
Qed.

(** X23. With [max_repetition] of 0 or less every candidate is over the
    cap: a melody [generate_melody] returns then has no notes and no
    motifs. *)
Theorem generate_melody_nothing_allowed (fuel : nat) (params : MelodyParams)
    (seed : option Z) (g : rng_state) (melody : Melody) (g' : rng_state) :
  max_repetition params <= 0 ->
  generate_melody fuel params seed g = Ret (melody, g') ->
  melody_notes melody = [] /\ melody_motifs melody = [].
Proof.
  intros Hmax Hrun.
  destruct (generate_melody_draft _ _ _ _ _ _ Hrun)
    as (s & g0 & g1 & Hasm & _ & Hopt & Hmotifs & _).
  assert (Hkept : nothing_kept s).
  { revert Hasm. unfold assemble_melody. intros Hasm.
    apply bind_M_Ret in Hasm as (sp & g2 & _ & Hasm).
    apply bind_M_Ret in Hasm as (im & g3 & _ & Hloop).
    refine (partial_assembly_loop fuel params _ _ _ nothing_kept _ _ _ _ _ _ Hloop).
    - unfold nothing_kept, entry_state, ledger_count. cbn.
      split; [reflexivity|]. split; [reflexivity|].
      intros h. rewrite lookup_empty. cbn. lia.
    - intros s0 Hs0. apply nothing_kept_step; assumption. }
  destruct Hkept as (Hn & Hm & _).
  destruct (total_partial _ _ (total_optimize_melody _ _) _ _ _ Hopt) as (Hvar & _).
  cbn [melody_notes] in Hvar. rewrite Hn in Hvar.
  split; [inversion Hvar; reflexivity | rewrite Hmotifs; exact Hm].
Qed.

(** X24. The [uniqueness_score] of a melody [generate_melody] returns is
    the score [calculate_uniqueness] gives for its notes, lies in [0, 1],
    and the melody carries the params of the call. *)
Theorem generate_melody_score (fuel : nat) (params : MelodyParams)
    (seed : option Z) (g : rng_state) (melody : Melody) (g' : rng_state) :
  generate_melody fuel params seed g = Ret (melody, g') ->
  calculate_uniqueness melody = Ret (uniqueness_score melody)
  /\ (0 <= uniqueness_score melody <= 1)%Q
  /\ melody_params melody = params.
Proof.
  intros Hrun.
  destruct (generate_melody_draft _ _ _ _ _ _ Hrun)
    as (s & g0 & g1 & _ & _ & Hopt & _ & Hparams).
  destruct (total_partial _ _ (total_optimize_melody_fresh _ _) _ _ _ Hopt)
    as (_ & Hfresh).
  split; [exact Hfresh|]. split; [|exact Hparams].
  exact (calculate_uniqueness_bounds _ _ Hfresh).
Qed.

End Assembly.

Section GenrePresets.

Context {FL : PyFloat} {RNG : PyRandom} {HL : Hashlib}.

Lemma assign_preset_unfold (genre : string) (duration_seconds0 : Z)
    (root_note0 : string) (presets : gmap string MelodyParams) :
  assign_preset genre duration_seconds0 root_note0 presets
  = match presets !! "relaxation"%string with
    | None => Raise KeyError
    | Some fallback =>
        let params := overwritten duration_seconds0 root_note0
                        (default fallback (presets !! genre)) in
        Ret (params, <[preset_key presets genre := params]> presets)
    end.
Proof.
  unfold assign_preset, dict_getitem.
  destruct (presets !! "relaxation"%string); reflexivity.
Qed.

Lemma overwritten_twice (d1 d2 : Z) (r1 r2 : string) (p : MelodyParams) :
  overwritten d2 r2 (overwritten d1 r1 p) = overwritten d2 r2 p.
Proof. reflexivity. Qed.

Lemma generate_melody_for_genre_unfold (fuel : nat) (genre : string)
    (duration_seconds0 : Z) (root_note0 : string) (seed : option Z)
    (presets : gmap string MelodyParams) (g : rng_state) :
  without_store
    (generate_melody_for_genre fuel genre duration_seconds0 root_note0 seed presets g)
  = match presets !! "relaxation"%string with
    | None => Raise KeyError
    | Some fallback =>
        generate_melody fuel
          (overwritten duration_seconds0 root_note0 (default fallback (presets !! genre)))
          seed g
    end.
Proof.
  unfold generate_melody_for_genre. unfold bind_M at 1. unfold lift_M.
  rewrite assign_preset_unfold.
  destruct (presets !! "relaxation"%string) as [fallback|]; [|reflexivity].
  cbv zeta. cbn [fst snd]. unfold bind_M at 1.
  destruct (generate_melody fuel _ seed g) as [[m g']| |]; reflexivity.
Qed.

(** X25. [generate_melody_for_genre] with a genre that has no preset
    does exactly what it does for "relaxation" (same melody, same change
    of the store).  When the store has no "relaxation" preset it raises
    [KeyError] for every genre, known or not, because the default of the
    lookup is evaluated first. *)
Theorem generate_melody_for_genre_fallback (fuel : nat) (genre : string)
    (duration_seconds0 : Z) (root_note0 : string) (seed : option Z)
    (presets : gmap string MelodyParams) (g : rng_state) :
  (presets !! genre = None ->
   generate_melody_for_genre fuel genre duration_seconds0 root_note0 seed presets g
   = generate_melody_for_genre fuel "relaxation" duration_seconds0 root_note0 seed
       presets g)
  /\ (presets !! "relaxation"%string = None ->
      generate_melody_for_genre fuel genre duration_seconds0 root_note0 seed presets g
      = Raise KeyError).
Proof.
  split.
  - intros Hnone. unfold generate_melody_for_genre. unfold bind_M at 1 3.
    unfold lift_M. rewrite !assign_preset_unfold. unfold preset_key. rewrite Hnone.
    destruct (presets !! "relaxation"%string) as [fallback|]; reflexivity.
  - intros Hnone. unfold generate_melody_for_genre. unfold bind_M at 1.
    unfold lift_M. rewrite assign_preset_unfold, Hnone. reflexivity.
Qed.

(** X26. The change a call leaves in the store of presets does not show
    in later calls: whatever call was made before, a call returns the
    melody (or raises the exception) that it returns on the store as it
    was before, because both fields an earlier call wrote are written
    again. *)
Theorem generate_melody_for_genre_later_call (fuel1 : nat) (genre1 : string)
    (duration1 : Z) (root1 : string) (seed1 : option Z)
    (presets presets1 : gmap string MelodyParams) (g1 g1' : rng_state)
    (melody1 : Melody) :
  generate_melody_for_genre fuel1 genre1 duration1 root1 seed1 presets g1
  = Ret ((melody1, presets1), g1') ->
  forall (fuel : nat) (genre : string) (duration_seconds0 : Z) (root_note0 : string)
         (seed : option Z) (g : rng_state),
    without_store
      (generate_melody_for_genre fuel genre duration_seconds0 root_note0 seed presets1 g)
    = without_store
        (generate_melody_for_genre fuel genre duration_seconds0 root_note0 seed presets g).
Proof.
  intros Hrun fuel genre duration_seconds0 root_note0 seed g.
  assert (Hstore : exists fallback,
             presets !! "relaxation"%string = Some fallback
             /\ presets1
                = <[preset_key presets genre1 :=
                      overwritten duration1 root1 (default fallback (presets !! genre1))]>
                    presets).
  { unfold generate_melody_for_genre in Hrun.
    apply bind_M_Ret in Hrun as ([p ps] & g2 & Hassign & Hrun).
    apply lift_M_Ret in Hassign as [Hassign ->].
    apply bind_M_Ret in Hrun as (m & g3 & _ & Hrun).
    apply ret_M_Ret in Hrun as [[= _ <-] _].
    rewrite assign_preset_unfold in Hassign.
    destruct (presets !! "relaxation"%string) as [fallback|]; [|discriminate].
    injection Hassign as _ <-. eauto. }
  destruct Hstore as (fallback & Hfb & ->).
  rewrite !generate_melody_for_genre_unfold, Hfb.
  set (p1 := overwritten duration1 root1 (default fallback (presets !! genre1))).
  assert (Hkey : exists p0, presets !! preset_key presets genre1 = Some p0
                            /\ p1 = overwritten duration1 root1 p0).
  { unfold preset_key, p1. destruct (presets !! genre1) as [x|] eqn:E.
    - exists x. auto.
    - exists fallback. auto. }
  destruct Hkey as (p0 & Hp0 & Hp1).
  assert (Hlook : forall k,
             <[preset_key presets genre1 := p1]> presets !! k
             = if decide (preset_key presets genre1 = k) then Some p1
               else presets !! k).
  { intros k. rewrite lookup_insert. reflexivity. }
  rewrite !Hlook.
  destruct (decide (preset_key presets genre1 = "relaxation"%string)) as [Hrel|Hrel];
    destruct (decide (preset_key presets genre1 = genre)) as [Hgen|Hgen].
  - rewrite <- Hgen, Hp0. unfold default; cbn [from_option id]. rewrite Hp1, overwritten_twice. reflexivity.
  - rewrite Hrel in Hp0. rewrite Hfb in Hp0. injection Hp0 as <-.
    destruct (presets !! genre) as [x|]; unfold default; cbn [from_option id]; [reflexivity|].
    rewrite Hp1, overwritten_twice. reflexivity.
  - rewrite Hfb. rewrite <- Hgen, Hp0. unfold default; cbn [from_option id].
    rewrite Hp1, overwritten_twice. reflexivity.
  - rewrite Hfb. reflexivity.
Qed.

End GenrePresets.

Section Duration.

Context {FL : PyFloat}.

Lemma py_max_cases (a b : Q) :
  (py_max a b = a \/ py_max a b = b)
  /\ (a <= py_max a b)%Q /\ (b <= py_max a b)%Q.
Proof.
  unfold py_max, Qltb. destruct (Qle_bool b a) eqn:E; cbn [negb].
  - apply Qle_bool_iff in E. split; [left; reflexivity|].
    split; [apply Qle_refl | exact E].
  - assert (Hlt : (a < b)%Q).
    { apply Qnot_le_lt. intros Hle. apply Qle_bool_iff in Hle. congruence. }
    split; [right; reflexivity|].
    split; [apply Qlt_le_weak; exact Hlt | apply Qle_refl].
Qed.

Lemma fold_py_max_greatest (rest : list Q) (x : Q) :
  let r := fold_left py_max rest x in
  (x <= r)%Q /\ Forall (fun y => (y <= r)%Q) rest /\ r ∈ x :: rest.
Proof.
  revert x. induction rest as [|y rest IH]; intros x; cbn [fold_left].
  - cbv zeta. split; [apply Qle_refl|]. split; [constructor | left].
  - destruct (IH (py_max x y)) as (Hr & Hall & Hin). cbv zeta in *.
    destruct (py_max_cases x y) as (Hcase & Hx & Hy).
    split; [eapply Qle_trans; eassumption|].
    split; [constructor; [eapply Qle_trans; eassumption | exact Hall]|].
    apply elem_of_cons in Hin as [Hin|Hin].
    + rewrite Hin. destruct Hcase as [-> | ->]; [left | right; left].
    + right. right. exact Hin.
Qed.

(** X27. [Melody.get_duration_beats] never raises.  For a melody
    without notes it is 0; otherwise it is the end ([start_time +
    duration]) of one of the notes, and no note ends later. *)
Theorem get_duration_beats_is_last_end (melody : Melody) :
  (melody_notes melody = [] -> get_duration_beats melody = Ret 0%Q)
  /\ (melody_notes melody <> [] ->
      exists total : Q,
        get_duration_beats melody = Ret total
        /\ (exists n, n ∈ melody_notes melody
                      /\ total = fadd (start_time n) (duration n))
        /\ forall n, n ∈ melody_notes melody ->
             (fadd (start_time n) (duration n) <= total)%Q).
Proof.
  unfold get_duration_beats. split.
  - intros ->. reflexivity.
  - intros Hne. destruct (melody_notes melody) as [|a l] eqn:Hnotes; [congruence|].
    assert (Hlen : (len (a :: l) =? 0) = false).
    { apply Z.eqb_neq. rewrite len_cons. pose proof (len_nonneg l). lia. }
    rewrite Hlen. cbn [map py_max_of].
    destruct (fold_py_max_greatest
                (map (fun n => fadd (start_time n) (duration n)) l)
                (fadd (start_time a) (duration a))) as (Hx & Hall & Hin).
    cbv zeta in *. eexists. split; [reflexivity|]. split.
    + apply elem_of_cons in Hin as [Hin|Hin].
      * exists a. split; [left | exact Hin].
      * apply list_elem_of_fmap in Hin as (n & Hn & Hnl).
        exists n. split; [right; exact Hnl | exact Hn].
    + intros n Hn. apply elem_of_cons in Hn as [->|Hn]; [exact Hx|].
      rewrite Forall_forall in Hall. apply Hall.
      apply list_elem_of_fmap. eauto.
Qed.

End Duration.

(* ------------------------------------------------------------------ *)
(** ** The further properties on explicit inputs                       *)
(* ------------------------------------------------------------------ *)

Section MoreExamples.

#[local] Existing Instance Runtime.fixed_point.
#[local] Existing Instance Runtime.tape_rng.
#[local] Existing Instance Runtime.toy_hashlib.

(** X3 on an input: an unknown chord type gives the major triad *)
Lemma get_chord_notes_shape_witness :
  get_chord_notes 60 "power" = [60; 64; 67].
Proof.
  apply (proj1 (get_chord_notes_shape 60 "power")). vm_compute. reflexivity.
Defined.

(** X9 on an input *)
Lemma generate_motif_shape_witness :
  exists (motif : Motif) (g' : rng_state),
    generate_motif c_major 64 4 ARCH params_8s no_draws = Ret (motif, g')
    /\ len (motif_contour motif) = 4
    /\ len (motif_notes motif) = len (motif_contour motif).
Proof.
  assert (Hret : match generate_motif c_major 64 4 ARCH params_8s no_draws with
                 | Ret _ => true
                 | _ => false
                 end = true) by (vm_compute; reflexivity).
  destruct (generate_motif c_major 64 4 ARCH params_8s no_draws)
    as [[motif g']| |] eqn:E; try discriminate Hret.
  exists motif, g'. split; [reflexivity|].
  destruct (generate_motif_shape c_major 64 4 ARCH params_8s no_draws motif g' E)
    as (Hcontour & Hnotes & _).
  split; [exact Hcontour | exact Hnotes].
Defined.

(** X10 on an input: an empty scale *)
Lemma generate_motif_edge_cases_witness :
  generate_motif [] 64 4 ARCH params_8s no_draws = Raise ValueError.
Proof.
  apply (proj1 (proj2 (generate_motif_edge_cases [] 64 4 ARCH params_8s))).
  - lia.
  - reflexivity.
Defined.

(** X11 on an input *)
Lemma develop_motif_rhythm_witness :
  develop_motif arch_motif RETROGRADE c_major 0 0 no_draws
  = Ret (developed arch_motif RETROGRADE, no_draws)
  /\ length (motif_notes (developed arch_motif RETROGRADE)) = 3%nat.
Proof.
  assert (Hrun : develop_motif arch_motif RETROGRADE c_major 0 0 no_draws
                 = Ret (developed arch_motif RETROGRADE, no_draws))
    by (vm_compute; reflexivity).
  split; [exact Hrun|].
  exact (proj1 (proj2 (develop_motif_rhythm arch_motif RETROGRADE c_major 0 0 no_draws
                         (developed arch_motif RETROGRADE) no_draws Hrun))).
Defined.

(** X12 on an input *)
Lemma develop_motif_same_bucket_witness :
  exists developed : Motif,
    develop_motif arch_motif AUGMENTED c_major 0 0 no_draws = Ret (developed, no_draws)
    /\ get_hash developed = get_hash arch_motif.
Proof.
  destruct (develop_motif_same_bucket arch_motif AUGMENTED c_major 0 0 no_draws
              (or_intror (or_introl eq_refl)))
    as (developed & Hrun & _ & Hhash).
  exists developed. split; [exact Hrun | exact Hhash].
Defined.

(** X13 on an input: an empty scale *)
Lemma develop_motif_transposed_witness :
  develop_motif arch_motif TRANSPOSED [] 0 2 no_draws = Raise ValueError.
Proof.
  apply (proj2 (develop_motif_transposed arch_motif [] 0 2 no_draws)).
  - reflexivity.
  - vm_compute. discriminate.
Defined.

(** X15 on an input *)
Lemma develop_motif_involutions_witness :
  exists once twice : Motif,
    develop_motif arch_motif INVERTED c_major 0 0 no_draws = Ret (once, no_draws)
    /\ develop_motif once INVERTED c_major 4 0 no_draws = Ret (twice, no_draws)
    /\ map pitch (motif_notes twice) = map pitch (motif_notes arch_motif).
Proof.
  destruct (develop_motif_involutions arch_motif c_major 0 4 0 no_draws INVERTED
              (or_introl eq_refl))
    as (once & twice & Hone & Htwo & Hpitch & _).
  exists once, twice. split; [exact Hone|]. split; [exact Htwo | exact Hpitch].
Defined.

(** X16 on an input *)
Lemma develop_motif_varied_witness :
  exists (developed : Motif) (g' : rng_state),
    develop_motif arch_motif VARIED c_major 0 0 some_draws = Ret (developed, g')
    /\ length (motif_notes developed) = 3%nat.
Proof.
  assert (Hscale : c_major <> []) by (vm_compute; discriminate).
  destruct (develop_motif_varied arch_motif c_major 0 0 Hscale some_draws)
    as (developed & g' & Hrun & Hall).
  exists developed, g'. split; [exact Hrun|].
  apply Forall2_length in Hall. rewrite <- Hall. reflexivity.
Defined.

(** X17 on an input *)
Lemma get_hash_transposition_invariant_witness :
  get_hash arch_motif_in_g = get_hash arch_motif.
Proof.
  apply (get_hash_transposition_invariant arch_motif arch_motif_in_g 7).
  vm_compute. reflexivity.
Defined.

(** X18 on an input *)
Lemma calculate_uniqueness_invariant_witness :
  calculate_uniqueness four_notes_in_d = calculate_uniqueness four_notes.
Proof.
  apply (calculate_uniqueness_invariant four_notes four_notes_in_d 2).
  left. vm_compute. reflexivity.
Defined.

(** X20 on an input *)
Lemma optimize_melody_no_iterations_witness :
  exists score : Q,
    calculate_uniqueness four_notes = Ret score
    /\ optimize_melody four_notes 0 two_passes
       = Ret (mkMelody (melody_notes four_notes) (melody_motifs four_notes)
                       (melody_params four_notes) score, two_passes).
Proof.
  apply (optimize_melody_no_iterations four_notes 0 two_passes). lia.
Defined.

(** X21 on an input *)
Lemma generate_melody_note_count_witness :
  generate_melody 40 params_8s (Some 42) no_draws = Ret (melody_8s, state_8s)
  /\ len (melody_notes melody_8s) = len (melody_motifs melody_8s) * 4.
Proof.
  assert (Hrun : generate_melody 40 params_8s (Some 42) no_draws = Ret (melody_8s, state_8s))
    by (vm_compute; reflexivity).
  split; [exact Hrun|].
  exact (proj2 (generate_melody_note_count 40 params_8s (Some 42) no_draws
                  melody_8s state_8s Hrun)).
Defined.

(** X22 on an input *)
Lemma generate_melody_velocities_witness :
  generate_melody 40 params_8s (Some 42) no_draws = Ret (melody_8s, state_8s)
  /\ Forall (fun n => 50 <= velocity n <= 80) (melody_notes melody_8s).
Proof.
  assert (Hrun : generate_melody 40 params_8s (Some 42) no_draws = Ret (melody_8s, state_8s))
    by (vm_compute; reflexivity).
  split; [exact Hrun|].
  exact (generate_melody_velocities 40 params_8s (Some 42) no_draws
           melody_8s state_8s Hrun).
Defined.

(** X23 on an input *)
Lemma generate_melody_nothing_allowed_witness :
  exists (melody : Melody) (g' : rng_state),
    generate_melody 40 params_no_repetition (Some 42) no_draws = Ret (melody, g')
    /\ melody_notes melody = [].
Proof.
  assert (Hret : match generate_melody 40 params_no_repetition (Some 42) no_draws with
                 | Ret _ => true
                 | _ => false
                 end = true) by (vm_compute; reflexivity).
  destruct (generate_melody 40 params_no_repetition (Some 42) no_draws)
    as [[melody g']| |] eqn:E; try discriminate Hret.
  exists melody, g'. split; [reflexivity|].
  apply (generate_melody_nothing_allowed 40 params_no_repetition (Some 42) no_draws
           melody g').
  - vm_compute. discriminate.
  - exact E.
Defined.

(** X24 on an input *)
Lemma generate_melody_score_witness :
  generate_melody 40 params_8s (Some 42) no_draws = Ret (melody_8s, state_8s)
  /\ calculate_uniqueness melody_8s = Ret (uniqueness_score melody_8s).
Proof.
  assert (Hrun : generate_melody 40 params_8s (Some 42) no_draws = Ret (melody_8s, state_8s))
    by (vm_compute; reflexivity).
  split; [exact Hrun|].
  exact (proj1 (generate_melody_score 40 params_8s (Some 42) no_draws
                  melody_8s state_8s Hrun)).
Defined.

(** X25 on an input: a genre without a preset *)
Lemma generate_melody_for_genre_fallback_witness :
  generate_melody_for_genre 40 "polka" 8 "D" (Some 1) GENRE_PRESETS no_draws
  = generate_melody_for_genre 40 "relaxation" 8 "D" (Some 1) GENRE_PRESETS no_draws.
Proof.
  apply (proj1 (generate_melody_for_genre_fallback 40 "polka" 8 "D" (Some 1)
                  GENRE_PRESETS no_draws)).
  vm_compute. reflexivity.
Defined.

(** X26 on an input: a call for "ambient" after a call for "relaxation" *)
Lemma generate_melody_for_genre_later_call_witness :
  exists (melody1 : Melody) (presets1 : gmap string MelodyParams) (g1' : rng_state),
    generate_melody_for_genre 200 "relaxation" 30 "G" (Some 1) GENRE_PRESETS no_draws
    = Ret ((melody1, presets1), g1')
    /\ without_store
         (generate_melody_for_genre 40 "ambient" 8 "D" (Some 2) presets1 no_draws)
       = without_store
           (generate_melody_for_genre 40 "ambient" 8 "D" (Some 2) GENRE_PRESETS no_draws).
Proof.
  assert (Hret : match generate_melody_for_genre 200 "relaxation" 30 "G" (Some 1)
                         GENRE_PRESETS no_draws with
                 | Ret _ => true
                 | _ => false
                 end = true) by (vm_compute; reflexivity).
  destruct (generate_melody_for_genre 200 "relaxation" 30 "G" (Some 1)
              GENRE_PRESETS no_draws)
    as [[[melody1 presets1] g1']| |] eqn:E; try discriminate Hret.
  exists melody1, presets1, g1'. split; [reflexivity|].
  exact (generate_melody_for_genre_later_call 200 "relaxation" 30 "G" (Some 1)
           GENRE_PRESETS presets1 no_draws g1' melody1 E
           40%nat "ambient"%string 8 "D"%string (Some 2) no_draws).
Defined.

(** X27 on an input *)
Lemma get_duration_beats_is_last_end_witness :
  exists total : Q,
    get_duration_beats four_notes = Ret total
    /\ forall n, n ∈ melody_notes four_notes ->
         (fadd (start_time n) (duration n) <= total)%Q.
Proof.
  destruct (proj2 (get_duration_beats_is_last_end four_notes)) as (total & Hrun & _ & Hmax).
  - vm_compute. discriminate.
  - exists total. split; [exact Hrun | exact Hmax].
Defined.

End MoreExamples.
